(** * cam-ascii-art: the frame converter, the auto-fit sizer and the
      randomizer of [src/components/AsciiConverter.tsx]

    A shallow embedding of the component's callbacks.

    - JavaScript numbers are modelled by exact rationals ([Q]); [Math.floor]
      is [Qfloor], [Math.min]/[Math.max]/[Math.abs] are [Qmin]/[Qmax]/[Qabs]
      (or their [Z] versions once a number is an integer).  Rounding is not
      modelled.
    - The rationals have no infinity and no [NaN], and [x / 0] is [0] there.
      The auto-fit routine, the one place that divides by values that can be
      zero, is therefore given twice: on rationals, which is the routine as
      long as no divisor is zero, and in module [IEEE] on numbers with signed
      zero, infinities and [NaN].  The two are proved to agree wherever no
      divisor is zero.
    - A JavaScript string is the list of its UTF-16 code units, which is what
      [chars.length] and [chars[i]] observe.
    - React state ([settings], [randomSettings], [autoSizing]), the refs and
      the browser objects the callbacks read are passed explicitly; a callback
      that updates state returns the new state.
    - The browser's canvas ([drawImage], [measureText]) and [Math.random] are
      collaborators and enter as function arguments. *)

From Stdlib Require Import String Ascii.
From Stdlib Require Import NArith ZArith QArith Qround Qabs Qminmax Lqa Lia.
From Stdlib Require Import List Bool.
Import ListNotations.

Open Scope Q_scope.

(** ** JavaScript strings *)

Definition codeunit := N.
Definition jsstring := list codeunit.

(** The code units of an ASCII literal. *)
Definition js (s : string) : jsstring :=
  map N_of_ascii (list_ascii_of_string s).

(** [s[i]] for an integer [i]: [undefined] ([None]) outside [0 .. length-1]. *)
Definition charAt (s : jsstring) (i : Z) : option codeunit :=
  if (i <? 0)%Z then None else nth_error s (Z.to_nat i).

Definition undefined_text : jsstring := js "undefined".

(** [acc += v] where [v] is a one-unit string or [undefined]. *)
Definition append_value (acc : jsstring) (v : option codeunit) : jsstring :=
  match v with
  | Some c => acc ++ [c]
  | None => acc ++ undefined_text
  end.

Definition LF : codeunit := 10%N.

(** ** Constants of the module *)

Definition ASCII_PRESETS : list (string * jsstring) :=
  [ ("Standard"%string, js "@#%*+=-:. ");
    ("Minimal"%string, js "@ .=+#");
    ("Minimal 2"%string, js " .:-=+_X");
    ("10 Grays"%string, js " .:*I$VFNM");
    ("Symbolic"%string, js " .':," ++ [34%N] ++ js "-_+=^" ++ [34%N]);
    ("Terminal"%string, js " ._/");
    ("Shaded Box"%string, [32; 0x2591; 0x2592; 0x2593; 0x2588]%N);
    ("Shaded Box 2"%string, js " .,:;i1tfLCG08@" ++ [0x2592; 0x2593; 0x2588]%N);
    ("Distortion"%string,
       [32; 0x258F; 0x258E; 0x258D; 0x258C; 0x258B; 0x258A; 0x2589; 0x2588]%N);
    ("Binary"%string, js "01|" ++ [0xA6%N] ++ js "=+" ++ [0x25A0%N]);
    ("Retro"%string, [0x2588; 0x2593; 0x2592; 0x2591]%N ++ js ".-' " ++ [34%N]);
    ("Block Tech"%string,
       [0x25A1; 0x25AA; 0x25AB; 0x25A0; 0x25B2; 0x25BC; 0x25C6; 0x25FC; 0x25FB]%N) ].

Definition MONOSPACE_FONTS : list jsstring :=
  map js
    [ "JetBrains Mono"; "Fira Code"; "Source Code Pro"; "Roboto Mono";
      "Ubuntu Mono"; "Inconsolata"; "Space Mono"; "IBM Plex Mono"; "PT Mono";
      "Courier Prime"; "Anonymous Pro"; "Overpass Mono"; "Share Tech Mono";
      "Nova Mono"; "VT323"; "Major Mono Display" ]%string.

Record Settings := mkSettings {
  fontSize : Q;
  letterSpacing : Q;
  lineHeight : Q;
  contrast : Q;
  brightness : Q;
  saturation : Q;
  invert : bool;
  grayscale : bool;
  mirrorCamera : bool;
  foregroundColor : jsstring;
  backgroundColor : jsstring;
  asciiSet : jsstring;
  fontFamily : jsstring;
  showStats : bool
}.

Record Controls := mkControls {
  c_fontSize : bool;
  c_letterSpacing : bool;
  c_lineHeight : bool;
  c_contrast : bool;
  c_brightness : bool;
  c_saturation : bool;
  c_invert : bool;
  c_grayscale : bool;
  c_mirrorCamera : bool;
  c_foregroundColor : bool;
  c_backgroundColor : bool;
  c_asciiSet : bool;
  c_fontFamily : bool
}.

Record RandomSettings := mkRandomSettings {
  enabled : bool;
  interval : Q;
  autoMode : bool;
  controls : Controls
}.

(** [autoSizing.d = true] means dimension [d] is still sized automatically;
    [false] means the user (or the randomizer) has taken it over: the
    dimension is locked. *)
Record AutoSizing := mkAutoSizing {
  auto_fontSize : bool;
  auto_letterSpacing : bool;
  auto_lineHeight : bool
}.

Definition DEFAULT_SETTINGS : Settings :=
  {| fontSize := 8; letterSpacing := 0; lineHeight := 1;
     contrast := 100; brightness := 100; saturation := 100;
     invert := false; grayscale := true; mirrorCamera := true;
     foregroundColor := js "#00ff00"; backgroundColor := js "#000000";
     asciiSet := js "@#%*+=-:. "; fontFamily := js "JetBrains Mono";
     showStats := false |}.

Definition DEFAULT_AUTO_SIZING : AutoSizing :=
  {| auto_fontSize := true; auto_letterSpacing := true; auto_lineHeight := true |}.

(** ** pixelToAscii *)

Definition pixelToAscii (settings : Settings) (luminance : Q) (chars : jsstring)
  : option codeunit :=
  let normalized := if invert settings then 1 - luminance else luminance in
  let index := Qfloor (normalized * (inject_Z (Z.of_nat (length chars)) - 1)) in
  charAt chars (Z.max 0 (Z.min index (Z.of_nat (length chars) - 1))).

(** ** The video element, the hidden canvas and the display *)

Record Pixel := mkPixel { red : Z; green : Z; blue : Z; alpha : Z }.

(** [picture x y] is the pixel of the current frame in column [x], row [y]. *)
Record Video := mkVideo {
  readyState : nat;
  videoWidth : nat;
  videoHeight : nat;
  picture : nat -> nat -> Pixel
}.

(** The value assigned to [ctx.filter]. *)
Record Filter := mkFilter {
  flt_contrast : Q;
  flt_brightness : Q;
  flt_saturate : Q;
  flt_grayscale : bool
}.

(** The hidden canvas: its size and its bitmap, by column and row. *)
Record Canvas := mkCanvas {
  cwidth : nat;
  cheight : nat;
  cpixels : nat -> nat -> Pixel
}.

(** The browser's [ctx.drawImage(image, dx, dy, dw, dh)] under the filter and
    the horizontal scale of the current transform, on a canvas of the given
    width and height: the bitmap it leaves.  How source pixels are resampled
    into the destination rectangle is the browser's business. *)
Definition DrawImage :=
  Filter -> Z -> Video -> Z -> Z -> nat -> nat -> nat -> nat -> nat -> nat -> Pixel.

(** [ctx.getImageData(0, 0, sw, sh).data]: the HTML standard has the call
    throw [IndexSizeError] when [sw] or [sh] is zero; otherwise the result is
    the RGBA bytes of the rectangle, row by row. *)
Definition getImageData (c : Canvas) (sw sh : nat) : option (list Z) :=
  if ((sw =? 0) || (sh =? 0))%nat then None
  else Some (flat_map (fun y =>
               flat_map (fun x =>
                 let p := cpixels c x y in [red p; green p; blue p; alpha p])
               (seq 0 sw))
             (seq 0 sh)).

(** [data[i]] of the typed array. *)
Definition byteAt (data : list Z) (i : nat) : Q := inject_Z (nth i data 0%Z).

Record Dom := mkDom {
  videoRef : option Video;
  canvasRef : option Canvas;
  context2d : bool;
  asciiRef : option jsstring
}.

Inductive Outcome := EarlyReturn | IndexSizeError | Rendered.

(** ** processFrame *)

(** The body of the inner loop, first half: the luminance of one cell. *)
Definition cellLuminance (data : list Z) (width x y : nat) : Q :=
  let index := ((y * width + x) * 4)%nat in
  let r := byteAt data index in
  let g := byteAt data (index + 1) in
  let b := byteAt data (index + 2) in
  (0.299 * r + 0.587 * g + 0.114 * b) / 255.

(** Second half: the character appended for the cell. *)
Definition cellChar (settings : Settings) (data : list Z) (width x y : nat)
  : option codeunit :=
  pixelToAscii settings (cellLuminance data width x y) (asciiSet settings).

(** The two nested [for] loops accumulating into [ascii]. *)
Definition renderAscii (settings : Settings) (data : list Z) (width height : nat)
  : jsstring :=
  fold_left (fun ascii y =>
      fold_left (fun ascii x => append_value ascii (cellChar settings data width x y))
                (seq 0 width) ascii ++ [LF])
    (seq 0 height) [].

(** The filter assignment and the "handle camera mirroring" block: the
    bitmap the browser leaves on the canvas.  Mirrored, the frame is drawn at
    [-width] under [ctx.scale(-1, 1)]. *)
Definition drawFrame (drawImage : DrawImage) (settings : Settings)
    (video : Video) (width height : nat) : nat -> nat -> Pixel :=
  let filter := {| flt_contrast := contrast settings;
                   flt_brightness := brightness settings;
                   flt_saturate := saturation settings;
                   flt_grayscale := grayscale settings |} in
  if mirrorCamera settings
  then drawImage filter (-1)%Z video (- Z.of_nat width)%Z 0%Z width height
                 width height
  else drawImage filter 1%Z video 0%Z 0%Z width height width height.

Definition processFrame (drawImage : DrawImage) (pixelStep : nat)
    (settings : Settings) (isPlaying : bool) (dom : Dom) : Outcome * Dom :=
  match videoRef dom, canvasRef dom, asciiRef dom, isPlaying with
  | Some video, Some _, Some _, true =>
      if negb (context2d dom) || negb (readyState video =? 4)%nat
      then (EarlyReturn, dom)
      else
        let width := (videoWidth video / pixelStep)%nat in
        let height := (videoHeight video / pixelStep)%nat in
        let canvas :=
          {| cwidth := width; cheight := height;
             cpixels := drawFrame drawImage settings video width height |} in
        match getImageData canvas width height with
        | None =>
            (IndexSizeError,
             {| videoRef := videoRef dom; canvasRef := Some canvas;
                context2d := context2d dom; asciiRef := asciiRef dom |})
        | Some data =>
            let ascii := renderAscii settings data width height in
            (Rendered,
             {| videoRef := videoRef dom; canvasRef := Some canvas;
                context2d := context2d dom; asciiRef := Some ascii |})
        end
  | _, _, _, _ => (EarlyReturn, dom)
  end.

(** ** Auto-fit *)

(** The routine on rationals.  It is what the code computes as long as no
    divisor is zero ([no_zero_divisor] below); where one is, the code goes
    through an infinity or [NaN] and module [IEEE] has the routine. *)

Definition Qgtb (a b : Q) : bool := negb (Qle_bool a b).

(** [Math.max(lo, Math.min(hi, x))]. *)
Definition clamp (lo hi x : Q) : Q := Qmax lo (Qmin hi x).

(** [textWidth family size] is [ctx.measureText('M').width] for the font
    [size px "family", monospace], or [None] when no 2D context is to be had.
    The quotient is the code's for a font size other than zero. *)
Definition measureGlyphAspect (textWidth : jsstring -> Q -> option Q)
    (fontFamily : jsstring) (fontSize : Q) : Q :=
  match textWidth fontFamily fontSize with
  | None => 0.6
  | Some w => w / fontSize
  end.

Definition with_geometry (s : Settings) (f l h : Q) : Settings :=
  {| fontSize := f; letterSpacing := l; lineHeight := h;
     contrast := contrast s; brightness := brightness s;
     saturation := saturation s; invert := invert s; grayscale := grayscale s;
     mirrorCamera := mirrorCamera s; foregroundColor := foregroundColor s;
     backgroundColor := backgroundColor s; asciiSet := asciiSet s;
     fontFamily := fontFamily s; showStats := showStats s |}.

(** Step 5 of the routine: the new font size, letter spacing and line height
    before they are clamped.  The quotients are the code's where the divisor
    is not zero. *)
Definition solveGeometry (autoSizing : AutoSizing)
    (viewportWidth viewportHeight rows cols glyphAspect : Q)
    (currentFontSize currentLetterSpacing currentLineHeight : Q) : Q * Q * Q :=
  let cellHeight := currentFontSize * currentLineHeight in
  let glyphWidth := currentFontSize * glyphAspect in
  let cellWidth := glyphWidth + currentLetterSpacing * currentFontSize in
  let gridWidth := cols * cellWidth in
  let gridHeight := rows * cellHeight in
  let widthScale := viewportWidth / gridWidth in
  let heightScale := viewportHeight / gridHeight in
  let scale := Qmin widthScale heightScale in
  if auto_fontSize autoSizing && auto_letterSpacing autoSizing
     && auto_lineHeight autoSizing
  then (currentFontSize * scale, currentLetterSpacing * scale, currentLineHeight)
  else if negb (auto_fontSize autoSizing) then
    let newFontSize := currentFontSize in
    let newGlyphWidth := newFontSize * glyphAspect in
    (newFontSize,
     (if auto_letterSpacing autoSizing
      then (viewportWidth / cols - newGlyphWidth) / newFontSize
      else currentLetterSpacing),
     (if auto_lineHeight autoSizing
      then viewportHeight / (rows * newFontSize)
      else currentLineHeight))
  else if negb (auto_letterSpacing autoSizing) then
    let targetCellWidth := viewportWidth / cols in
    let targetLetterSpacingPx := currentLetterSpacing * currentFontSize in
    let newFontSize := (targetCellWidth - targetLetterSpacingPx) / glyphAspect in
    (newFontSize, currentLetterSpacing,
     (if auto_lineHeight autoSizing
      then viewportHeight / (rows * newFontSize)
      else currentLineHeight))
  else if negb (auto_lineHeight autoSizing) then
    let newFontSize := viewportHeight / (rows * currentLineHeight) in
    (newFontSize,
     (if auto_letterSpacing autoSizing
      then (viewportWidth / cols - newFontSize * glyphAspect) / newFontSize
      else currentLetterSpacing),
     currentLineHeight)
  else (currentFontSize, currentLetterSpacing, currentLineHeight).

Definition calculateAutoSize (textWidth : jsstring -> Q -> option Q)
    (pixelStep : nat) (videoRef : option Video) (innerWidth innerHeight : Q)
    (autoSizing : AutoSizing) (settings : Settings) : Settings :=
  match videoRef with
  | None => settings
  | Some video =>
    let viewportWidth := innerWidth in
    let viewportHeight := innerHeight in
    if (negb (videoWidth video =? 0) && negb (videoHeight video =? 0))%nat then
      let rows := inject_Z (Z.of_nat (videoHeight video / pixelStep)) in
      let cols := inject_Z (Z.of_nat (videoWidth video / pixelStep)) in
      let currentFontSize := fontSize settings in
      let currentLetterSpacing := letterSpacing settings in
      let currentLineHeight := lineHeight settings in
      let glyphAspect :=
        measureGlyphAspect textWidth (fontFamily settings) currentFontSize in
      let cellHeight := currentFontSize * currentLineHeight in
      let glyphWidth := currentFontSize * glyphAspect in
      let cellWidth := glyphWidth + currentLetterSpacing * currentFontSize in
      let gridWidth := cols * cellWidth in
      let gridHeight := rows * cellHeight in
      if Qle_bool gridWidth viewportWidth && Qle_bool gridHeight viewportHeight
      then settings
      else if negb (auto_fontSize autoSizing)
              && negb (auto_letterSpacing autoSizing)
              && negb (auto_lineHeight autoSizing)
      then settings
      else
        let '(solvedFontSize, solvedLetterSpacing, solvedLineHeight) :=
          solveGeometry autoSizing viewportWidth viewportHeight rows cols
            glyphAspect currentFontSize currentLetterSpacing currentLineHeight in
        let newFontSize := clamp 4 128 solvedFontSize in
        let newLineHeight := clamp 0.5 3 solvedLineHeight in
        let newLetterSpacing := clamp (-2) 8 solvedLetterSpacing in
        if Qgtb (Qabs (newFontSize - currentFontSize)) 0.1
           || Qgtb (Qabs (newLetterSpacing - currentLetterSpacing)) 0.01
           || Qgtb (Qabs (newLineHeight - currentLineHeight)) 0.01
        then with_geometry settings newFontSize newLetterSpacing newLineHeight
        else settings
    else settings
  end.

(** ** Auto-fit on JavaScript numbers *)

(** [calculateAutoSize] divides, and a JavaScript division by zero does not
    fail: it gives an infinity or [NaN], which then passes through
    [Math.min], [Math.max], [Math.abs] and the comparisons.  The rationals
    have no such values, so the definitions of the section "Auto-fit" above
    are the routine as it runs while no divisor is zero.  This module is the
    routine on numbers that do have them: a [number] is a rational, the
    negative zero (whose sign decides the sign of an infinity), an infinity
    or [NaN].  Rounding is not modelled. *)

Module IEEE.

Inductive number :=
| Finite (q : Q)
| NegZero
| PosInfinity
| NegInfinity
| NaN.

Definition is_nan (x : number) : bool :=
  match x with NaN => true | _ => false end.

Definition is_infinite (x : number) : bool :=
  match x with PosInfinity | NegInfinity => true | _ => false end.

(** Both zeros; [Finite q] with [q == 0] is the positive one. *)
Definition is_zero (x : number) : bool :=
  match x with
  | Finite q => Qeq_bool q 0
  | NegZero => true
  | _ => false
  end.

(** The sign bit. *)
Definition signbit (x : number) : bool :=
  match x with
  | Finite q => negb (Qle_bool 0 q)
  | NegZero | NegInfinity => true
  | PosInfinity | NaN => false
  end.

(** The rational a finite number stands for. *)
Definition value (x : number) : Q :=
  match x with Finite q => q | _ => 0 end.

Definition zero (negative : bool) : number :=
  if negative then NegZero else Finite 0.

Definition infinity (negative : bool) : number :=
  if negative then NegInfinity else PosInfinity.

(** [x * y]: the sign is the exclusive or of the signs; an infinity times a
    zero is [NaN]. *)
Definition mul (x y : number) : number :=
  if is_nan x || is_nan y then NaN
  else
    let negative := xorb (signbit x) (signbit y) in
    if is_infinite x || is_infinite y then
      if is_zero x || is_zero y then NaN else infinity negative
    else if is_zero x || is_zero y then zero negative
    else Finite (value x * value y).

(** [x / y]: zero by zero and infinity by infinity are [NaN]; any other
    number by zero is an infinity. *)
Definition div (x y : number) : number :=
  if is_nan x || is_nan y then NaN
  else
    let negative := xorb (signbit x) (signbit y) in
    if is_infinite x then
      if is_infinite y then NaN else infinity negative
    else if is_infinite y then zero negative
    else if is_zero y then
      if is_zero x then NaN else infinity negative
    else if is_zero x then zero negative
    else Finite (value x / value y).

(** [x + y]: opposite infinities give [NaN]; a sum that cancels is the
    positive zero, and only two negative zeros add up to the negative one. *)
Definition add (x y : number) : number :=
  if is_nan x || is_nan y then NaN
  else if is_infinite x then
    if is_infinite y && negb (Bool.eqb (signbit x) (signbit y)) then NaN else x
  else if is_infinite y then y
  else if is_zero x && is_zero y then zero (signbit x && signbit y)
  else
    let sum := value x + value y in
    if Qeq_bool sum 0 then Finite 0 else Finite sum.

(** [-x]. *)
Definition neg (x : number) : number :=
  match x with
  | Finite q => if Qeq_bool q 0 then NegZero else Finite (- q)
  | NegZero => Finite 0
  | PosInfinity => NegInfinity
  | NegInfinity => PosInfinity
  | NaN => NaN
  end.

(** [x - y]. *)
Definition sub (x y : number) : number := add x (neg y).

(** [x <= y]: false when either side is [NaN]; the two zeros are equal. *)
Definition le (x y : number) : bool :=
  match x, y with
  | NaN, _ | _, NaN => false
  | NegInfinity, _ | _, PosInfinity => true
  | PosInfinity, _ | _, NegInfinity => false
  | _, _ => Qle_bool (value x) (value y)
  end.

(** [x > y]: false when either side is [NaN]. *)
Definition gt (x y : number) : bool :=
  if is_nan x || is_nan y then false else negb (le x y).

(** [Math.min(x, y)] and [Math.max(x, y)]: [NaN] when either argument is;
    of the two zeros [Math.min] takes the negative, [Math.max] the positive
    one. *)
Definition Math_min (x y : number) : number :=
  if is_nan x || is_nan y then NaN
  else if is_zero x && is_zero y then zero (signbit x || signbit y)
  else if le x y then x else y.

Definition Math_max (x y : number) : number :=
  if is_nan x || is_nan y then NaN
  else if is_zero x && is_zero y then zero (signbit x && signbit y)
  else if le x y then y else x.

(** [Math.abs(x)]. *)
Definition Math_abs (x : number) : number :=
  match x with
  | Finite q => Finite (Qabs q)
  | NegZero => Finite 0
  | PosInfinity | NegInfinity => PosInfinity
  | NaN => NaN
  end.

(** [Math.floor(n / d)] for two non-negative integers. *)
Definition floor_div (n d : nat) : number :=
  if (d =? 0)%nat then (if (n =? 0)%nat then NaN else PosInfinity)
  else Finite (inject_Z (Z.of_nat (n / d))).

(** [Math.max(lo, Math.min(hi, x))]. *)
Definition clamp (lo hi : Q) (x : number) : number :=
  Math_max (Finite lo) (Math_min (Finite hi) x).

Definition measureGlyphAspect (textWidth : jsstring -> Q -> option Q)
    (fontFamily : jsstring) (fontSize : Q) : number :=
  match textWidth fontFamily fontSize with
  | None => Finite 0.6
  | Some w => div (Finite w) (Finite fontSize)
  end.

(** Step 5 of the routine, before the clamp. *)
Definition solveGeometry (autoSizing : AutoSizing)
    (viewportWidth viewportHeight rows cols glyphAspect : number)
    (currentFontSize currentLetterSpacing currentLineHeight : number)
  : number * number * number :=
  let cellHeight := mul currentFontSize currentLineHeight in
  let glyphWidth := mul currentFontSize glyphAspect in
  let cellWidth := add glyphWidth (mul currentLetterSpacing currentFontSize) in
  let gridWidth := mul cols cellWidth in
  let gridHeight := mul rows cellHeight in
  let widthScale := div viewportWidth gridWidth in
  let heightScale := div viewportHeight gridHeight in
  let scale := Math_min widthScale heightScale in
  if auto_fontSize autoSizing && auto_letterSpacing autoSizing
     && auto_lineHeight autoSizing
  then (mul currentFontSize scale, mul currentLetterSpacing scale,
        currentLineHeight)
  else if negb (auto_fontSize autoSizing) then
    let newFontSize := currentFontSize in
    let newGlyphWidth := mul newFontSize glyphAspect in
    (newFontSize,
     (if auto_letterSpacing autoSizing
      then div (sub (div viewportWidth cols) newGlyphWidth) newFontSize
      else currentLetterSpacing),
     (if auto_lineHeight autoSizing
      then div viewportHeight (mul rows newFontSize)
      else currentLineHeight))
  else if negb (auto_letterSpacing autoSizing) then
    let targetCellWidth := div viewportWidth cols in
    let targetLetterSpacingPx := mul currentLetterSpacing currentFontSize in
    let newFontSize :=
      div (sub targetCellWidth targetLetterSpacingPx) glyphAspect in
    (newFontSize, currentLetterSpacing,
     (if auto_lineHeight autoSizing
      then div viewportHeight (mul rows newFontSize)
      else currentLineHeight))
  else if negb (auto_lineHeight autoSizing) then
    let newFontSize := div viewportHeight (mul rows currentLineHeight) in
    (newFontSize,
     (if auto_letterSpacing autoSizing
      then div (sub (div viewportWidth cols) (mul newFontSize glyphAspect))
             newFontSize
      else currentLetterSpacing),
     currentLineHeight)
  else (currentFontSize, currentLetterSpacing, currentLineHeight).

(** The routine: [None] when it returns without calling [setSettings],
    otherwise the font size, letter spacing and line height it stores. *)
Definition calculateAutoSize (textWidth : jsstring -> Q -> option Q)
    (pixelStep : nat) (videoRef : option Video) (innerWidth innerHeight : Q)
    (autoSizing : AutoSizing) (settings : Settings)
  : option (number * number * number) :=
  match videoRef with
  | None => None
  | Some video =>
    let viewportWidth := Finite innerWidth in
    let viewportHeight := Finite innerHeight in
    if (negb (videoWidth video =? 0) && negb (videoHeight video =? 0))%nat then
      let rows := floor_div (videoHeight video) pixelStep in
      let cols := floor_div (videoWidth video) pixelStep in
      let currentFontSize := Finite (fontSize settings) in
      let currentLetterSpacing := Finite (letterSpacing settings) in
      let currentLineHeight := Finite (lineHeight settings) in
      let glyphAspect :=
        measureGlyphAspect textWidth (fontFamily settings) (fontSize settings) in
      let cellHeight := mul currentFontSize currentLineHeight in
      let glyphWidth := mul currentFontSize glyphAspect in
      let cellWidth := add glyphWidth (mul currentLetterSpacing currentFontSize) in
      let gridWidth := mul cols cellWidth in
      let gridHeight := mul rows cellHeight in
      if le gridWidth viewportWidth && le gridHeight viewportHeight
      then None
      else if negb (auto_fontSize autoSizing)
              && negb (auto_letterSpacing autoSizing)
              && negb (auto_lineHeight autoSizing)
      then None
      else
        let '(solvedFontSize, solvedLetterSpacing, solvedLineHeight) :=
          solveGeometry autoSizing viewportWidth viewportHeight rows cols
            glyphAspect currentFontSize currentLetterSpacing currentLineHeight in
        let newFontSize := clamp 4 128 solvedFontSize in
        let newLineHeight := clamp 0.5 3 solvedLineHeight in
        let newLetterSpacing := clamp (-2) 8 solvedLetterSpacing in
        if gt (Math_abs (sub newFontSize currentFontSize)) (Finite 0.1)
           || gt (Math_abs (sub newLetterSpacing currentLetterSpacing))
                (Finite 0.01)
           || gt (Math_abs (sub newLineHeight currentLineHeight)) (Finite 0.01)
        then Some (newFontSize, newLetterSpacing, newLineHeight)
        else None
    else None
  end.

(** [x] is the rational [q]. *)
Definition represents (x : number) (q : Q) : Prop :=
  match x with
  | Finite p => p == q
  | NegZero => q == 0
  | _ => False
  end.

(** [x] is a number between [lo] and [hi]. *)
Definition in_range (lo hi : Q) (x : number) : Prop :=
  exists q, represents x q /\ lo <= q <= hi.

End IEEE.

(** No divisor of the routine is zero: the width and the height of the
    current grid, the glyph aspect, and the font size it solves for (which
    the locked branches divide by). *)
Definition no_zero_divisor (autoSizing : AutoSizing)
    (viewportWidth viewportHeight rows cols glyphAspect : Q)
    (currentFontSize currentLetterSpacing currentLineHeight : Q) : Prop :=
  let '(solvedFontSize, _, _) :=
    solveGeometry autoSizing viewportWidth viewportHeight rows cols glyphAspect
      currentFontSize currentLetterSpacing currentLineHeight in
  ~ cols * (currentFontSize * glyphAspect
            + currentLetterSpacing * currentFontSize) == 0
  /\ ~ rows * (currentFontSize * currentLineHeight) == 0
  /\ ~ glyphAspect == 0
  /\ ~ solvedFontSize == 0.

(** ** Application state touched by the handlers *)

Record AppState := mkApp {
  settings : Settings;
  autoSizing : AutoSizing
}.

Definition set_fontSize (s : Settings) (v : Q) : Settings :=
  with_geometry s v (letterSpacing s) (lineHeight s).
Definition set_letterSpacing (s : Settings) (v : Q) : Settings :=
  with_geometry s (fontSize s) v (lineHeight s).
Definition set_lineHeight (s : Settings) (v : Q) : Settings :=
  with_geometry s (fontSize s) (letterSpacing s) v.

Definition set_asciiSet (s : Settings) (v : jsstring) : Settings :=
  {| fontSize := fontSize s; letterSpacing := letterSpacing s;
     lineHeight := lineHeight s; contrast := contrast s;
     brightness := brightness s; saturation := saturation s;
     invert := invert s; grayscale := grayscale s;
     mirrorCamera := mirrorCamera s; foregroundColor := foregroundColor s;
     backgroundColor := backgroundColor s; asciiSet := v;
     fontFamily := fontFamily s; showStats := showStats s |}.

Definition lock_fontSize (a : AutoSizing) : AutoSizing :=
  {| auto_fontSize := false; auto_letterSpacing := auto_letterSpacing a;
     auto_lineHeight := auto_lineHeight a |}.
Definition lock_letterSpacing (a : AutoSizing) : AutoSizing :=
  {| auto_fontSize := auto_fontSize a; auto_letterSpacing := false;
     auto_lineHeight := auto_lineHeight a |}.
Definition lock_lineHeight (a : AutoSizing) : AutoSizing :=
  {| auto_fontSize := auto_fontSize a; auto_letterSpacing := auto_letterSpacing a;
     auto_lineHeight := false |}.

(** *** The three geometry sliders ([onValueChange]) *)

Definition fontSize_onValueChange (value : Q) (st : AppState) : AppState :=
  {| settings := set_fontSize (settings st) value;
     autoSizing := lock_fontSize (autoSizing st) |}.

Definition letterSpacing_onValueChange (value : Q) (st : AppState) : AppState :=
  {| settings := set_letterSpacing (settings st) value;
     autoSizing := lock_letterSpacing (autoSizing st) |}.

Definition lineHeight_onValueChange (value : Q) (st : AppState) : AppState :=
  {| settings := set_lineHeight (settings st) value;
     autoSizing := lock_lineHeight (autoSizing st) |}.

(** The [min] and [max] props of the three sliders. *)
Definition fontSize_slider : Q * Q := (4, 128).
Definition letterSpacing_slider : Q * Q := (-2, 8).
Definition lineHeight_slider : Q * Q := (0.5, 3).

(** *** The character set controls *)

(** The "Characters" text input: [onChange] stores [e.target.value]. *)
Definition asciiSet_onChange (value : jsstring) (st : AppState) : AppState :=
  {| settings := set_asciiSet (settings st) value;
     autoSizing := autoSizing st |}.

(** [ASCII_PRESETS[preset]] for the values the select reports: its items are
    the keys of [ASCII_PRESETS] and ['Custom'], and the lookup goes through
    the object's own keys.  Names that a plain object inherits (['toString'],
    ['constructor'], ...) are no items of the select and are left out. *)
Fixpoint preset_lookup (presets : list (string * jsstring)) (name : string)
  : option jsstring :=
  match presets with
  | [] => None
  | (k, v) :: rest => if String.eqb k name then Some v else preset_lookup rest name
  end.

(** The preset select: the value of a preset, when non-empty (truthy), is
    stored; ['Custom'] is ignored. *)
Definition asciiPreset_onValueChange (preset : string) (st : AppState) : AppState :=
  if negb (String.eqb preset "Custom") then
    match preset_lookup ASCII_PRESETS preset with
    | Some (c :: chars) =>
        {| settings := set_asciiSet (settings st) (c :: chars);
           autoSizing := autoSizing st |}
    | _ => st
    end
  else st.

Definition resetSettings (st : AppState) : AppState :=
  {| settings := DEFAULT_SETTINGS; autoSizing := autoSizing st |}.

(** ** randomizeSettings *)

(** [n.toString(16)] for a natural number. *)
Definition hex_digit (d : N) : codeunit :=
  if (d <? 10)%N then (48 + d)%N else (87 + d)%N.

Fixpoint to_hex (fuel : nat) (n : N) (acc : jsstring) : jsstring :=
  match fuel with
  | O => acc
  | S fuel' =>
      let acc' := hex_digit (n mod 16) :: acc in
      if (n / 16 =? 0)%N then acc' else to_hex fuel' (n / 16) acc'
  end.

Definition toString16 (n : N) : jsstring := to_hex (S (N.to_nat (N.log2 n))) n [].

Definition padStart (len : nat) (pad : codeunit) (s : jsstring) : jsstring :=
  repeat pad (len - length s) ++ s.

(** [`#${Math.floor(r * 16777215).toString(16).padStart(6, '0')}`]. *)
Definition random_color (r : Q) : jsstring :=
  35%N :: padStart 6 48%N (toString16 (Z.to_N (Qfloor (r * 16777215)))).

(** [list[Math.floor(r * list.length)]]; the default stands for [undefined],
    which a draw [0 <= r < 1] never reaches. *)
Definition random_pick {A} (r : Q) (l : list A) (d : A) : A :=
  let i := Qfloor (r * inject_Z (Z.of_nat (length l))) in
  if (i <? 0)%Z then d else nth (Z.to_nat i) l d.

(** State threaded through the updater: the settings being built, the lock
    state, and how many times [Math.random] has been called. *)
Record Draft := mkDraft {
  newSettings : Settings;
  locks : AutoSizing;
  calls : nat
}.

Definition set_contrast (s : Settings) (v : Q) : Settings :=
  {| fontSize := fontSize s; letterSpacing := letterSpacing s;
     lineHeight := lineHeight s; contrast := v; brightness := brightness s;
     saturation := saturation s; invert := invert s;
     grayscale := grayscale s; mirrorCamera := mirrorCamera s;
     foregroundColor := foregroundColor s;
     backgroundColor := backgroundColor s; asciiSet := asciiSet s;
     fontFamily := fontFamily s; showStats := showStats s |}.

Definition set_brightness (s : Settings) (v : Q) : Settings :=
  {| fontSize := fontSize s; letterSpacing := letterSpacing s;
     lineHeight := lineHeight s; contrast := contrast s; brightness := v;
     saturation := saturation s; invert := invert s;
     grayscale := grayscale s; mirrorCamera := mirrorCamera s;
     foregroundColor := foregroundColor s;
     backgroundColor := backgroundColor s; asciiSet := asciiSet s;
     fontFamily := fontFamily s; showStats := showStats s |}.

Definition set_saturation (s : Settings) (v : Q) : Settings :=
  {| fontSize := fontSize s; letterSpacing := letterSpacing s;
     lineHeight := lineHeight s; contrast := contrast s;
     brightness := brightness s; saturation := v; invert := invert s;
     grayscale := grayscale s; mirrorCamera := mirrorCamera s;
     foregroundColor := foregroundColor s;
     backgroundColor := backgroundColor s; asciiSet := asciiSet s;
     fontFamily := fontFamily s; showStats := showStats s |}.

Definition set_invert (s : Settings) (v : bool) : Settings :=
  {| fontSize := fontSize s; letterSpacing := letterSpacing s;
     lineHeight := lineHeight s; contrast := contrast s;
     brightness := brightness s; saturation := saturation s; invert := v;
     grayscale := grayscale s; mirrorCamera := mirrorCamera s;
     foregroundColor := foregroundColor s;
     backgroundColor := backgroundColor s; asciiSet := asciiSet s;
     fontFamily := fontFamily s; showStats := showStats s |}.

Definition set_grayscale (s : Settings) (v : bool) : Settings :=
  {| fontSize := fontSize s; letterSpacing := letterSpacing s;
     lineHeight := lineHeight s; contrast := contrast s;
     brightness := brightness s; saturation := saturation s;
     invert := invert s; grayscale := v; mirrorCamera := mirrorCamera s;
     foregroundColor := foregroundColor s;
     backgroundColor := backgroundColor s; asciiSet := asciiSet s;
     fontFamily := fontFamily s; showStats := showStats s |}.

Definition set_mirrorCamera (s : Settings) (v : bool) : Settings :=
  {| fontSize := fontSize s; letterSpacing := letterSpacing s;
     lineHeight := lineHeight s; contrast := contrast s;
     brightness := brightness s; saturation := saturation s;
     invert := invert s; grayscale := grayscale s; mirrorCamera := v;
     foregroundColor := foregroundColor s;
     backgroundColor := backgroundColor s; asciiSet := asciiSet s;
     fontFamily := fontFamily s; showStats := showStats s |}.

Definition set_foregroundColor (s : Settings) (v : jsstring) : Settings :=
  {| fontSize := fontSize s; letterSpacing := letterSpacing s;
     lineHeight := lineHeight s; contrast := contrast s;
     brightness := brightness s; saturation := saturation s;
     invert := invert s; grayscale := grayscale s;
     mirrorCamera := mirrorCamera s; foregroundColor := v;
     backgroundColor := backgroundColor s; asciiSet := asciiSet s;
     fontFamily := fontFamily s; showStats := showStats s |}.

Definition set_backgroundColor (s : Settings) (v : jsstring) : Settings :=
  {| fontSize := fontSize s; letterSpacing := letterSpacing s;
     lineHeight := lineHeight s; contrast := contrast s;
     brightness := brightness s; saturation := saturation s;
     invert := invert s; grayscale := grayscale s;
     mirrorCamera := mirrorCamera s; foregroundColor := foregroundColor s;
     backgroundColor := v; asciiSet := asciiSet s;
     fontFamily := fontFamily s; showStats := showStats s |}.

Definition set_fontFamily (s : Settings) (v : jsstring) : Settings :=
  {| fontSize := fontSize s; letterSpacing := letterSpacing s;
     lineHeight := lineHeight s; contrast := contrast s;
     brightness := brightness s; saturation := saturation s;
     invert := invert s; grayscale := grayscale s;
     mirrorCamera := mirrorCamera s; foregroundColor := foregroundColor s;
     backgroundColor := backgroundColor s; asciiSet := asciiSet s;
     fontFamily := v; showStats := showStats s |}.

(** One [if (randomSettings.controls.f) { ... Math.random() ... }] block:
    when the control is on, [assign] receives the next draw. *)
Definition draw_when (random : nat -> Q) (control : bool)
    (assign : Q -> Settings -> Settings) (lock : AutoSizing -> AutoSizing)
    (d : Draft) : Draft :=
  if control then
    {| newSettings := assign (random (calls d)) (newSettings d);
       locks := lock (locks d);
       calls := S (calls d) |}
  else d.

Definition randomizeSettings (random : nat -> Q) (randomSettings : RandomSettings)
    (st : AppState) : AppState :=
  if negb (enabled randomSettings) then st
  else
    let c := controls randomSettings in
    let keep := fun a : AutoSizing => a in
    let d := {| newSettings := settings st; locks := autoSizing st; calls := 0 |} in
    let d := draw_when random (c_fontSize c)
               (fun r s => set_fontSize s (inject_Z (Qfloor (r * (32 - 4))) + 4))
               lock_fontSize d in
    let d := draw_when random (c_letterSpacing c)
               (fun r s => set_letterSpacing s (r * 10 - 2))
               lock_letterSpacing d in
    let d := draw_when random (c_lineHeight c)
               (fun r s => set_lineHeight s (r * 2.5 + 0.5))
               lock_lineHeight d in
    let d := draw_when random (c_contrast c)
               (fun r s => set_contrast s (inject_Z (Qfloor (r * 400)))) keep d in
    let d := draw_when random (c_brightness c)
               (fun r s => set_brightness s (inject_Z (Qfloor (r * 400)))) keep d in
    let d := draw_when random (c_saturation c)
               (fun r s => set_saturation s (inject_Z (Qfloor (r * 400)))) keep d in
    let d := draw_when random (c_invert c)
               (fun r s => set_invert s (Qgtb r 0.5)) keep d in
    let d := draw_when random (c_grayscale c)
               (fun r s => set_grayscale s (Qgtb r 0.5)) keep d in
    let d := draw_when random (c_mirrorCamera c)
               (fun r s => set_mirrorCamera s (Qgtb r 0.5)) keep d in
    let d := draw_when random (c_foregroundColor c)
               (fun r s => set_foregroundColor s (random_color r)) keep d in
    let d := draw_when random (c_backgroundColor c)
               (fun r s => set_backgroundColor s (random_color r)) keep d in
    let d := draw_when random (c_asciiSet c)
               (fun r s => set_asciiSet s (random_pick r (map snd ASCII_PRESETS) []))
               keep d in
    let d := draw_when random (c_fontFamily c)
               (fun r s => set_fontFamily s (random_pick r MONOSPACE_FONTS []))
               keep d in
    {| settings := newSettings d; autoSizing := locks d |}.

(** ** Vocabulary of the specification *)

(** The ramp index as the specification words it:
    [floor(L_effective * (N - 1))] clamped to [[0, N - 1]]. *)
Definition spec_ramp_index (inv : bool) (L : Q) (N : nat) : Z :=
  let L_effective := if inv then 1 - L else L in
  Z.max 0 (Z.min (Z.of_nat N - 1)
                 (Qfloor (L_effective * inject_Z (Z.of_nat N - 1)))).

(** Luminance of a pixel: [(0.299 R + 0.587 G + 0.114 B) / 255]. *)
Definition pixelLuminance (p : Pixel) : Q :=
  (0.299 * inject_Z (red p) + 0.587 * inject_Z (green p)
   + 0.114 * inject_Z (blue p)) / 255.

(** The grid as sections 4.1 (steps 1 and 2) describes it: cell [(x, y)] shows
    the source pixel at [(x * sampleStep, y * sampleStep)], or the one at
    [(width - 1 - x * sampleStep, y * sampleStep)] when [mirror] is set. *)
Definition spec_source_pixel (video : Video) (sampleStep : nat) (mirror : bool)
    (x y : nat) : Pixel :=
  if mirror
  then picture video (videoWidth video - 1 - x * sampleStep)%nat (y * sampleStep)%nat
  else picture video (x * sampleStep)%nat (y * sampleStep)%nat.

Definition spec_nearest_sample_grid (settings : Settings) (video : Video)
    (sampleStep : nat) : jsstring :=
  flat_map (fun y =>
      flat_map (fun x =>
          append_value []
            (pixelToAscii settings
               (pixelLuminance
                  (spec_source_pixel video sampleStep (mirrorCamera settings) x y))
               (asciiSet settings)))
        (seq 0 (videoWidth video / sampleStep)) ++ [LF])
    (seq 0 (videoHeight video / sampleStep)).

(** The clamped bounds of section 4.2. *)
Definition in_bounds (s : Settings) : Prop :=
  4 <= fontSize s <= 128 /\ 0.5 <= lineHeight s <= 3
  /\ -2 <= letterSpacing s <= 8.

(** Width and height of the grid of [cols] by [rows] cells under settings [s],
    for a glyph of the given aspect ratio. *)
Definition gridWidthOf (glyphAspect cols : Q) (s : Settings) : Q :=
  cols * (fontSize s * glyphAspect + letterSpacing s * fontSize s).

Definition gridHeightOf (rows : Q) (s : Settings) : Q :=
  rows * (fontSize s * lineHeight s).

(** The operations that set glyph geometry. *)
Inductive GeometryOp :=
| AutoFit (textWidth : jsstring -> Q -> option Q) (pixelStep : nat)
          (video : option Video) (innerWidth innerHeight : Q)
| EditFontSize (value : Q)
| EditLetterSpacing (value : Q)
| EditLineHeight (value : Q)
| Randomize (random : nat -> Q) (randomSettings : RandomSettings).

Definition run_op (op : GeometryOp) (st : AppState) : AppState :=
  match op with
  | AutoFit textWidth pixelStep video w h =>
      {| settings := calculateAutoSize textWidth pixelStep video w h
                       (autoSizing st) (settings st);
         autoSizing := autoSizing st |}
  | EditFontSize v => fontSize_onValueChange v st
  | EditLetterSpacing v => letterSpacing_onValueChange v st
  | EditLineHeight v => lineHeight_onValueChange v st
  | Randomize random rs => randomizeSettings random rs st
  end.

(** What the collaborators guarantee about an operation's inputs: a slider
    reports a value between its [min] and [max]; [Math.random] returns a
    number in [[0, 1)]. *)
Definition within (range : Q * Q) (v : Q) : Prop :=
  fst range <= v <= snd range.

Definition unit_interval (random : nat -> Q) : Prop :=
  forall n, 0 <= random n < 1.

Definition op_inputs_ok (op : GeometryOp) : Prop :=
  match op with
  | AutoFit _ _ _ _ _ => True
  | EditFontSize v => within fontSize_slider v
  | EditLetterSpacing v => within letterSpacing_slider v
  | EditLineHeight v => within lineHeight_slider v
  | Randomize random _ => unit_interval random
  end.

(** The fields of [Settings], and the control that enables each. *)
Inductive Field :=
| FFontSize | FLetterSpacing | FLineHeight | FContrast | FBrightness
| FSaturation | FInvert | FGrayscale | FMirrorCamera | FForegroundColor
| FBackgroundColor | FAsciiSet | FFontFamily | FShowStats.

Definition same_field (f : Field) (a b : Settings) : Prop :=
  match f with
  | FFontSize => fontSize a = fontSize b
  | FLetterSpacing => letterSpacing a = letterSpacing b
  | FLineHeight => lineHeight a = lineHeight b
  | FContrast => contrast a = contrast b
  | FBrightness => brightness a = brightness b
  | FSaturation => saturation a = saturation b
  | FInvert => invert a = invert b
  | FGrayscale => grayscale a = grayscale b
  | FMirrorCamera => mirrorCamera a = mirrorCamera b
  | FForegroundColor => foregroundColor a = foregroundColor b
  | FBackgroundColor => backgroundColor a = backgroundColor b
  | FAsciiSet => asciiSet a = asciiSet b
  | FFontFamily => fontFamily a = fontFamily b
  | FShowStats => showStats a = showStats b
  end.

Definition field_eqb (f g : Field) : bool :=
  match f, g with
  | FFontSize, FFontSize | FLetterSpacing, FLetterSpacing
  | FLineHeight, FLineHeight | FContrast, FContrast
  | FBrightness, FBrightness | FSaturation, FSaturation
  | FInvert, FInvert | FGrayscale, FGrayscale
  | FMirrorCamera, FMirrorCamera | FForegroundColor, FForegroundColor
  | FBackgroundColor, FBackgroundColor | FAsciiSet, FAsciiSet
  | FFontFamily, FFontFamily | FShowStats, FShowStats => true
  | _, _ => false
  end.

(** The controls record in which exactly the control of field [f] is on. *)
Definition only (f : Field) : Controls :=
  {| c_fontSize := field_eqb f FFontSize;
     c_letterSpacing := field_eqb f FLetterSpacing;
     c_lineHeight := field_eqb f FLineHeight;
     c_contrast := field_eqb f FContrast;
     c_brightness := field_eqb f FBrightness;
     c_saturation := field_eqb f FSaturation;
     c_invert := field_eqb f FInvert;
     c_grayscale := field_eqb f FGrayscale;
     c_mirrorCamera := field_eqb f FMirrorCamera;
     c_foregroundColor := field_eqb f FForegroundColor;
     c_backgroundColor := field_eqb f FBackgroundColor;
     c_asciiSet := field_eqb f FAsciiSet;
     c_fontFamily := field_eqb f FFontFamily |}.

(** ** Fixtures for the examples *)

(** A browser that downscales with smoothing: each destination pixel is the
    mean of the block of source pixels it covers (what bilinear filtering
    gives at the centre of a block); a negative horizontal scale with the
    rectangle drawn at [-dw] flips the picture. *)
Definition blockMean (channel : Pixel -> Z) (video : Video) (bw bh x y : nat) : Z :=
  let cells := list_prod (seq (x * bw) bw) (seq (y * bh) bh) in
  (fold_left (fun acc c => acc + channel (picture video (fst c) (snd c)))%Z cells 0
   / Z.of_nat (bw * bh))%Z.

Definition smoothingDraw : DrawImage :=
  fun _ scaleX video _ _ dw dh _ _ x y =>
    let bw := (videoWidth video / dw)%nat in
    let bh := (videoHeight video / dh)%nat in
    let sx := if (scaleX <? 0)%Z then (dw - 1 - x)%nat else x in
    {| red := blockMean red video bw bh sx y;
       green := blockMean green video bw bh sx y;
       blue := blockMean blue video bw bh sx y;
       alpha := blockMean alpha video bw bh sx y |}.

(** A browser that downscales without smoothing, taking the first pixel of
    each block. *)
Definition cornerDraw : DrawImage :=
  fun _ scaleX video _ _ dw dh _ _ x y =>
    let bw := (videoWidth video / dw)%nat in
    let bh := (videoHeight video / dh)%nat in
    let sx := if (scaleX <? 0)%Z then (dw - 1 - x)%nat else x in
    picture video (sx * bw)%nat (y * bh)%nat.

(** The 12 by 12 frame of the end-to-end scenario: the top-left pixel is
    white, every other pixel black. *)
Definition scenarioVideo : Video :=
  {| readyState := 4; videoWidth := 12; videoHeight := 12;
     picture := fun x y =>
       if ((x =? 0) && (y =? 0))%nat then mkPixel 255 255 255 255
       else mkPixel 0 0 0 255 |}.

Definition scenarioSettings : Settings :=
  set_asciiSet (set_mirrorCamera DEFAULT_SETTINGS false) (js " #").

Definition blankCanvas : Canvas :=
  {| cwidth := 300; cheight := 150; cpixels := fun _ _ => mkPixel 0 0 0 0 |}.

Definition readyDom (video : Video) (shown : jsstring) : Dom :=
  {| videoRef := Some video; canvasRef := Some blankCanvas;
     context2d := true; asciiRef := Some shown |}.

(** A 640 by 480 camera. *)
Definition camera : Video :=
  {| readyState := 4; videoWidth := 640; videoHeight := 480;
     picture := fun _ _ => mkPixel 0 0 0 255 |}.

(** No 2D context for measuring: [measureGlyphAspect] falls back to 0.6. *)
Definition noMetrics : jsstring -> Q -> option Q := fun _ _ => None.

(** A 2D context and a monospace font whose 'M' is 0.6 em wide. *)
Definition monospaceMetrics : jsstring -> Q -> option Q :=
  fun _ size => Some (0.6 * size).

(** A video element that has its data ([readyState] 4) and no picture area. *)
Definition emptyVideo : Video :=
  {| readyState := 4; videoWidth := 0; videoHeight := 0;
     picture := fun _ _ => mkPixel 0 0 0 0 |}.

Definition defaultApp : AppState :=
  {| settings := DEFAULT_SETTINGS; autoSizing := DEFAULT_AUTO_SIZING |}.

(** Whether the control of field [f] is on ([showStats] has none). *)
Definition control_of (c : Controls) (f : Field) : bool :=
  match f with
  | FFontSize => c_fontSize c
  | FLetterSpacing => c_letterSpacing c
  | FLineHeight => c_lineHeight c
  | FContrast => c_contrast c
  | FBrightness => c_brightness c
  | FSaturation => c_saturation c
  | FInvert => c_invert c
  | FGrayscale => c_grayscale c
  | FMirrorCamera => c_mirrorCamera c
  | FForegroundColor => c_foregroundColor c
  | FBackgroundColor => c_backgroundColor c
  | FAsciiSet => c_asciiSet c
  | FFontFamily => c_fontFamily c
  | FShowStats => false
  end.

(** The quantities auto-fit reads: the number of cell rows and columns of the
    sampled frame, the measured glyph aspect, and the routine itself on a
    mounted video. *)
Definition sampledRows (pixelStep : nat) (video : Video) : Q :=
  inject_Z (Z.of_nat (videoHeight video / pixelStep)).

Definition sampledCols (pixelStep : nat) (video : Video) : Q :=
  inject_Z (Z.of_nat (videoWidth video / pixelStep)).

Definition aspectOf (textWidth : jsstring -> Q -> option Q) (s : Settings) : Q :=
  measureGlyphAspect textWidth (fontFamily s) (fontSize s).

(** The grid of the sampled frame fits the viewport under settings [s]: the
    test of step 4. *)
Definition fits (textWidth : jsstring -> Q -> option Q) (pixelStep : nat)
    (video : Video) (viewportWidth viewportHeight : Q) (s : Settings) : Prop :=
  gridWidthOf (aspectOf textWidth s) (sampledCols pixelStep video) s
    <= viewportWidth
  /\ gridHeightOf (sampledRows pixelStep video) s <= viewportHeight.

(** The three differences the change-suppression test looks at. *)
Definition within_epsilon (s : Settings) (f l h : Q) : Prop :=
  Qabs (f - fontSize s) <= 0.1
  /\ Qabs (l - letterSpacing s) <= 0.01
  /\ Qabs (h - lineHeight s) <= 0.01.


(** Some difference is more than its epsilon. *)
Definition above_epsilon (s : Settings) (f l h : Q) : Prop :=
  0.1 < Qabs (f - fontSize s)
  \/ 0.01 < Qabs (l - letterSpacing s)
  \/ 0.01 < Qabs (h - lineHeight s).

(** ** Reading a colour back *)

(** The value of a lowercase hexadecimal digit, and of a digit string, as
    [parseInt(s, 16)] reads them. *)
Definition is_hex_digit (c : codeunit) : Prop :=
  (48 <= c <= 57 \/ 97 <= c <= 102)%N.

Definition digit_value (c : codeunit) : N :=
  if (c <? 58)%N then (c - 48)%N else (c - 87)%N.

Definition hex_value (s : jsstring) : N :=
  fold_left (fun v c => v * 16 + digit_value c)%N s 0%N.

(** A CSS colour of the form [#rrggbb] with the given 24-bit value. *)
Definition css_hex_color (s : jsstring) (value : N) : Prop :=
  exists digits,
    s = 35%N :: digits /\ length digits = 6%nat
    /\ Forall is_hex_digit digits /\ hex_value digits = value.

(** ** Every handler that touches the settings or the locks *)

Inductive Action :=
| Geometry (op : GeometryOp)
| ResetSettings
| TypeCharacters (value : jsstring)
| SelectPreset (preset : string).

Definition run_action (st : AppState) (act : Action) : AppState :=
  match act with
  | Geometry op => run_op op st
  | ResetSettings => resetSettings st
  | TypeCharacters value => asciiSet_onChange value st
  | SelectPreset preset => asciiPreset_onValueChange preset st
  end.

(** A session: the handlers run one after the other. *)
Definition run_actions (acts : list Action) (st : AppState) : AppState :=
  fold_left run_action acts st.

(** Every dimension locked in [a] is locked in [b]. *)
Definition locks_kept (a b : AutoSizing) : Prop :=
  (auto_fontSize a = false -> auto_fontSize b = false)
  /\ (auto_letterSpacing a = false -> auto_letterSpacing b = false)
  /\ (auto_lineHeight a = false -> auto_lineHeight b = false).

(** ** saveSnapshot *)

(** [ascii.split('\n')]. *)
Fixpoint split_lines (s : jsstring) : list jsstring :=
  match s with
  | [] => [[]]
  | c :: rest =>
      if (c =? LF)%N then [] :: split_lines rest
      else match split_lines rest with
           | line :: lines => (c :: line) :: lines
           | [] => [[c]]
           end
  end.

(** What the callback puts on the snapshot canvas: the size it asks for, the
    two colours, the font size of [ctx.font] (the family is always
    [monospace]) and one [fillText(line, 0, y)] per line. *)
Record Snapshot := mkSnapshot {
  snap_width : Q;
  snap_height : Q;
  snap_background : jsstring;
  snap_foreground : jsstring;
  snap_fontPx : Q;
  snap_fillText : list (jsstring * Q)
}.

(** [saveSnapshot]; [None] when it returns before drawing. *)
Definition saveSnapshot (settings : Settings) (asciiRef : option jsstring)
    (context2d : bool) : option Snapshot :=
  match asciiRef with
  | None => None
  | Some textContent =>
      if negb context2d then None
      else
        let ascii := textContent in
        let lines := split_lines ascii in
        let maxWidth := fold_right Nat.max 0%nat (map (@length codeunit) lines) in
        Some {| snap_width :=
                  inject_Z (Z.of_nat maxWidth) * fontSize settings * 0.6;
                snap_height :=
                  inject_Z (Z.of_nat (length lines)) * fontSize settings * 1.2;
                snap_background := backgroundColor settings;
                snap_foreground := foregroundColor settings;
                snap_fontPx := fontSize settings;
                snap_fillText :=
                  map (fun il : nat * jsstring =>
                         (snd il,
                          inject_Z (Z.of_nat (fst il)) * fontSize settings * 1.2))
                      (combine (seq 0 (length lines)) lines) |}
  end.

(** ** The preset select *)

Fixpoint jsstring_eqb (a b : jsstring) : bool :=
  match a, b with
  | [], [] => true
  | x :: a', y :: b' => (x =? y)%N && jsstring_eqb a' b'
  | _, _ => false
  end.

(** [Object.entries(presets).find(([_, chars]) => chars === asciiSet)?.[0]]. *)
Fixpoint find_preset (presets : list (string * jsstring)) (chars : jsstring)
  : option string :=
  match presets with
  | [] => None
  | (name, value) :: rest =>
      if jsstring_eqb value chars then Some name else find_preset rest chars
  end.

(** The [value] prop of the preset select: the name of the first preset equal
    to the current character set, or ['Custom']. *)
Definition asciiPreset_value (settings : Settings) : string :=
  match find_preset ASCII_PRESETS (asciiSet settings) with
  | Some name => if String.eqb name "" then "Custom"%string else name
  | None => "Custom"%string
  end.

(** ** pixelToAscii's index *)

(** The index [pixelToAscii] reads the character set at. *)
Definition rampIndex (settings : Settings) (luminance : Q) (chars : jsstring) : Z :=
  let normalized := if invert settings then 1 - luminance else luminance in
  let index := Qfloor (normalized * (inject_Z (Z.of_nat (length chars)) - 1)) in
  Z.max 0 (Z.min index (Z.of_nat (length chars) - 1)).

(** Every channel of every pixel of the canvas is a byte. *)
Definition byte_canvas (c : Canvas) : Prop :=
  forall x y,
    (0 <= red (cpixels c x y) <= 255)%Z
    /\ (0 <= green (cpixels c x y) <= 255)%Z
    /\ (0 <= blue (cpixels c x y) <= 255)%Z.

(** ** The auto-randomize timer *)

(** [randomIntervalRef.current], the intervals the browser keeps alive, and
    [randomSettings.autoMode]. *)
Record Timers := mkTimers {
  randomIntervalRef : option nat;
  alive : list nat;
  autoModeOn : bool
}.

(** Whether [randomIntervalRef.current] is truthy: set, and not zero. *)
Definition ref_set (t : Timers) : option nat :=
  match randomIntervalRef t with
  | Some (S n) => Some (S n)
  | _ => None
  end.

(** [clearInterval(id)]. *)
Definition clearInterval (id : nat) (l : list nat) : list nat :=
  filter (fun i => negb (i =? id)%nat) l.

(** [startAutoRandomize]; [id] is the handle [window.setInterval] returns. *)
Definition startAutoRandomize (id : nat) (t : Timers) : Timers :=
  let cleared :=
    match ref_set t with
    | Some old => clearInterval old (alive t)
    | None => alive t
    end in
  {| randomIntervalRef := Some id; alive := id :: cleared; autoModeOn := true |}.

Definition stopAutoRandomize (t : Timers) : Timers :=
  match ref_set t with
  | Some old =>
      {| randomIntervalRef := None; alive := clearInterval old (alive t);
         autoModeOn := false |}
  | None =>
      {| randomIntervalRef := randomIntervalRef t; alive := alive t;
         autoModeOn := false |}
  end.

Definition noTimers : Timers :=
  {| randomIntervalRef := None; alive := []; autoModeOn := false |}.

Inductive TimerEvent := Start (id : nat) | Stop.

Definition timer_step (t : Timers) (e : TimerEvent) : Timers :=
  match e with
  | Start id => startAutoRandomize id t
  | Stop => stopAutoRandomize t
  end.

(** The browser hands out handles that are positive and not in use. *)
Fixpoint handles_fresh (events : list TimerEvent) (t : Timers) : Prop :=
  match events with
  | [] => True
  | e :: rest =>
      match e with
      | Start id => (0 < id)%nat /\ ~ In id (alive t)
      | Stop => True
      end
      /\ handles_fresh rest (timer_step t e)
  end.

(** At most one interval is alive, it is the one the ref holds, and
    [autoMode] says whether there is one. *)
Definition timers_consistent (t : Timers) : Prop :=
  match randomIntervalRef t with
  | Some id => (0 < id)%nat /\ alive t = [id] /\ autoModeOn t = true
  | None => alive t = [] /\ autoModeOn t = false
  end.

(** ** The earlier revision of the auto-sizing routine

    The file also carries the revision of the component in which
    [calculateAutoSize] solves the font size from the viewport height alone
    (the [pre] has [leading-none]: lines are one font size high) and the
    letter spacing from the width, with a fixed glyph aspect of 0.6.  Its
    [autoSizing] state has two flags.  The settings record of the later
    revision is used here; the fields the earlier one does not have are
    carried along unchanged by the spread. *)

Module Earlier.

Record AutoSizing := mkAutoSizing {
  auto_fontSize : bool;
  auto_letterSpacing : bool
}.

Definition calculateAutoSize (pixelStep : nat) (videoRef : option Video)
    (innerWidth innerHeight : Q) (autoSizing : AutoSizing)
    (settings : Settings) : Settings :=
  match videoRef with
  | None => settings
  | Some video =>
    let viewportWidth := innerWidth in
    let viewportHeight := innerHeight in
    if (negb (videoWidth video =? 0) && negb (videoHeight video =? 0))%nat then
      let rows := inject_Z (Z.of_nat (videoHeight video / pixelStep)) in
      let cols := inject_Z (Z.of_nat (videoWidth video / pixelStep)) in
      let newFontSize :=
        if auto_fontSize autoSizing then viewportHeight / rows
        else fontSize settings in
      let newLetterSpacing :=
        if auto_letterSpacing autoSizing then
          let glyphAspect := 0.6 in
          let naturalGlyphWidth := newFontSize * glyphAspect in
          let targetSpacing := viewportWidth / cols - naturalGlyphWidth in
          Qmax (-2) (Qmin 8 (targetSpacing / newFontSize))
        else letterSpacing settings in
      if negb (Qeq_bool newFontSize (fontSize settings))
         || negb (Qeq_bool newLetterSpacing (letterSpacing settings))
      then with_geometry settings (Qmax 4 (Qmin 128 newFontSize))
             newLetterSpacing (lineHeight settings)
      else settings
    else settings
  end.

End Earlier.

(** ** The switches of the random controls *)

(** [controls: { ...prev.controls, [key]: checked }] for the key of field
    [f]; [showStats] is no key of the record. *)
Definition set_control (f : Field) (checked : bool) (c : Controls) : Controls :=
  {| c_fontSize := if field_eqb f FFontSize then checked else c_fontSize c;
     c_letterSpacing :=
       if field_eqb f FLetterSpacing then checked else c_letterSpacing c;
     c_lineHeight := if field_eqb f FLineHeight then checked else c_lineHeight c;
     c_contrast := if field_eqb f FContrast then checked else c_contrast c;
     c_brightness := if field_eqb f FBrightness then checked else c_brightness c;
     c_saturation := if field_eqb f FSaturation then checked else c_saturation c;
     c_invert := if field_eqb f FInvert then checked else c_invert c;
     c_grayscale := if field_eqb f FGrayscale then checked else c_grayscale c;
     c_mirrorCamera :=
       if field_eqb f FMirrorCamera then checked else c_mirrorCamera c;
     c_foregroundColor :=
       if field_eqb f FForegroundColor then checked else c_foregroundColor c;
     c_backgroundColor :=
       if field_eqb f FBackgroundColor then checked else c_backgroundColor c;
     c_asciiSet := if field_eqb f FAsciiSet then checked else c_asciiSet c;
     c_fontFamily := if field_eqb f FFontFamily then checked else c_fontFamily c |}.

(** The switch's [onCheckedChange]. *)
Definition control_onCheckedChange (f : Field) (checked : bool)
    (rs : RandomSettings) : RandomSettings :=
  {| enabled := enabled rs; interval := interval rs; autoMode := autoMode rs;
     controls := set_control f checked (controls rs) |}.

(** * Theorems *)

(** ** Indexing the ramp *)

Lemma charAt_in_range (s : jsstring) (i : Z) :
  (0 <= i < Z.of_nat (length s))%Z ->
  exists c, charAt s i = Some c /\ In c s.
Proof.
  intros [Hlo Hhi]. unfold charAt.
  destruct (Z.ltb_spec i 0) as [Hneg | _]; [lia |].
  destruct (nth_error s (Z.to_nat i)) as [c |] eqn:E.
  - exists c. split; [reflexivity | exact (nth_error_In _ _ E)].
  - apply nth_error_None in E. lia.
Qed.

Lemma charAt_nat (s : jsstring) (i : Z) :
  (0 <= i)%Z -> charAt s i = nth_error s (Z.to_nat i).
Proof.
  intros Hi. unfold charAt.
  destruct (Z.ltb_spec i 0); [lia | reflexivity].
Qed.

Lemma inject_Z_pred (n : Z) : inject_Z n - 1 == inject_Z (n - 1).
Proof.
  unfold Z.sub. rewrite inject_Z_plus. unfold Qminus. reflexivity.
Qed.

(** The index [pixelToAscii] uses is the clamped index of the specification. *)
Lemma pixelToAscii_index (settings : Settings) (L : Q) (chars : jsstring) :
  pixelToAscii settings L chars
  = charAt chars (spec_ramp_index (invert settings) L (length chars)).
Proof.
  unfold pixelToAscii, spec_ramp_index. cbv zeta.
  rewrite (Z.min_comm (Z.of_nat (length chars) - 1)).
  f_equal. f_equal. f_equal.
  apply Qfloor_comp. rewrite inject_Z_pred. reflexivity.
Qed.

Lemma spec_ramp_index_range (inv : bool) (L : Q) (N : nat) :
  (1 <= N)%nat ->
  (0 <= spec_ramp_index inv L N <= Z.of_nat N - 1)%Z.
Proof.
  intros HN. unfold spec_ramp_index. cbv zeta. lia.
Qed.

Lemma Qfloor_inject (q : Q) (z : Z) : q == inject_Z z -> Qfloor q = z.
Proof.
  intros H. rewrite (Qfloor_comp _ _ H). apply Qfloor_Z.
Qed.

Lemma spec_ramp_index_dark (N : nat) (L : Q) :
  (1 <= N)%nat -> L == 0 ->
  spec_ramp_index false L N = 0%Z /\ spec_ramp_index true L N = (Z.of_nat N - 1)%Z.
Proof.
  intros HN HL. unfold spec_ramp_index. cbv zeta. split.
  - rewrite (Qfloor_inject _ 0); [lia |]. rewrite HL. ring.
  - rewrite (Qfloor_inject _ (Z.of_nat N - 1)); [lia |]. rewrite HL. ring.
Qed.

Lemma spec_ramp_index_bright (N : nat) (L : Q) :
  (1 <= N)%nat -> L == 1 ->
  spec_ramp_index false L N = (Z.of_nat N - 1)%Z /\ spec_ramp_index true L N = 0%Z.
Proof.
  intros HN HL. unfold spec_ramp_index. cbv zeta. split.
  - rewrite (Qfloor_inject _ (Z.of_nat N - 1)); [lia |]. rewrite HL. ring.
  - rewrite (Qfloor_inject _ 0); [lia |]. rewrite HL. ring.
Qed.

(** C1: for a ramp of length [N >= 2], every character the converter emits
    for a cell, whatever the image data, is [glyphRamp[idx]] where [idx] is
    [floor(L_effective * (N - 1))] clamped to [[0, N - 1]] and lies in that
    range; luminance 0 gives [glyphRamp[0]] and luminance 1 gives
    [glyphRamp[N - 1]] without [invert], and the two are swapped with it. *)
Theorem C1_emitted_char_is_clamped_ramp_index
    (settings : Settings) (data : list Z) (width x y : nat) (L : Q) :
  let ramp := asciiSet settings in
  let N := length ramp in
  (2 <= N)%nat ->
  (exists idx c,
      idx = spec_ramp_index (invert settings)
              (cellLuminance data width x y) N
      /\ (0 <= idx <= Z.of_nat N - 1)%Z
      /\ nth_error ramp (Z.to_nat idx) = Some c
      /\ cellChar settings data width x y = Some c)
  /\ (L == 0 ->
      pixelToAscii settings L ramp
      = nth_error ramp (if invert settings then N - 1 else 0)%nat)
  /\ (L == 1 ->
      pixelToAscii settings L ramp
      = nth_error ramp (if invert settings then 0 else N - 1)%nat).
Proof.
  intros ramp N HN.
  assert (H1 : (1 <= N)%nat) by lia.
  split; [| split].
  - pose proof (spec_ramp_index_range (invert settings)
                  (cellLuminance data width x y) N H1) as Hr.
    destruct (charAt_in_range ramp
                (spec_ramp_index (invert settings)
                   (cellLuminance data width x y) N)) as [c [Hc _]];
      [fold N; lia |].
    exists (spec_ramp_index (invert settings) (cellLuminance data width x y) N), c.
    repeat split; try lia.
    + rewrite <- charAt_nat by lia. exact Hc.
    + unfold cellChar. rewrite pixelToAscii_index. exact Hc.
  - intros HL. rewrite pixelToAscii_index.
    destruct (spec_ramp_index_dark N L H1 HL) as [Hf Ht].
    fold ramp. fold N.
    destruct (invert settings).
    + rewrite Ht, charAt_nat by lia. f_equal. lia.
    + rewrite Hf. reflexivity.
  - intros HL. rewrite pixelToAscii_index.
    destruct (spec_ramp_index_bright N L H1 HL) as [Hf Ht].
    fold ramp. fold N.
    destruct (invert settings).
    + rewrite Ht. reflexivity.
    + rewrite Hf, charAt_nat by lia. f_equal. lia.
Qed.

Lemma pixelToAscii_in_ramp (settings : Settings) (luminance : Q) (chars : jsstring) :
  chars <> [] ->
  exists c, pixelToAscii settings luminance chars = Some c /\ In c chars.
Proof.
  intros Hne. rewrite pixelToAscii_index.
  assert (HN : (1 <= length chars)%nat).
  { destruct chars; [congruence | simpl; lia]. }
  pose proof (spec_ramp_index_range (invert settings) luminance _ HN) as Hr.
  apply charAt_in_range. lia.
Qed.

(** C10: [pixelToAscii] is total on every luminance, inside [[0, 1]] or not:
    with a non-empty character set the index is clamped to a position of the
    set before it is used, so a character of the set is returned. *)
Theorem C10_pixelToAscii_total
    (settings : Settings) (luminance : Q) (chars : jsstring) :
  chars <> [] ->
  let index :=
    Z.max 0 (Z.min (Qfloor ((if invert settings then 1 - luminance else luminance)
                            * (inject_Z (Z.of_nat (length chars)) - 1)))
                   (Z.of_nat (length chars) - 1)) in
  (0 <= index <= Z.of_nat (length chars) - 1)%Z
  /\ pixelToAscii settings luminance chars = nth_error chars (Z.to_nat index)
  /\ exists c, pixelToAscii settings luminance chars = Some c /\ In c chars.
Proof.
  intros Hne index.
  assert (HN : (1 <= length chars)%nat).
  { destruct chars; [congruence | simpl; lia]. }
  split; [subst index; lia | split].
  - unfold pixelToAscii. cbv zeta. fold index.
    apply charAt_nat. subst index. lia.
  - now apply pixelToAscii_in_ramp.
Qed.

(** ** The shape of the rendered text *)

Lemma fold_append_value {A} (f : A -> option codeunit) (l : list A) (acc : jsstring) :
  fold_left (fun ascii x => append_value ascii (f x)) l acc
  = acc ++ flat_map (fun x => append_value [] (f x)) l.
Proof.
  revert acc. induction l as [| a l IH]; intros acc; simpl.
  - now rewrite app_nil_r.
  - rewrite IH. destruct (f a); simpl; now rewrite <- app_assoc.
Qed.

Lemma fold_left_pointwise {A B} (f g : A -> B -> A) (l : list B) (acc : A) :
  (forall a b, f a b = g a b) -> fold_left f l acc = fold_left g l acc.
Proof.
  intros Hfg. revert acc.
  induction l as [| b l IH]; intros acc; simpl; [reflexivity |].
  now rewrite Hfg, IH.
Qed.

Lemma fold_rows {A} (row : A -> jsstring) (l : list A) (acc : jsstring) :
  fold_left (fun ascii y => (ascii ++ row y) ++ [LF]) l acc
  = acc ++ flat_map (fun y => row y ++ [LF]) l.
Proof.
  revert acc. induction l as [| a l IH]; intros acc; simpl.
  - now rewrite app_nil_r.
  - rewrite IH. now rewrite <- !app_assoc.
Qed.

(** The text of row [y]: one appended value per cell. *)
Lemma renderAscii_rows (settings : Settings) (data : list Z) (width height : nat) :
  renderAscii settings data width height
  = flat_map (fun y =>
        flat_map (fun x => append_value [] (cellChar settings data width x y))
                 (seq 0 width) ++ [LF])
      (seq 0 height).
Proof.
  unfold renderAscii.
  rewrite <- (app_nil_l (flat_map _ (seq 0 height))).
  rewrite <- fold_rows.
  apply fold_left_pointwise. intros acc y.
  now rewrite fold_append_value.
Qed.

Lemma flat_map_as_rows {A} (row : A -> jsstring) (l : list A) :
  flat_map (fun y => row y ++ [LF]) l
  = flat_map (fun r => r ++ [LF]) (map row l).
Proof.
  induction l as [| a l IH]; simpl; [reflexivity | now rewrite IH].
Qed.

(** With a non-empty ramp each cell contributes exactly one character, and
    that character belongs to the ramp. *)
Lemma row_of_ramp_chars (settings : Settings) (data : list Z) (width y : nat)
    (cells : list nat) :
  asciiSet settings <> [] ->
  let row := flat_map (fun x => append_value [] (cellChar settings data width x y))
                      cells in
  length row = length cells /\ Forall (fun c => In c (asciiSet settings)) row.
Proof.
  intros Hne. induction cells as [| x cells [IHlen IHin]]; simpl.
  - split; [reflexivity | constructor].
  - destruct (pixelToAscii_in_ramp settings (cellLuminance data width x y)
                (asciiSet settings) Hne) as [c [Hc Hin]].
    unfold cellChar at 1 3. rewrite Hc. simpl. split.
    + f_equal. exact IHlen.
    + constructor; assumption.
Qed.

(** ** processFrame *)

Lemma getImageData_positive (c : Canvas) (sw sh : nat) :
  (0 < sw)%nat -> (0 < sh)%nat -> exists data, getImageData c sw sh = Some data.
Proof.
  intros Hw Hh. unfold getImageData.
  destruct sw; [lia |]. destruct sh; [lia |]. simpl. eauto.
Qed.

Lemma getImageData_zero (c : Canvas) (sw sh : nat) :
  sw = 0%nat \/ sh = 0%nat -> getImageData c sw sh = None.
Proof.
  intros [-> | ->]; unfold getImageData; simpl; [reflexivity |].
  now rewrite orb_true_r.
Qed.

(** When every guard passes and the sampled frame has at least one cell, the
    tick renders. *)
Lemma processFrame_renders (drawImage : DrawImage) (pixelStep : nat)
    (settings : Settings) (video : Video) (canvas : Canvas) (shown : jsstring) :
  readyState video = 4%nat ->
  let width := (videoWidth video / pixelStep)%nat in
  let height := (videoHeight video / pixelStep)%nat in
  (0 < width)%nat -> (0 < height)%nat ->
  let dom := {| videoRef := Some video; canvasRef := Some canvas;
                context2d := true; asciiRef := Some shown |} in
  exists data,
    getImageData {| cwidth := width; cheight := height;
                    cpixels := drawFrame drawImage settings video width height |}
                 width height = Some data
    /\ processFrame drawImage pixelStep settings true dom
       = (Rendered,
          {| videoRef := Some video;
             canvasRef := Some {| cwidth := width; cheight := height;
                                  cpixels := drawFrame drawImage settings video
                                               width height |};
             context2d := true;
             asciiRef := Some (renderAscii settings data width height) |}).
Proof.
  intros Hready width height Hw Hh dom.
  destruct (getImageData_positive
              {| cwidth := width; cheight := height;
                 cpixels := drawFrame drawImage settings video width height |}
              width height Hw Hh) as [data Hdata].
  exists data. split; [exact Hdata |].
  unfold processFrame, dom. simpl. rewrite Hready. simpl.
  fold width height. rewrite Hdata. reflexivity.
Qed.

Lemma sampled_positive (n step : nat) :
  (1 <= step <= n)%nat -> (0 < n / step)%nat.
Proof.
  intros [H1 H2]. apply Nat.div_str_pos. lia.
Qed.

(** C3: for a frame of width [w] and height [h] and a sample step [s] with
    [1 <= s <= min w h], the text produced is a sequence of exactly
    [floor(h / s)] rows, each of exactly [floor(w / s)] ramp characters and
    each followed by a line break. *)
Theorem C3_grid_rows_and_columns
    (drawImage : DrawImage) (sampleStep : nat) (settings : Settings)
    (video : Video) (canvas : Canvas) (shown : jsstring) :
  readyState video = 4%nat ->
  asciiSet settings <> [] ->
  (1 <= sampleStep <= Nat.min (videoWidth video) (videoHeight video))%nat ->
  let dom := {| videoRef := Some video; canvasRef := Some canvas;
                context2d := true; asciiRef := Some shown |} in
  exists (rows : list jsstring) (dom' : Dom),
    processFrame drawImage sampleStep settings true dom = (Rendered, dom')
    /\ asciiRef dom' = Some (flat_map (fun row => row ++ [LF]) rows)
    /\ length rows = (videoHeight video / sampleStep)%nat
    /\ Forall (fun row =>
                 length row = (videoWidth video / sampleStep)%nat
                 /\ Forall (fun c => In c (asciiSet settings)) row) rows.
Proof.
  intros Hready Hne Hstep dom.
  assert (Hw : (0 < videoWidth video / sampleStep)%nat)
    by (apply sampled_positive; lia).
  assert (Hh : (0 < videoHeight video / sampleStep)%nat)
    by (apply sampled_positive; lia).
  destruct (processFrame_renders drawImage sampleStep settings video canvas
              shown Hready Hw Hh) as [data [_ Hrun]].
  set (width := (videoWidth video / sampleStep)%nat) in *.
  set (height := (videoHeight video / sampleStep)%nat) in *.
  eexists (map (fun y =>
                  flat_map (fun x => append_value []
                                       (cellChar settings data width x y))
                           (seq 0 width))
               (seq 0 height)), _.
  split; [exact Hrun |]. simpl. split; [| split].
  - f_equal. rewrite renderAscii_rows. apply flat_map_as_rows.
  - now rewrite length_map, length_seq.
  - apply Forall_map. apply Forall_forall. intros y _.
    destruct (row_of_ramp_chars settings data width y (seq 0 width) Hne)
      as [Hlen Hin].
    rewrite length_seq in Hlen. split; assumption.
Qed.

(** A frame the guards let through that is narrower or lower than the
    sample step: the canvas is resized to zero area, the frame is drawn, and
    the read of the pixels throws.  The text on display is not touched. *)
Lemma processFrame_zero_area
    (drawImage : DrawImage) (pixelStep : nat) (settings : Settings)
    (video : Video) (canvas : Canvas) (shown : jsstring) :
  readyState video = 4%nat ->
  (videoWidth video / pixelStep = 0 \/ videoHeight video / pixelStep = 0)%nat ->
  let width := (videoWidth video / pixelStep)%nat in
  let height := (videoHeight video / pixelStep)%nat in
  processFrame drawImage pixelStep settings true
    {| videoRef := Some video; canvasRef := Some canvas;
       context2d := true; asciiRef := Some shown |}
  = (IndexSizeError,
     {| videoRef := Some video;
        canvasRef :=
          Some {| cwidth := width; cheight := height;
                  cpixels := drawFrame drawImage settings video width height |};
        context2d := true; asciiRef := Some shown |}).
Proof.
  intros Hready Hzero width height. unfold processFrame.
  cbn [videoRef canvasRef asciiRef context2d].
  rewrite Hready. cbn [Nat.eqb negb orb].
  fold width height. rewrite getImageData_zero by exact Hzero. reflexivity.
Qed.

(** The guard on [readyState]: a source that does not have its data yet is
    skipped, whatever its size. *)
Lemma processFrame_not_ready
    (drawImage : DrawImage) (pixelStep : nat) (settings : Settings)
    (isPlaying : bool) (dom : Dom) (video : Video) :
  videoRef dom = Some video ->
  readyState video <> 4%nat ->
  processFrame drawImage pixelStep settings isPlaying dom = (EarlyReturn, dom).
Proof.
  intros Hvideo Hnot. unfold processFrame. rewrite Hvideo.
  destruct (canvasRef dom), (asciiRef dom), isPlaying; try reflexivity.
  apply Nat.eqb_neq in Hnot. rewrite Hnot.
  now destruct (context2d dom).
Qed.

(** C6 fails on the code for a source that has its data and no area: the
    guards look at [readyState] only, so the tick goes on, resizes the hidden
    canvas from 300 by 150 to 0 by 0 and reads a zero-sized rectangle, which
    throws [IndexSizeError]; nothing in [processFrame] catches it.  The text
    shown before is still shown.  The same source before it has its data is
    skipped at the guard with nothing changed. *)
Theorem C6_ready_zero_area_frame_throws :
  let dom := readyDom emptyVideo (js "##") in
  let result := processFrame cornerDraw 6 DEFAULT_SETTINGS true dom in
  fst result = IndexSizeError
  /\ option_map (fun c => (cwidth c, cheight c)) (canvasRef dom)
     = Some (300, 150)%nat
  /\ option_map (fun c => (cwidth c, cheight c)) (canvasRef (snd result))
     = Some (0, 0)%nat
  /\ asciiRef (snd result) = Some (js "##")
  /\ (let notReady :=
        {| readyState := 0; videoWidth := 0; videoHeight := 0;
           picture := picture emptyVideo |} in
      processFrame cornerDraw 6 DEFAULT_SETTINGS true
        (readyDom notReady (js "##"))
      = (EarlyReturn, readyDom notReady (js "##"))).
Proof.
  intros dom result.
  repeat match goal with |- _ /\ _ => split end; reflexivity.
Qed.

(** ** Which pixel a cell shows *)

Lemma nth_error_flat_map_uniform {A B} (f : A -> list B) (n : nat)
    (l : list A) (i j : nat) (a : A) :
  (forall a', In a' l -> length (f a') = n) ->
  nth_error l i = Some a -> (j < n)%nat ->
  nth_error (flat_map f l) (i * n + j) = nth_error (f a) j.
Proof.
  revert i. induction l as [| a0 l IH]; intros i Hlen Hi Hj.
  - destruct i; discriminate.
  - destruct i as [| i]; simpl in *.
    + injection Hi as ->. apply nth_error_app1.
      rewrite (Hlen a) by now left. exact Hj.
    + assert (Hn : length (f a0) = n) by (apply Hlen; now left).
      rewrite nth_error_app2 by lia. rewrite Hn.
      replace (n + i * n + j - n)%nat with (i * n + j)%nat by lia.
      apply IH; auto.
Qed.

Lemma nth_error_seq_0 (n i : nat) : (i < n)%nat -> nth_error (seq 0 n) i = Some i.
Proof.
  intros Hi. rewrite nth_error_nth' with (d := 0%nat) by now rewrite length_seq.
  now rewrite seq_nth.
Qed.

(** The layout of [ImageData.data]: the bytes of pixel [(x, y)] start at
    [(y * width + x) * 4]. *)
Lemma imageData_layout (c : Canvas) (w h : nat) (data : list Z) (x y k : nat) :
  getImageData c w h = Some data ->
  (x < w)%nat -> (y < h)%nat -> (k < 4)%nat ->
  nth_error data ((y * w + x) * 4 + k)
  = nth_error (let p := cpixels c x y in [red p; green p; blue p; alpha p]) k.
Proof.
  intros Hdata Hx Hy Hk. unfold getImageData in Hdata.
  destruct ((w =? 0) || (h =? 0))%nat; [discriminate |].
  injection Hdata as <-.
  replace ((y * w + x) * 4 + k)%nat with (y * (4 * w) + (x * 4 + k))%nat by lia.
  rewrite (nth_error_flat_map_uniform _ (4 * w) (seq 0 h) y (x * 4 + k) y).
  - cbv zeta.
    apply (nth_error_flat_map_uniform
             (fun x0 => [red (cpixels c x0 y); green (cpixels c x0 y);
                         blue (cpixels c x0 y); alpha (cpixels c x0 y)])
             4 (seq 0 w) x k x);
      [reflexivity | now apply nth_error_seq_0 | exact Hk].
  - intros y' _. rewrite (flat_map_constant_length (c := 4%nat));
      [now rewrite length_seq, Nat.mul_comm | reflexivity].
  - now apply nth_error_seq_0.
  - lia.
Qed.

Lemma cellLuminance_canvas_pixel (c : Canvas) (w h : nat) (data : list Z)
    (x y : nat) :
  getImageData c w h = Some data -> (x < w)%nat -> (y < h)%nat ->
  cellLuminance data w x y = pixelLuminance (cpixels c x y).
Proof.
  intros Hdata Hx Hy.
  assert (Hbyte : forall k, (k < 4)%nat ->
            nth ((y * w + x) * 4 + k) data 0%Z
            = nth k (let p := cpixels c x y in [red p; green p; blue p; alpha p]) 0%Z).
  { intros k Hk. apply nth_error_nth.
    rewrite (imageData_layout c w h data x y k Hdata Hx Hy Hk).
    apply nth_error_nth'. simpl. exact Hk. }
  unfold cellLuminance, pixelLuminance, byteAt. cbv zeta.
  rewrite <- (Nat.add_0_r ((y * w + x) * 4)) at 1.
  rewrite (Hbyte 0%nat), (Hbyte 1%nat), (Hbyte 2%nat) by lia.
  reflexivity.
Qed.

(** Where the character of cell [(x, y)] sits in the rendered text. *)
Lemma renderAscii_cell (settings : Settings) (data : list Z)
    (width height x y : nat) :
  asciiSet settings <> [] -> (x < width)%nat -> (y < height)%nat ->
  nth_error (renderAscii settings data width height) (y * (width + 1) + x)
  = cellChar settings data width x y.
Proof.
  intros Hne Hx Hy. rewrite renderAscii_rows.
  assert (Hcell : forall x' y', exists c,
            cellChar settings data width x' y' = Some c).
  { intros x' y'.
    destruct (pixelToAscii_in_ramp settings (cellLuminance data width x' y')
                (asciiSet settings) Hne) as [c [Hc _]].
    now exists c. }
  assert (Hone : forall y' x', length (append_value []
                     (cellChar settings data width x' y')) = 1%nat).
  { intros y' x'. destruct (Hcell x' y') as [c ->]. reflexivity. }
  rewrite (nth_error_flat_map_uniform _ (width + 1) (seq 0 height) y x y).
  - rewrite nth_error_app1.
    + replace x with (x * 1 + 0)%nat at 1 by lia.
      rewrite (nth_error_flat_map_uniform _ 1 (seq 0 width) x 0 x);
        [| intros; apply Hone | now apply nth_error_seq_0 | lia].
      destruct (Hcell x y) as [c ->]. reflexivity.
    + rewrite (flat_map_constant_length (c := 1%nat)) by (intros; apply Hone).
      rewrite length_seq. lia.
  - intros y' _. rewrite length_app.
    rewrite (flat_map_constant_length (c := 1%nat)) by (intros; apply Hone).
    rewrite length_seq. simpl. lia.
  - now apply nth_error_seq_0.
  - lia.
Qed.

(** C4, as the code has it: the character of cell [(x, y)] is computed from
    one pixel, the pixel [(x, y)] of the [width] by [height] canvas onto
    which the browser has drawn the frame; nothing is averaged by the loop.
    Which source pixels make up that canvas pixel is decided by the browser's
    [drawImage]; for [mirror] the frame is drawn flipped (scale [-1], at
    [-width]) and the loop reads the same canvas position. *)
Theorem C4_cell_shows_one_canvas_pixel
    (drawImage : DrawImage) (pixelStep : nat) (settings : Settings)
    (video : Video) (canvas : Canvas) (shown : jsstring) (x y : nat) :
  readyState video = 4%nat ->
  asciiSet settings <> [] ->
  let width := (videoWidth video / pixelStep)%nat in
  let height := (videoHeight video / pixelStep)%nat in
  (x < width)%nat -> (y < height)%nat ->
  let dom := {| videoRef := Some video; canvasRef := Some canvas;
                context2d := true; asciiRef := Some shown |} in
  let filter := {| flt_contrast := contrast settings;
                   flt_brightness := brightness settings;
                   flt_saturate := saturation settings;
                   flt_grayscale := grayscale settings |} in
  let bitmap :=
    if mirrorCamera settings
    then drawImage filter (-1)%Z video (- Z.of_nat width)%Z 0%Z width height
                   width height
    else drawImage filter 1%Z video 0%Z 0%Z width height width height in
  exists (ascii : jsstring) (dom' : Dom),
    processFrame drawImage pixelStep settings true dom = (Rendered, dom')
    /\ asciiRef dom' = Some ascii
    /\ nth_error ascii (y * (width + 1) + x)
       = pixelToAscii settings (pixelLuminance (bitmap x y)) (asciiSet settings).
Proof.
  intros Hready Hne width height Hx Hy dom filter bitmap.
  destruct (processFrame_renders drawImage pixelStep settings video canvas
              shown Hready ltac:(fold width; lia) ltac:(fold height; lia))
    as [data [Hdata Hrun]].
  fold width height in Hdata, Hrun.
  eexists _, _. split; [exact Hrun |]. split; [reflexivity |].
  rewrite renderAscii_cell by assumption.
  unfold cellChar.
  rewrite (cellLuminance_canvas_pixel _ _ _ _ _ _ Hdata Hx Hy).
  reflexivity.
Qed.

(** C4 fails as stated: on the 12 by 12 frame of the end-to-end scenario
    (white top-left pixel, step 6, ramp [" #"], no mirror) a browser that
    smooths while downscaling leaves a dark canvas pixel in cell (0, 0), so
    the text is two blank rows, not the nearest-sample grid. *)
Lemma C4_counterexample_smoothing_browser :
  asciiRef (snd (processFrame smoothingDraw 6 scenarioSettings true
                   (readyDom scenarioVideo [])))
  <> Some (spec_nearest_sample_grid scenarioSettings scenarioVideo 6)
  /\ asciiRef (snd (processFrame smoothingDraw 6 scenarioSettings true
                      (readyDom scenarioVideo [])))
     = Some (js "  " ++ [LF] ++ js "  " ++ [LF])
  /\ spec_nearest_sample_grid scenarioSettings scenarioVideo 6
     = js "# " ++ [LF] ++ js "  " ++ [LF].
Proof.
  split; [| split]; vm_compute; [discriminate | reflexivity | reflexivity].
Qed.

(** ** randomizeSettings *)

Lemma same_field_refl (f : Field) (s : Settings) : same_field f s s.
Proof. destruct f; reflexivity. Qed.

Lemma same_field_trans (f : Field) (a b c : Settings) :
  same_field f a b -> same_field f b c -> same_field f a c.
Proof. destruct f; simpl; congruence. Qed.

(** One block of the updater leaves field [f] alone when its control is off
    or when its assignment does not touch [f]. *)
Lemma draw_when_keeps (f : Field) (random : nat -> Q) (control : bool)
    (assign : Q -> Settings -> Settings) (lock : AutoSizing -> AutoSizing)
    (s0 : Settings) (d : Draft) :
  (control = true -> forall r s, same_field f s (assign r s)) ->
  same_field f s0 (newSettings d) ->
  same_field f s0 (newSettings (draw_when random control assign lock d)).
Proof.
  intros Hassign Hd. unfold draw_when. destruct control; [| exact Hd].
  simpl. eapply same_field_trans; [exact Hd | now apply Hassign].
Qed.

Ltac through_blocks :=
  repeat (apply draw_when_keeps;
          [ let Hc := fresh "Hc" in
            intros Hc; try congruence; intros; reflexivity
          | ]).

(** A field whose control is off is not changed by [randomizeSettings]. *)
Lemma randomize_keeps_unselected (random : nat -> Q) (rs : RandomSettings)
    (st : AppState) (f : Field) :
  control_of (controls rs) f = false ->
  same_field f (settings st) (settings (randomizeSettings random rs st)).
Proof.
  intros Hoff. unfold randomizeSettings.
  destruct (enabled rs); simpl; [| apply same_field_refl].
  destruct f; simpl in Hoff; through_blocks; apply same_field_refl.
Qed.

Lemma draw_when_keep_locks (random : nat -> Q) (control : bool)
    (assign : Q -> Settings -> Settings) (d : Draft) :
  locks (draw_when random control assign (fun a => a) d) = locks d.
Proof. unfold draw_when. now destruct control. Qed.

(** The lock state after [randomizeSettings]. *)
Lemma randomize_locks (random : nat -> Q) (rs : RandomSettings) (st : AppState) :
  enabled rs = true ->
  autoSizing (randomizeSettings random rs st)
  = {| auto_fontSize :=
         if c_fontSize (controls rs) then false
         else auto_fontSize (autoSizing st);
       auto_letterSpacing :=
         if c_letterSpacing (controls rs) then false
         else auto_letterSpacing (autoSizing st);
       auto_lineHeight :=
         if c_lineHeight (controls rs) then false
         else auto_lineHeight (autoSizing st) |}.
Proof.
  intros Hon. unfold randomizeSettings. rewrite Hon. simpl.
  rewrite !draw_when_keep_locks. unfold draw_when.
  destruct (autoSizing st) as [a1 a2 a3].
  destruct (c_fontSize (controls rs)), (c_letterSpacing (controls rs)),
    (c_lineHeight (controls rs)); reflexivity.
Qed.

Lemma control_of_only (f g : Field) : g <> f -> control_of (only f) g = false.
Proof. destruct f, g; intros Hne; try reflexivity; congruence. Qed.

(** C9: with exactly one control on, [randomizeSettings] leaves every other
    field of the settings as it was; and a draw for the font size, the letter
    spacing or the line height locks that dimension ([autoSizing] false),
    while a dimension that is not drawn keeps its lock state. *)
Theorem C9_randomize_one_field_and_locks
    (random : nat -> Q) (rs : RandomSettings) (st : AppState) :
  enabled rs = true ->
  let st' := randomizeSettings random rs st in
  (forall f g, controls rs = only f -> g <> f ->
               same_field g (settings st) (settings st'))
  /\ (c_fontSize (controls rs) = true -> auto_fontSize (autoSizing st') = false)
  /\ (c_letterSpacing (controls rs) = true ->
      auto_letterSpacing (autoSizing st') = false)
  /\ (c_lineHeight (controls rs) = true ->
      auto_lineHeight (autoSizing st') = false)
  /\ (c_fontSize (controls rs) = false ->
      auto_fontSize (autoSizing st') = auto_fontSize (autoSizing st))
  /\ (c_letterSpacing (controls rs) = false ->
      auto_letterSpacing (autoSizing st') = auto_letterSpacing (autoSizing st))
  /\ (c_lineHeight (controls rs) = false ->
      auto_lineHeight (autoSizing st') = auto_lineHeight (autoSizing st)).
Proof.
  intros Hon st'. split.
  - intros f g Hc Hne. apply randomize_keeps_unselected.
    rewrite Hc. now apply control_of_only.
  - subst st'. rewrite (randomize_locks random rs st Hon). simpl.
    repeat split; intros ->; reflexivity.
Qed.

(** ** Invariants of the updater *)

Lemma draw_when_inv (P : Settings -> Prop) (random : nat -> Q) (control : bool)
    (assign : Q -> Settings -> Settings) (lock : AutoSizing -> AutoSizing)
    (d : Draft) :
  unit_interval random ->
  (forall r s, 0 <= r < 1 -> P s -> P (assign r s)) ->
  P (newSettings d) ->
  P (newSettings (draw_when random control assign lock d)).
Proof.
  intros Hrandom Hassign Hd. unfold draw_when.
  destruct control; [| exact Hd]. simpl. apply Hassign; [apply Hrandom | exact Hd].
Qed.

Lemma Qfloor_scaled_range (r : Q) (k : Z) :
  (0 < k)%Z -> 0 <= r < 1 ->
  (0 <= Qfloor (r * inject_Z k) <= k - 1)%Z.
Proof.
  intros Hk [Hlo Hhi].
  assert (Hk' : 0 < inject_Z k).
  { change 0 with (inject_Z 0). rewrite <- Zlt_Qlt. exact Hk. }
  split.
  - change 0%Z with (Qfloor 0). apply Qfloor_resp_le. nra.
  - assert (H : (Qfloor (r * inject_Z k) < k)%Z).
    { rewrite Zlt_Qlt.
      apply Qle_lt_trans with (r * inject_Z k); [apply Qfloor_le | nra]. }
    lia.
Qed.

Lemma random_pick_In {A} (r : Q) (l : list A) (d : A) :
  0 <= r < 1 -> l <> [] -> In (random_pick r l d) l.
Proof.
  intros Hr Hne. unfold random_pick.
  assert (Hlen : (0 < Z.of_nat (length l))%Z).
  { destruct l; [congruence | simpl; lia]. }
  pose proof (Qfloor_scaled_range r _ Hlen Hr) as [Hlo Hhi].
  destruct (Z.ltb_spec (Qfloor (r * inject_Z (Z.of_nat (length l)))) 0);
    [lia |].
  apply nth_In. lia.
Qed.

Lemma presets_nonempty : Forall (fun chars => chars <> []) (map snd ASCII_PRESETS).
Proof. repeat constructor; discriminate. Qed.

Lemma preset_lookup_nonempty (name : string) (chars : jsstring) :
  preset_lookup ASCII_PRESETS name = Some chars -> chars <> [].
Proof.
  intros Hlook.
  assert (Hin : In chars (map snd ASCII_PRESETS)).
  { revert Hlook. generalize ASCII_PRESETS as presets.
    induction presets as [| [k v] rest IH]; simpl; [discriminate |].
    destruct (String.eqb k name); [intros [= ->]; now left | auto]. }
  exact (proj1 (Forall_forall _ _) presets_nonempty chars Hin).
Qed.

Ltac invariant_through_blocks Hrandom :=
  repeat (apply draw_when_inv; [exact Hrandom | intros ? ? ? ? | ]).

Lemma randomize_keeps_ramp_nonempty (random : nat -> Q) (rs : RandomSettings)
    (st : AppState) :
  unit_interval random ->
  asciiSet (settings st) <> [] ->
  asciiSet (settings (randomizeSettings random rs st)) <> [].
Proof.
  intros Hrandom Hst. unfold randomizeSettings.
  destruct (enabled rs); simpl; [| exact Hst].
  invariant_through_blocks Hrandom; try assumption.
  simpl.
  assert (Hin : In (random_pick r (map snd ASCII_PRESETS) [])
                   (map snd ASCII_PRESETS)).
  { apply random_pick_In; [assumption | discriminate]. }
  exact (proj1 (Forall_forall _ _) presets_nonempty _ Hin).
Qed.

Lemma pixelToAscii_empty_ramp (settings : Settings) (luminance : Q) :
  pixelToAscii settings luminance [] = None.
Proof.
  rewrite pixelToAscii_index. unfold charAt.
  destruct (_ <? 0)%Z; [reflexivity |]. now destruct (Z.to_nat _).
Qed.

(** C5, as the code has it: the "Characters" input stores whatever was typed,
    the empty string included, and does not keep the previous ramp; with the
    empty ramp [pixelToAscii] has no character to return ([undefined]).  The
    preset select and the randomizer, on the other hand, never leave the ramp
    empty. *)
Theorem C5_empty_ramp_is_applied
    (value : jsstring) (preset : string) (random : nat -> Q)
    (rs : RandomSettings) (st : AppState) (luminance : Q) :
  unit_interval random ->
  asciiSet (settings st) <> [] ->
  asciiSet (settings (asciiSet_onChange value st)) = value
  /\ pixelToAscii (settings st) luminance [] = None
  /\ asciiSet (settings (asciiPreset_onValueChange preset st)) <> []
  /\ asciiSet (settings (randomizeSettings random rs st)) <> [].
Proof.
  intros Hrandom Hst. split; [reflexivity |]. split; [| split].
  - apply pixelToAscii_empty_ramp.
  - unfold asciiPreset_onValueChange.
    destruct (negb (String.eqb preset "Custom")); [| exact Hst].
    destruct (preset_lookup ASCII_PRESETS preset) as [[| c chars] |];
      try exact Hst.
    simpl. discriminate.
  - now apply randomize_keeps_ramp_nonempty.
Qed.

(** C5 fails as stated: typing the empty string into the "Characters" input
    makes the active ramp empty; the previous ramp is not retained, and the
    next frame of the scenario is rendered with [undefined] in every cell. *)
Lemma C5_counterexample_empty_input :
  asciiSet (settings (asciiSet_onChange [] defaultApp)) = []
  /\ asciiSet (settings (asciiSet_onChange [] defaultApp))
     <> asciiSet (settings defaultApp)
  /\ asciiRef (snd (processFrame cornerDraw 6
                      (settings (asciiSet_onChange [] defaultApp)) true
                      (readyDom scenarioVideo [])))
     = Some (js "undefinedundefined" ++ [LF] ++ js "undefinedundefined" ++ [LF]).
Proof.
  split; [reflexivity | split; [discriminate | vm_compute; reflexivity]].
Qed.

(** ** Clamping and the outcome of auto-fit *)

Lemma clamp_range (lo hi x : Q) : lo <= hi -> lo <= clamp lo hi x <= hi.
Proof.
  intros Hle. unfold clamp.
  destruct (Q.max_spec lo (Qmin hi x)) as [[H1 E1] | [H1 E1]];
    destruct (Q.min_spec hi x) as [[H2 E2] | [H2 E2]];
    generalize dependent (Qmax lo (Qmin hi x));
    generalize dependent (Qmin hi x); intros; lra.
Qed.

Lemma clamp_inside (lo hi x : Q) : lo <= x <= hi -> clamp lo hi x == x.
Proof.
  intros [Hlo Hhi]. unfold clamp.
  destruct (Q.max_spec lo (Qmin hi x)) as [[H1 E1] | [H1 E1]];
    destruct (Q.min_spec hi x) as [[H2 E2] | [H2 E2]];
    generalize dependent (Qmax lo (Qmin hi x));
    generalize dependent (Qmin hi x); intros; lra.
Qed.

(** [calculateAutoSize] either leaves the settings alone or stores, once, the
    clamped solution of [solveGeometry]; nothing is solved again after the
    clamp. *)
Lemma calculateAutoSize_cases (textWidth : jsstring -> Q -> option Q)
    (pixelStep : nat) (video : option Video) (innerWidth innerHeight : Q)
    (autoSizing : AutoSizing) (settings : Settings) :
  let result := calculateAutoSize textWidth pixelStep video innerWidth
                  innerHeight autoSizing settings in
  result = settings
  \/ exists v, video = Some v
     /\ let '(f, l, h) :=
          solveGeometry autoSizing innerWidth innerHeight
            (inject_Z (Z.of_nat (videoHeight v / pixelStep)))
            (inject_Z (Z.of_nat (videoWidth v / pixelStep)))
            (measureGlyphAspect textWidth (fontFamily settings) (fontSize settings))
            (fontSize settings) (letterSpacing settings) (lineHeight settings) in
        result = with_geometry settings (clamp 4 128 f) (clamp (-2) 8 l)
                   (clamp 0.5 3 h).
Proof.
  intros result. subst result. unfold calculateAutoSize.
  destruct video as [v |]; [| now left].
  destruct (negb (videoWidth v =? 0)%nat && negb (videoHeight v =? 0)%nat);
    [| now left].
  cbv zeta.
  destruct (Qle_bool _ _ && Qle_bool _ _); [now left |].
  destruct (negb (auto_fontSize autoSizing) && _ && _); [now left |].
  destruct (solveGeometry _ _ _ _ _ _ _ _ _) as [[f l] h] eqn:Hsolve.
  destruct (Qgtb _ _ || Qgtb _ _ || Qgtb _ _); [| now left].
  right. exists v. split; [reflexivity |]. rewrite Hsolve. reflexivity.
Qed.

Lemma randomize_in_bounds (random : nat -> Q) (rs : RandomSettings)
    (st : AppState) :
  unit_interval random ->
  in_bounds (settings st) ->
  in_bounds (settings (randomizeSettings random rs st)).
Proof.
  intros Hrandom Hst. unfold randomizeSettings.
  destruct (enabled rs); cbn [negb]; cbv zeta; [| exact Hst].
  cbn [newSettings settings].
  invariant_through_blocks Hrandom; try assumption;
    match goal with
    | Hs : in_bounds _, Hr : 0 <= ?r < 1 |- _ =>
        unfold in_bounds in *;
        unfold set_fontSize, set_letterSpacing, set_lineHeight, with_geometry,
          set_contrast, set_brightness, set_saturation, set_invert,
          set_grayscale, set_mirrorCamera, set_foregroundColor,
          set_backgroundColor, set_asciiSet, set_fontFamily;
        cbn [fontSize letterSpacing lineHeight]; try lra
    end.
  pose proof (Qfloor_scaled_range r 28 ltac:(lia) H) as [Hlo Hhi].
  assert (Hfloor : Qfloor (r * (32 - 4)) = Qfloor (r * inject_Z 28)).
  { apply Qfloor_comp. unfold inject_Z. ring. }
  rewrite Hfloor.
  assert (0 <= inject_Z (Qfloor (r * inject_Z 28)) <= 27).
  { split.
    - change 0 with (inject_Z 0). rewrite <- Zle_Qle. lia.
    - change 27 with (inject_Z 27). rewrite <- Zle_Qle. lia. }
  lra.
Qed.

(** C7 fails on the code in auto-fit: [Math.max(lo, Math.min(hi, x))] is
    [NaN] when [x] is, and the routine stores it.  With the line height
    locked by its slider and a viewport of 0 by 0, the font size solved for a
    640 by 480 camera is 0 / (80 * 1.5) = 0 and the letter spacing
    (0 / 106 - 0 * 0.6) / 0 is [NaN]; the font size is clamped to 4, which
    is more than 0.1 away from 8, so (4, NaN, 1.5) is written.  With the
    letter spacing locked at 0 the line height 0 / (80 * 0) is [NaN] and
    (4, 0, NaN) is written.  [NaN] is in none of the three ranges. *)
Theorem C7_autofit_writes_nan :
  (let st := lineHeight_onValueChange 1.5 defaultApp in
   IEEE.calculateAutoSize monospaceMetrics 6 (Some camera) 0 0 (autoSizing st)
     (settings st)
   = Some (IEEE.Finite 4, IEEE.NaN, IEEE.Finite 1.5))
  /\ (let st := letterSpacing_onValueChange 0 defaultApp in
      IEEE.calculateAutoSize monospaceMetrics 6 (Some camera) 0 0
        (autoSizing st) (settings st)
      = Some (IEEE.Finite 4, IEEE.Finite 0, IEEE.NaN))
  /\ ~ IEEE.in_range (-2) 8 IEEE.NaN
  /\ ~ IEEE.in_range 0.5 3 IEEE.NaN.
Proof.
  repeat match goal with |- _ /\ _ => split end;
    cbv zeta; try reflexivity; intros [q [H _]]; exact H.
Qed.

(** ** Auto-fit: when nothing is written *)

Section AutoFit.

Variable textWidth : jsstring -> Q -> option Q.
Variable pixelStep : nat.
Variable video : Video.
Variables viewportWidth viewportHeight : Q.

Abbreviation rows := (sampledRows pixelStep video).
Abbreviation cols := (sampledCols pixelStep video).
Abbreviation autofit :=
  (calculateAutoSize textWidth pixelStep (Some video) viewportWidth viewportHeight).
Abbreviation solve a s :=
  (solveGeometry a viewportWidth viewportHeight rows cols (aspectOf textWidth s)
     (fontSize s) (letterSpacing s) (lineHeight s)).

(** The "grid already fits" return. *)
Lemma autofit_fits_noop (a : AutoSizing) (s : Settings) :
  fits textWidth pixelStep video viewportWidth viewportHeight s ->
  autofit a s = s.
Proof.
  intros [Hw Hh]. unfold calculateAutoSize.
  destruct (negb (videoWidth video =? 0)%nat && negb (videoHeight video =? 0)%nat);
    [| reflexivity].
  cbv zeta.
  apply Qle_bool_iff in Hw, Hh.
  unfold gridWidthOf, aspectOf, sampledCols in Hw.
  unfold gridHeightOf, sampledRows in Hh.
  rewrite Hw, Hh. reflexivity.
Qed.

(** The change-suppression test. *)
Lemma autofit_suppressed (a : AutoSizing) (s : Settings) :
  (let '(f, l, h) := solve a s in
   within_epsilon s (clamp 4 128 f) (clamp (-2) 8 l) (clamp 0.5 3 h)) ->
  autofit a s = s.
Proof.
  intros Hsmall. unfold calculateAutoSize.
  destruct (negb (videoWidth video =? 0)%nat && negb (videoHeight video =? 0)%nat);
    [| reflexivity].
  cbv zeta.
  destruct (Qle_bool _ _ && Qle_bool _ _); [reflexivity |].
  destruct (negb (auto_fontSize a) && _ && _); [reflexivity |].
  unfold aspectOf, sampledRows, sampledCols in Hsmall.
  destruct (solveGeometry _ _ _ _ _ _ _ _ _) as [[f l] h].
  destruct Hsmall as [Hf [Hl Hh]].
  apply Qle_bool_iff in Hf, Hl, Hh.
  unfold Qgtb. rewrite Hf, Hl, Hh. reflexivity.
Qed.

(** What a call that does write has gone through. *)
Lemma autofit_writes (a : AutoSizing) (s : Settings) :
  autofit a s = s
  \/ ~ fits textWidth pixelStep video viewportWidth viewportHeight s
     /\ let '(f, l, h) := solve a s in
        autofit a s = with_geometry s (clamp 4 128 f) (clamp (-2) 8 l)
                        (clamp 0.5 3 h).
Proof.
  unfold calculateAutoSize.
  destruct (negb (videoWidth video =? 0)%nat && negb (videoHeight video =? 0)%nat);
    [| now left].
  cbv zeta.
  destruct (Qle_bool _ _ && Qle_bool _ _) eqn:Hfits; [now left |].
  destruct (negb (auto_fontSize a) && _ && _); [now left |].
  unfold aspectOf, sampledRows, sampledCols.
  destruct (solveGeometry _ _ _ _ _ _ _ _ _) as [[f l] h].
  destruct (Qgtb _ _ || Qgtb _ _ || Qgtb _ _); [| now left].
  right. split; [| reflexivity].
  intros [Hw Hh]. apply Qle_bool_iff in Hw, Hh.
  unfold gridWidthOf, aspectOf, sampledCols in Hw.
  unfold gridHeightOf, sampledRows in Hh.
  rewrite Hw, Hh in Hfits. discriminate.
Qed.

(** The "update settings if changed" test, when it passes: the grid does not
    fit, some dimension is free and some clamped solution is more than its
    epsilon away from the current value. *)
Lemma autofit_written (a : AutoSizing) (s : Settings) :
  0 < cols /\ 0 < rows ->
  ~ fits textWidth pixelStep video viewportWidth viewportHeight s ->
  auto_fontSize a = true \/ auto_letterSpacing a = true
  \/ auto_lineHeight a = true ->
  let '(f, l, h) := solve a s in
  above_epsilon s (clamp 4 128 f) (clamp (-2) 8 l) (clamp 0.5 3 h) ->
  autofit a s = with_geometry s (clamp 4 128 f) (clamp (-2) 8 l)
                  (clamp 0.5 3 h).
Proof.
  intros [Hcols Hrows] Hnofit Hfree. unfold calculateAutoSize.
  assert (Hw : (videoWidth video =? 0)%nat = false).
  { apply Nat.eqb_neq. intros E. unfold sampledCols in Hcols.
    rewrite E, Nat.Div0.div_0_l in Hcols. discriminate. }
  assert (Hh : (videoHeight video =? 0)%nat = false).
  { apply Nat.eqb_neq. intros E. unfold sampledRows in Hrows.
    rewrite E, Nat.Div0.div_0_l in Hrows. discriminate. }
  rewrite Hw, Hh. cbn [negb andb]. cbv zeta.
  destruct (Qle_bool _ _ && Qle_bool _ _) eqn:Hfits.
  { exfalso. apply Hnofit. apply andb_true_iff in Hfits.
    destruct Hfits as [Hgw Hgh]. apply Qle_bool_iff in Hgw, Hgh.
    split; assumption. }
  destruct (negb (auto_fontSize a) && negb (auto_letterSpacing a)
            && negb (auto_lineHeight a)) eqn:Hlocked.
  { exfalso. apply andb_true_iff in Hlocked. destruct Hlocked as [Hlocked Hh'].
    apply andb_true_iff in Hlocked. destruct Hlocked as [Hf' Hl'].
    apply negb_true_iff in Hf', Hl', Hh'.
    destruct Hfree as [E | [E | E]]; congruence. }
  unfold aspectOf, sampledRows, sampledCols.
  destruct (solveGeometry _ _ _ _ _ _ _ _ _) as [[f l] h].
  intros Habove.
  assert (Htest : Qgtb (Qabs (clamp 4 128 f - fontSize s)) 0.1
                  || Qgtb (Qabs (clamp (-2) 8 l - letterSpacing s)) 0.01
                  || Qgtb (Qabs (clamp 0.5 3 h - lineHeight s)) 0.01 = true).
  { unfold Qgtb. rewrite !orb_true_iff, !negb_true_iff.
    destruct Habove as [H | [H | H]]; [left; left | left; right | right];
      apply not_true_is_false; intros E; apply Qle_bool_iff in E; lra. }
  rewrite Htest. reflexivity.
Qed.

End AutoFit.

(** ** Auto-fit with no dimension locked *)

Lemma solveGeometry_unlocked (a : AutoSizing)
    (vw vh rows cols aspect fs ls lh : Q) :
  auto_fontSize a = true -> auto_letterSpacing a = true ->
  auto_lineHeight a = true ->
  solveGeometry a vw vh rows cols aspect fs ls lh
  = (fs * Qmin (vw / (cols * (fs * aspect + ls * fs))) (vh / (rows * (fs * lh))),
     ls * Qmin (vw / (cols * (fs * aspect + ls * fs))) (vh / (rows * (fs * lh))),
     lh).
Proof.
  intros Hf Hl Hh. unfold solveGeometry. rewrite Hf, Hl, Hh. reflexivity.
Qed.

(** The uniform scale factor [min(vw / gridWidth, vh / gridHeight)]. *)
Lemma scale_facts (vw vh gW gH : Q) :
  0 < vw -> 0 < vh -> 0 < gW -> 0 < gH ->
  let scale := Qmin (vw / gW) (vh / gH) in
  0 < scale /\ scale * gW <= vw /\ scale * gH <= vh
  /\ (vh / gH <= vw / gW -> scale * gH == vh)
  /\ (vw / gW <= vh / gH -> scale * gW == vw)
  /\ (~ (gW <= vw /\ gH <= vh) -> scale < 1).
Proof.
  intros Hvw Hvh HgW HgH scale.
  assert (Ea : (vw / gW) * gW == vw) by (field; lra).
  assert (Eb : (vh / gH) * gH == vh) by (field; lra).
  assert (Ha : 0 < vw / gW) by (apply Qlt_shift_div_l; lra).
  assert (Hb : 0 < vh / gH) by (apply Qlt_shift_div_l; lra).
  subst scale.
  destruct (Q.min_spec (vw / gW) (vh / gH)) as [[Hlt E] | [Hle E]];
    generalize dependent (Qmin (vw / gW) (vh / gH));
    generalize dependent (vw / gW); generalize dependent (vh / gH);
    intros b Eb Hb a Ea Ha; intros; repeat split; intros; nra.
Qed.

(** The arithmetic of scaling font size and letter spacing by [sc < 1]. *)
Lemma scaled_grid_arith (cols rows aspect fs ls lh vw vh sc F L H : Q) :
  0 < cols -> 0 < rows -> 0 < aspect -> 0 < fs -> 0 <= ls -> 0 < lh ->
  0 < sc -> sc < 1 ->
  sc * (cols * (fs * aspect + ls * fs)) <= vw ->
  sc * (rows * (fs * lh)) <= vh ->
  F == fs * sc -> L == ls * sc -> H == lh ->
  cols * (F * aspect + L * F) <= vw
  /\ rows * (F * H) <= vh
  /\ (sc * (rows * (fs * lh)) == vh -> rows * (F * H) == vh)
  /\ (sc * (cols * (fs * aspect + ls * fs)) == vw -> ls == 0 ->
      cols * (F * aspect + L * F) == vw).
Proof.
  intros Hcols Hrows Haspect Hfs Hls Hlh Hsc0 Hsc1 HW HH EF EL EH.
  rewrite EF, EL, EH.
  assert (Hslack : 0 <= cols * fs * sc * ls * (1 - sc)).
  { repeat apply Qmult_le_0_compat; lra. }
  split; [nra |]. split; [nra |]. split.
  - intros E. nra.
  - intros E Hzero. rewrite Hzero in *. nra.
Qed.

Section Unlocked.

Variable textWidth : jsstring -> Q -> option Q.
Variable pixelStep : nat.
Variable video : Video.
Variables viewportWidth viewportHeight : Q.
Variable a : AutoSizing.
Variable s : Settings.

Abbreviation rows := (sampledRows pixelStep video).
Abbreviation cols := (sampledCols pixelStep video).
Abbreviation aspect := (aspectOf textWidth s).
Abbreviation autofit :=
  (calculateAutoSize textWidth pixelStep (Some video) viewportWidth viewportHeight).
Abbreviation gridW := (gridWidthOf aspect cols s).
Abbreviation gridH := (gridHeightOf rows s).
Abbreviation scale := (Qmin (viewportWidth / gridW) (viewportHeight / gridH)).

Hypothesis unlocked :
  auto_fontSize a = true /\ auto_letterSpacing a = true
  /\ auto_lineHeight a = true.
Hypothesis cells : 0 < cols /\ 0 < rows.
Hypothesis viewport : 0 < viewportWidth /\ 0 < viewportHeight.
Hypothesis glyph : 0 < aspect.
Hypothesis bounds : in_bounds s.
Hypothesis spacing : 0 <= letterSpacing s.

Lemma grid_positive : 0 < gridW /\ 0 < gridH.
Proof.
  unfold gridWidthOf, gridHeightOf, in_bounds in *.
  destruct cells, bounds as [? [? ?]]. split.
  - apply Qmult_lt_0_compat; [assumption |]. nra.
  - apply Qmult_lt_0_compat; [assumption |]. nra.
Qed.

(** What the unlocked routine writes, when it writes. *)
Lemma unlocked_writes :
  autofit a s = s
  \/ ~ fits textWidth pixelStep video viewportWidth viewportHeight s
     /\ autofit a s
        = with_geometry s (clamp 4 128 (fontSize s * scale))
            (clamp (-2) 8 (letterSpacing s * scale)) (clamp 0.5 3 (lineHeight s)).
Proof.
  destruct (autofit_writes textWidth pixelStep video viewportWidth
              viewportHeight a s) as [Hsame | [Hnofit Hwrite]];
    [now left | right].
  split; [exact Hnofit |].
  destruct unlocked as [Hf [Hl Hh]].
  rewrite (solveGeometry_unlocked a _ _ _ _ _ _ _ _ Hf Hl Hh) in Hwrite.
  exact Hwrite.
Qed.

(** Under these hypotheses the routine divides by no zero, so the rationals
    are the code's numbers here. *)
Lemma unlocked_no_zero_divisor :
  no_zero_divisor a viewportWidth viewportHeight rows cols aspect
    (fontSize s) (letterSpacing s) (lineHeight s).
Proof.
  destruct grid_positive as [HgW HgH].
  destruct viewport as [Hvw Hvh].
  destruct (scale_facts viewportWidth viewportHeight gridW gridH
              Hvw Hvh HgW HgH) as [Hs0 _].
  destruct unlocked as [Hf [Hl Hh]].
  unfold no_zero_divisor.
  rewrite (solveGeometry_unlocked a _ _ _ _ _ _ _ _ Hf Hl Hh).
  destruct bounds as [[Hf4 _] _].
  assert (Hsolved : 0 < fontSize s * scale).
  { apply Qmult_lt_0_compat; [lra | exact Hs0]. }
  unfold gridWidthOf, gridHeightOf in *.
  repeat split; intros E.
  - rewrite E in HgW. discriminate.
  - rewrite E in HgH. discriminate.
  - rewrite E in glyph. discriminate.
  - rewrite E in Hsolved. discriminate.
Qed.

(** C2, as the code has it: with no dimension locked, a grid that already
    fits the viewport is left as it is (so it may underflow).  A grid that
    overflows is scaled by [min(vw / gridWidth, vh / gridHeight)] in font size
    and letter spacing, the line height staying: the scaled values are
    written when the clamped font size is more than 0.1 or the letter spacing
    more than 0.01 away from the current one, and nothing is written when
    both are less than that away.  When the scaled font size is not clamped
    the new grid lies inside the viewport; it spans the height exactly when
    height is the tighter direction, and the width exactly when width is the
    tighter direction and the letter spacing is zero.  (The grid of the
    result is measured with the glyph aspect read before the call.) *)
Theorem C2_unlocked_autofit_fits_inside :
  let r := autofit a s in
  let newFontSize := clamp 4 128 (fontSize s * scale) in
  let newLetterSpacing := letterSpacing s * scale in
  (fits textWidth pixelStep video viewportWidth viewportHeight s -> r = s)
  /\ (~ fits textWidth pixelStep video viewportWidth viewportHeight s ->
      (Qabs (newFontSize - fontSize s) < 0.1 ->
       Qabs (newLetterSpacing - letterSpacing s) < 0.01 ->
       r = s)
      /\ (0.1 < Qabs (newFontSize - fontSize s)
          \/ 0.01 < Qabs (newLetterSpacing - letterSpacing s) ->
          fontSize r = newFontSize
          /\ letterSpacing r == newLetterSpacing
          /\ lineHeight r == lineHeight s
          /\ (4 <= fontSize s * scale ->
              gridWidthOf aspect cols r <= viewportWidth
              /\ gridHeightOf rows r <= viewportHeight
              /\ (viewportHeight / gridH <= viewportWidth / gridW ->
                  gridHeightOf rows r == viewportHeight)
              /\ (viewportWidth / gridW <= viewportHeight / gridH ->
                  letterSpacing s == 0 ->
                  gridWidthOf aspect cols r == viewportWidth)))).
Proof.
  intros r newFontSize newLetterSpacing. split.
  { intros Hfits. now apply autofit_fits_noop. }
  intros Hnofit.
  destruct grid_positive as [HgW HgH].
  destruct viewport as [Hvw Hvh]. destruct cells as [Hcols Hrows].
  destruct bounds as [[Hf4 Hf128] [[Hh1 Hh3] [Hl2 Hl8]]].
  destruct (scale_facts viewportWidth viewportHeight gridW gridH
              Hvw Hvh HgW HgH) as [Hs0 [HsW [HsH [HeqH [HeqW Hs1]]]]].
  assert (Hlt1 : scale < 1) by (apply Hs1; exact Hnofit).
  assert (El : clamp (-2) 8 (letterSpacing s * scale) == letterSpacing s * scale).
  { apply clamp_inside. split; nra. }
  assert (Eh : clamp 0.5 3 (lineHeight s) == lineHeight s).
  { apply clamp_inside. split; assumption. }
  destruct unlocked as [Ha1 [Ha2 Ha3]].
  split.
  - intros Hfont Hspacing. subst r. apply autofit_suppressed.
    unfold aspectOf, sampledRows, sampledCols.
    rewrite (solveGeometry_unlocked a _ _ _ _ _ _ _ _ Ha1 Ha2 Ha3).
    split; [| split].
    + apply Qlt_le_weak. exact Hfont.
    + rewrite El. apply Qlt_le_weak. exact Hspacing.
    + apply Qabs_Qle_condition. lra.
  - intros Habove.
    pose proof (autofit_written textWidth pixelStep video viewportWidth
                  viewportHeight a s (conj Hcols Hrows) Hnofit
                  (or_introl Ha1)) as Hwrite.
    unfold aspectOf, sampledRows, sampledCols in Hwrite.
    rewrite (solveGeometry_unlocked a _ _ _ _ _ _ _ _ Ha1 Ha2 Ha3) in Hwrite.
    assert (Hexceeds :
              above_epsilon s (clamp 4 128 (fontSize s * scale))
                (clamp (-2) 8 (letterSpacing s * scale))
                (clamp 0.5 3 (lineHeight s))).
    { destruct Habove as [H | H]; [left; exact H | right; left].
      rewrite El. exact H. }
    specialize (Hwrite Hexceeds).
    subst r. rewrite Hwrite.
    cbn [fontSize letterSpacing lineHeight with_geometry].
    split; [reflexivity |]. split; [exact El |]. split; [exact Eh |].
    intros Hunclamped.
    assert (Ef : clamp 4 128 (fontSize s * scale) == fontSize s * scale).
    { apply clamp_inside. split; [assumption | nra]. }
    unfold gridWidthOf, gridHeightOf in *.
    cbn [fontSize letterSpacing lineHeight with_geometry].
    assert (Hfs : 0 < fontSize s) by lra.
    assert (Hlh : 0 < lineHeight s) by lra.
    destruct (scaled_grid_arith cols rows aspect (fontSize s) (letterSpacing s)
                (lineHeight s) viewportWidth viewportHeight scale
                _ _ _ Hcols Hrows glyph Hfs spacing Hlh
                Hs0 Hlt1 HsW HsH Ef El Eh) as [HinW [HinH [HexH HexW]]].
    split; [exact HinW |]. split; [exact HinH |]. split.
    + intros Htight. apply HexH. now apply HeqH.
    + intros Htight Hzero. apply HexW; [| exact Hzero]. now apply HeqW.
Qed.

End Unlocked.

(** ** Calling auto-fit twice *)



Section SecondCall.

Variable textWidth : jsstring -> Q -> option Q.
Variable pixelStep : nat.
Variable video : Video.
Variables viewportWidth viewportHeight : Q.
Variable a : AutoSizing.
Variable s : Settings.
Variable glyphAspect : Q.

Abbreviation rows := (sampledRows pixelStep video).
Abbreviation cols := (sampledCols pixelStep video).
Abbreviation autofit :=
  (calculateAutoSize textWidth pixelStep (Some video) viewportWidth viewportHeight).
Abbreviation fitsViewport :=
  (fits textWidth pixelStep video viewportWidth viewportHeight).

Hypothesis unlocked :
  auto_fontSize a = true /\ auto_letterSpacing a = true
  /\ auto_lineHeight a = true.
Hypothesis cells : 0 < cols /\ 0 < rows.
Hypothesis viewport : 0 < viewportWidth /\ 0 < viewportHeight.
Hypothesis metrics :
  forall size, 4 <= size <= 128 ->
    measureGlyphAspect textWidth (fontFamily s) size == glyphAspect.
Hypothesis glyph : 0 < glyphAspect.
Hypothesis bounds : in_bounds s.
Hypothesis nospacing : letterSpacing s == 0.



End SecondCall.




(** With the letter spacing locked the second call writes again as well, for
    another reason: that branch takes the spacing in px at the current font
    size, so the font size it solves for depends on the one it replaces.
    After the letter-spacing slider is set to 0.5 (which locks that
    dimension), auto-fit on a 640 by 480 camera in a 1280 by 600 viewport
    writes a font size of 2140/159; called again with nothing changed, it
    writes 4250/477. *)
Lemma letterSpacing_locked_second_call_writes_again :
  let st := letterSpacing_onValueChange 0.5 defaultApp in
  let autofit :=
    calculateAutoSize noMetrics 6 (Some camera) 1280 600 (autoSizing st) in
  autofit (autofit (settings st)) <> autofit (settings st)
  /\ fontSize (autofit (settings st)) == 2140 # 159
  /\ fontSize (autofit (autofit (settings st))) == 4250 # 477.
Proof.
  intros st autofit. split; [| split].
  - intros H. apply (f_equal fontSize) in H. vm_compute in H. discriminate.
  - vm_compute. reflexivity.
  - vm_compute. reflexivity.
Qed.

(** C2 fails as stated: with the default settings the 106 by 80 grid of a
    640 by 480 camera measures 508.8 by 640 px; in a 1280 by 720 viewport it
    already fits, auto-fit leaves it alone and the width is 771.2 px short.
    In a 1280 by 600 viewport auto-fit scales the font to 7.5 px: the height
    is met and the width is 477 px. *)
Lemma C2_counterexample_width_underflows :
  let fitted h :=
    calculateAutoSize noMetrics 6 (Some camera) 1280 h DEFAULT_AUTO_SIZING
      DEFAULT_SETTINGS in
  fitted 720 = DEFAULT_SETTINGS
  /\ gridWidthOf 0.6 106 (fitted 720) == 508.8
  /\ ~ (Qabs (gridWidthOf 0.6 106 (fitted 720) - 1280) <= 1)
  /\ gridHeightOf 80 (fitted 600) == 600
  /\ gridWidthOf 0.6 106 (fitted 600) == 477
  /\ ~ (Qabs (gridWidthOf 0.6 106 (fitted 600) - 1280) <= 1).
Proof.
  intros fitted. repeat split; try (vm_compute; reflexivity);
    intros H; vm_compute in H; apply H; reflexivity.
Qed.

(** ** Instances *)

Lemma C1_witness :
  pixelToAscii scenarioSettings 1 (asciiSet scenarioSettings)
  = nth_error (asciiSet scenarioSettings) 1
  /\ pixelToAscii scenarioSettings 0 (asciiSet scenarioSettings)
     = nth_error (asciiSet scenarioSettings) 0.
Proof.
  assert (Hlen : (2 <= length (asciiSet scenarioSettings))%nat)
    by (vm_compute; lia).
  split.
  - destruct (C1_emitted_char_is_clamped_ramp_index scenarioSettings [] 0 0 0 1
                Hlen) as [_ [_ H]].
    apply H. reflexivity.
  - destruct (C1_emitted_char_is_clamped_ramp_index scenarioSettings [] 0 0 0 0
                Hlen) as [_ [H _]].
    apply H. reflexivity.
Defined.

Lemma C10_witness :
  exists c, pixelToAscii DEFAULT_SETTINGS (-7 # 2) (js " #") = Some c
            /\ In c (js " #").
Proof.
  assert (Hne : js " #" <> []) by discriminate.
  exact (proj2 (proj2 (C10_pixelToAscii_total DEFAULT_SETTINGS (-7 # 2)
                         (js " #") Hne))).
Defined.

Lemma C3_witness :
  exists rows dom',
    processFrame cornerDraw 6 scenarioSettings true (readyDom scenarioVideo [])
    = (Rendered, dom')
    /\ asciiRef dom' = Some (flat_map (fun row => row ++ [LF]) rows)
    /\ length rows = 2%nat
    /\ Forall (fun row => length row = 2%nat
                          /\ Forall (fun c => In c (js " #")) row) rows.
Proof.
  assert (Hready : readyState scenarioVideo = 4%nat) by reflexivity.
  assert (Hne : asciiSet scenarioSettings <> []) by discriminate.
  assert (Hstep : (1 <= 6 <= Nat.min (videoWidth scenarioVideo)
                                     (videoHeight scenarioVideo))%nat)
    by (vm_compute; lia).
  exact (C3_grid_rows_and_columns cornerDraw 6 scenarioSettings scenarioVideo
           blankCanvas [] Hready Hne Hstep).
Defined.

Lemma C4_witness :
  exists ascii dom',
    processFrame smoothingDraw 6 scenarioSettings true (readyDom scenarioVideo [])
    = (Rendered, dom')
    /\ asciiRef dom' = Some ascii
    /\ nth_error ascii 0
       = pixelToAscii scenarioSettings
           (pixelLuminance
              (smoothingDraw
                 {| flt_contrast := 100; flt_brightness := 100;
                    flt_saturate := 100; flt_grayscale := true |}
                 1%Z scenarioVideo 0%Z 0%Z 2 2 2 2 0 0)%nat)
           (js " #").
Proof.
  assert (Hready : readyState scenarioVideo = 4%nat) by reflexivity.
  assert (Hne : asciiSet scenarioSettings <> []) by discriminate.
  assert (Hx : (0 < videoWidth scenarioVideo / 6)%nat) by (vm_compute; lia).
  assert (Hy : (0 < videoHeight scenarioVideo / 6)%nat) by (vm_compute; lia).
  exact (C4_cell_shows_one_canvas_pixel smoothingDraw 6 scenarioSettings
           scenarioVideo blankCanvas [] 0 0 Hready Hne Hx Hy).
Defined.

Lemma half_is_unit_interval : unit_interval (fun _ => 1 # 2).
Proof. intros n. split; [discriminate | reflexivity]. Defined.

Lemma default_ramp_nonempty : asciiSet (settings defaultApp) <> [].
Proof. discriminate. Defined.

Lemma default_in_bounds : in_bounds DEFAULT_SETTINGS.
Proof. unfold in_bounds. simpl. repeat split; discriminate. Defined.

Lemma C5_witness :
  asciiSet (settings (asciiSet_onChange [] defaultApp)) = []
  /\ asciiSet (settings (asciiPreset_onValueChange "Terminal" defaultApp)) <> []
  /\ asciiSet (settings (randomizeSettings (fun _ => 1 # 2)
                           {| enabled := true; interval := 2000;
                              autoMode := false; controls := only FAsciiSet |}
                           defaultApp)) <> [].
Proof.
  destruct (C5_empty_ramp_is_applied [] "Terminal" (fun _ => 1 # 2)
              {| enabled := true; interval := 2000; autoMode := false;
                 controls := only FAsciiSet |}
              defaultApp 0 half_is_unit_interval default_ramp_nonempty)
    as [H1 [_ [H3 H4]]].
  repeat split; assumption.
Defined.

Lemma C9_witness :
  let rs := {| enabled := true; interval := 2000; autoMode := false;
               controls := only FFontSize |} in
  let st' := randomizeSettings (fun _ => 1 # 2) rs defaultApp in
  asciiSet (settings defaultApp) = asciiSet (settings st')
  /\ auto_fontSize (autoSizing st') = false
  /\ auto_lineHeight (autoSizing st') = true.
Proof.
  intros rs st'.
  destruct (C9_randomize_one_field_and_locks (fun _ => 1 # 2) rs defaultApp
              eq_refl) as [Hkeep [Hlock [_ [_ [_ [_ Hfree]]]]]].
  split; [| split].
  - apply (Hkeep FFontSize FAsciiSet eq_refl). discriminate.
  - apply Hlock. reflexivity.
  - exact (Hfree eq_refl).
Defined.

Lemma default_unlocked :
  auto_fontSize DEFAULT_AUTO_SIZING = true
  /\ auto_letterSpacing DEFAULT_AUTO_SIZING = true
  /\ auto_lineHeight DEFAULT_AUTO_SIZING = true.
Proof. repeat split. Defined.

Lemma camera_cells : 0 < sampledCols 6 camera /\ 0 < sampledRows 6 camera.
Proof. split; reflexivity. Defined.

Lemma C2_witness :
  let fitted h :=
    calculateAutoSize noMetrics 6 (Some camera) 1280 h DEFAULT_AUTO_SIZING
      DEFAULT_SETTINGS in
  gridWidthOf (aspectOf noMetrics DEFAULT_SETTINGS) (sampledCols 6 camera)
    (fitted 600) <= 1280
  /\ gridHeightOf (sampledRows 6 camera) (fitted 600) == 600
  /\ fitted 639 = DEFAULT_SETTINGS.
Proof.
  intros fitted.
  assert (Hglyph : 0 < aspectOf noMetrics DEFAULT_SETTINGS) by reflexivity.
  assert (Hsp : 0 <= letterSpacing DEFAULT_SETTINGS) by discriminate.
  assert (Hnofit : forall h, h < 640 ->
                     ~ fits noMetrics 6 camera 1280 h DEFAULT_SETTINGS).
  { intros h Hh [_ Hfit]. vm_compute in Hfit.
    apply (Qlt_not_le _ _ Hh). exact Hfit. }
  split; [| split].
  - destruct (C2_unlocked_autofit_fits_inside noMetrics 6 camera 1280 600
                DEFAULT_AUTO_SIZING DEFAULT_SETTINGS default_unlocked
                camera_cells (conj eq_refl eq_refl) Hglyph default_in_bounds Hsp)
      as [_ Hover].
    destruct (Hover (Hnofit 600 eq_refl)) as [_ Hwritten].
    destruct (Hwritten (or_introl eq_refl)) as [_ [_ [_ Hin]]].
    destruct (Hin ltac:(vm_compute; discriminate)) as [HW _].
    exact HW.
  - destruct (C2_unlocked_autofit_fits_inside noMetrics 6 camera 1280 600
                DEFAULT_AUTO_SIZING DEFAULT_SETTINGS default_unlocked
                camera_cells (conj eq_refl eq_refl) Hglyph default_in_bounds Hsp)
      as [_ Hover].
    destruct (Hover (Hnofit 600 eq_refl)) as [_ Hwritten].
    destruct (Hwritten (or_introl eq_refl)) as [_ [_ [_ Hin]]].
    destruct (Hin ltac:(vm_compute; discriminate)) as [_ [_ [Htight _]]].
    apply Htight. vm_compute. discriminate.
  - destruct (C2_unlocked_autofit_fits_inside noMetrics 6 camera 1280 639
                DEFAULT_AUTO_SIZING DEFAULT_SETTINGS default_unlocked
                camera_cells (conj eq_refl eq_refl) Hglyph default_in_bounds Hsp)
      as [_ Hover].
    destruct (Hover (Hnofit 639 eq_refl)) as [Hsuppressed _].
    apply Hsuppressed; reflexivity.
Defined.


Lemma camera_no_zero_divisor (viewportHeight : Q) :
  0 < viewportHeight ->
  no_zero_divisor DEFAULT_AUTO_SIZING 1280 viewportHeight (sampledRows 6 camera)
    (sampledCols 6 camera) (aspectOf monospaceMetrics DEFAULT_SETTINGS)
    (fontSize DEFAULT_SETTINGS) (letterSpacing DEFAULT_SETTINGS)
    (lineHeight DEFAULT_SETTINGS).
Proof.
  intros Hvh.
  apply (unlocked_no_zero_divisor monospaceMetrics 6 camera 1280 viewportHeight
           DEFAULT_AUTO_SIZING DEFAULT_SETTINGS default_unlocked camera_cells
           (conj eq_refl Hvh) eq_refl default_in_bounds).
  discriminate.
Defined.


(** * Further properties *)

(** ** Auto-fit under locks *)

Lemma solveGeometry_fontSize_locked (a : AutoSizing)
    (vw vh rows cols aspect fs ls lh : Q) :
  auto_fontSize a = false ->
  solveGeometry a vw vh rows cols aspect fs ls lh
  = (fs,
     (if auto_letterSpacing a then (vw / cols - fs * aspect) / fs else ls),
     (if auto_lineHeight a then vh / (rows * fs) else lh)).
Proof.
  intros Hf. unfold solveGeometry. rewrite Hf. reflexivity.
Qed.

Lemma solveGeometry_letterSpacing_locked (a : AutoSizing)
    (vw vh rows cols aspect fs ls lh : Q) :
  auto_fontSize a = true -> auto_letterSpacing a = false ->
  solveGeometry a vw vh rows cols aspect fs ls lh
  = ((vw / cols - ls * fs) / aspect, ls,
     (if auto_lineHeight a
      then vh / (rows * ((vw / cols - ls * fs) / aspect)) else lh)).
Proof.
  intros Hf Hl. unfold solveGeometry. rewrite Hf, Hl. reflexivity.
Qed.

Lemma solveGeometry_lineHeight_locked (a : AutoSizing)
    (vw vh rows cols aspect fs ls lh : Q) :
  auto_fontSize a = true -> auto_letterSpacing a = true ->
  auto_lineHeight a = false ->
  solveGeometry a vw vh rows cols aspect fs ls lh
  = (vh / (rows * lh),
     (vw / cols - vh / (rows * lh) * aspect) / (vh / (rows * lh)), lh).
Proof.
  intros Hf Hl Hh. unfold solveGeometry. rewrite Hf, Hl, Hh. reflexivity.
Qed.

(** What [solveGeometry] returns for a locked dimension is its current
    value. *)
Lemma solveGeometry_keeps_locked (a : AutoSizing)
    (vw vh rows cols aspect fs ls lh : Q) :
  let '(f, l, h) := solveGeometry a vw vh rows cols aspect fs ls lh in
  (auto_fontSize a = false -> f = fs)
  /\ (auto_letterSpacing a = false -> l = ls)
  /\ (auto_lineHeight a = false -> h = lh).
Proof.
  unfold solveGeometry.
  destruct (auto_fontSize a), (auto_letterSpacing a), (auto_lineHeight a);
    simpl; repeat split; intros; congruence.
Qed.

Lemma autofit_keeps_locked
    (textWidth : jsstring -> Q -> option Q) (pixelStep : nat)
    (video : option Video) (viewportWidth viewportHeight : Q)
    (a : AutoSizing) (s : Settings) :
  in_bounds s ->
  let r := calculateAutoSize textWidth pixelStep video viewportWidth
             viewportHeight a s in
  (auto_fontSize a = false -> fontSize r == fontSize s)
  /\ (auto_letterSpacing a = false -> letterSpacing r == letterSpacing s)
  /\ (auto_lineHeight a = false -> lineHeight r == lineHeight s)
  /\ (auto_fontSize a = false -> auto_letterSpacing a = false ->
      auto_lineHeight a = false -> r = s).
Proof.
  intros [Hf [Hh Hl]] r.
  assert (Hall : auto_fontSize a = false -> auto_letterSpacing a = false ->
                 auto_lineHeight a = false -> r = s).
  { intros H1 H2 H3. subst r. unfold calculateAutoSize.
    destruct video as [v |]; [| reflexivity].
    destruct (negb (videoWidth v =? 0)%nat && negb (videoHeight v =? 0)%nat);
      [| reflexivity].
    cbv zeta. rewrite H1, H2, H3.
    destruct (Qle_bool _ _ && Qle_bool _ _); reflexivity. }
  destruct (calculateAutoSize_cases textWidth pixelStep video viewportWidth
              viewportHeight a s) as [Hsame | [v [_ Hwrite]]].
  - fold r in Hsame. rewrite Hsame. repeat split; reflexivity.
  - fold r in Hwrite.
    pose proof (solveGeometry_keeps_locked a viewportWidth viewportHeight
                  (inject_Z (Z.of_nat (videoHeight v / pixelStep)))
                  (inject_Z (Z.of_nat (videoWidth v / pixelStep)))
                  (measureGlyphAspect textWidth (fontFamily s) (fontSize s))
                  (fontSize s) (letterSpacing s) (lineHeight s)) as Hkeep.
    destruct (solveGeometry _ _ _ _ _ _ _ _ _) as [[f l] h].
    destruct Hkeep as [Kf [Kl Kh]]. rewrite Hwrite. simpl.
    split; [| split; [| split]].
    + intros H. rewrite (Kf H). apply clamp_inside. exact Hf.
    + intros H. rewrite (Kl H). apply clamp_inside. exact Hl.
    + intros H. rewrite (Kh H). apply clamp_inside. exact Hh.
    + intros H1 H2 H3. rewrite <- Hwrite. now apply Hall.
Qed.

(** X1: auto-fit honours the locks.  Whatever the video and the viewport, a
    dimension the user has locked comes out of [calculateAutoSize] with its
    value (for settings within the slider bounds), and with all three locked
    the settings are returned as they are. *)
Theorem autofit_honours_locks
    (textWidth : jsstring -> Q -> option Q) (pixelStep : nat)
    (video : option Video) (viewportWidth viewportHeight : Q)
    (a : AutoSizing) (s : Settings) :
  in_bounds s ->
  let r := calculateAutoSize textWidth pixelStep video viewportWidth
             viewportHeight a s in
  (auto_fontSize a = false -> fontSize r == fontSize s)
  /\ (auto_letterSpacing a = false -> letterSpacing r == letterSpacing s)
  /\ (auto_lineHeight a = false -> lineHeight r == lineHeight s)
  /\ (auto_fontSize a = false -> auto_letterSpacing a = false ->
      auto_lineHeight a = false -> r = s).
Proof. apply autofit_keeps_locked. Qed.

Lemma autofit_honours_locks_witness :
  lineHeight (calculateAutoSize noMetrics 6 (Some camera) 320 200
                (lock_lineHeight DEFAULT_AUTO_SIZING) DEFAULT_SETTINGS)
  == lineHeight DEFAULT_SETTINGS.
Proof.
  destruct (autofit_honours_locks noMetrics 6 (Some camera) 320 200
              (lock_lineHeight DEFAULT_AUTO_SIZING) DEFAULT_SETTINGS
              default_in_bounds) as [_ [_ [H _]]].
  apply H. reflexivity.
Defined.

(** ** Auto-fit with one dimension locked: what the solution achieves *)

Lemma fill_fontSize_locked_arith (cols rows aspect fs vw vh F L H : Q) :
  0 < cols -> 0 < rows -> 0 < fs ->
  F == fs -> L == (vw / cols - fs * aspect) / fs -> H == vh / (rows * fs) ->
  cols * (F * aspect + L * F) == vw /\ rows * (F * H) == vh.
Proof.
  intros Hc Hr Hf EF EL EH. rewrite EF, EL, EH.
  split; field; repeat split; lra.
Qed.

Lemma fill_lineHeight_locked_arith (cols rows aspect lh vw vh F L H : Q) :
  0 < cols -> 0 < rows -> 0 < lh -> 0 < vh ->
  F == vh / (rows * lh) ->
  L == (vw / cols - vh / (rows * lh) * aspect) / (vh / (rows * lh)) ->
  H == lh ->
  cols * (F * aspect + L * F) == vw /\ rows * (F * H) == vh.
Proof.
  intros Hc Hr Hl Hv EF EL EH. rewrite EF, EL, EH.
  split; field; repeat split; lra.
Qed.

Lemma fill_letterSpacing_locked_arith (cols rows aspect fs ls vw vh F L H : Q) :
  0 < cols -> 0 < rows -> 0 < aspect -> 0 < (vw / cols - ls * fs) / aspect ->
  F == (vw / cols - ls * fs) / aspect -> L == ls ->
  H == vh / (rows * ((vw / cols - ls * fs) / aspect)) ->
  cols * (F * aspect + L * F) == vw + cols * ls * (F - fs)
  /\ rows * (F * H) == vh.
Proof.
  intros Hc Hr Ha Hpos EF EL EH. rewrite EL, EH.
  assert (Hne : ~ vw / cols - ls * fs == 0).
  { intros E. rewrite E in Hpos. unfold Qdiv in Hpos.
    rewrite Qmult_0_l in Hpos. lra. }
  split.
  - rewrite EF. field. split; lra.
  - rewrite EF. field. repeat split; try lra.
    intros E. apply Hne.
    assert (Esplit : vw / cols - ls * fs == (vw - ls * fs * cols) / cols)
      by (field; lra).
    rewrite Esplit, E. field. lra.
Qed.

Section OneLock.

Variable textWidth : jsstring -> Q -> option Q.
Variable pixelStep : nat.
Variable video : Video.
Variables viewportWidth viewportHeight : Q.
Variable a : AutoSizing.
Variable s : Settings.

Abbreviation rows := (sampledRows pixelStep video).
Abbreviation cols := (sampledCols pixelStep video).
Abbreviation aspect := (aspectOf textWidth s).
Abbreviation autofit :=
  (calculateAutoSize textWidth pixelStep (Some video) viewportWidth viewportHeight).

Hypothesis cells : 0 < cols /\ 0 < rows.
Hypothesis bounds : in_bounds s.

(** X2: with the font size locked and the other two free, whenever auto-fit
    writes and neither solution is clamped, the font size is kept and the grid
    spans the viewport exactly in both directions. *)
Theorem autofit_fontSize_locked_fills :
  auto_fontSize a = false -> auto_letterSpacing a = true ->
  auto_lineHeight a = true ->
  -2 <= (viewportWidth / cols - fontSize s * aspect) / fontSize s <= 8 ->
  0.5 <= viewportHeight / (rows * fontSize s) <= 3 ->
  let r := autofit a s in
  r = s
  \/ (fontSize r == fontSize s
      /\ gridWidthOf aspect cols r == viewportWidth
      /\ gridHeightOf rows r == viewportHeight).
Proof.
  intros Hf Hl Hh HL HH r. subst r.
  destruct (autofit_writes textWidth pixelStep video viewportWidth
              viewportHeight a s) as [Hsame | [_ Hwrite]]; [now left | right].
  rewrite solveGeometry_fontSize_locked in Hwrite by exact Hf.
  rewrite Hl, Hh in Hwrite. rewrite Hwrite.
  destruct cells as [Hc Hr]. destruct bounds as [[Hf4 Hf128] _].
  unfold gridWidthOf, gridHeightOf.
  cbn [fontSize letterSpacing lineHeight with_geometry].
  assert (EF : clamp 4 128 (fontSize s) == fontSize s)
    by (apply clamp_inside; lra).
  split; [exact EF |].
  apply (fill_fontSize_locked_arith cols rows aspect (fontSize s)
           viewportWidth viewportHeight); try assumption; try lra;
    apply clamp_inside; assumption.
Qed.

(** X3: with the line height locked and the other two free, whenever auto-fit
    writes and neither solution is clamped, the line height is kept and the
    grid spans the viewport exactly in both directions. *)
Theorem autofit_lineHeight_locked_fills :
  auto_fontSize a = true -> auto_letterSpacing a = true ->
  auto_lineHeight a = false ->
  0 < viewportHeight ->
  4 <= viewportHeight / (rows * lineHeight s) <= 128 ->
  -2 <= (viewportWidth / cols - viewportHeight / (rows * lineHeight s) * aspect)
        / (viewportHeight / (rows * lineHeight s)) <= 8 ->
  let r := autofit a s in
  r = s
  \/ (lineHeight r == lineHeight s
      /\ gridWidthOf aspect cols r == viewportWidth
      /\ gridHeightOf rows r == viewportHeight).
Proof.
  intros Hf Hl Hh Hvh HF HL r. subst r.
  destruct (autofit_writes textWidth pixelStep video viewportWidth
              viewportHeight a s) as [Hsame | [_ Hwrite]]; [now left | right].
  rewrite solveGeometry_lineHeight_locked in Hwrite by assumption.
  rewrite Hwrite.
  destruct cells as [Hc Hr]. destruct bounds as [_ [[Hh1 Hh3] _]].
  unfold gridWidthOf, gridHeightOf.
  cbn [fontSize letterSpacing lineHeight with_geometry].
  assert (EH : clamp 0.5 3 (lineHeight s) == lineHeight s)
    by (apply clamp_inside; lra).
  split; [exact EH |].
  apply (fill_lineHeight_locked_arith cols rows aspect (lineHeight s)
           viewportWidth viewportHeight); try assumption; try lra;
    apply clamp_inside; assumption.
Qed.

(** X4: with the letter spacing locked and the other two free, whenever
    auto-fit writes and neither solution is clamped, the grid spans the
    viewport height exactly, but its width misses the viewport width by
    [cols * letterSpacing * (new font size - old font size)]: the spacing
    is converted to pixels at the old font size. *)
Theorem autofit_letterSpacing_locked_misses_width :
  auto_fontSize a = true -> auto_letterSpacing a = false ->
  auto_lineHeight a = true ->
  0 < aspect ->
  let solved := (viewportWidth / cols - letterSpacing s * fontSize s) / aspect in
  4 <= solved <= 128 ->
  0.5 <= viewportHeight / (rows * solved) <= 3 ->
  let r := autofit a s in
  r = s
  \/ (letterSpacing r == letterSpacing s
      /\ fontSize r == solved
      /\ gridHeightOf rows r == viewportHeight
      /\ gridWidthOf aspect cols r
         == viewportWidth
            + cols * letterSpacing s * (fontSize r - fontSize s)).
Proof.
  intros Hf Hl Hh Hasp solved HF HH r. subst r.
  destruct (autofit_writes textWidth pixelStep video viewportWidth
              viewportHeight a s) as [Hsame | [_ Hwrite]]; [now left | right].
  rewrite solveGeometry_letterSpacing_locked in Hwrite by assumption.
  rewrite Hh in Hwrite. rewrite Hwrite.
  destruct cells as [Hc Hr]. destruct bounds as [_ [_ [Hl2 Hl8]]].
  unfold gridWidthOf, gridHeightOf.
  cbn [fontSize letterSpacing lineHeight with_geometry].
  assert (EL : clamp (-2) 8 (letterSpacing s) == letterSpacing s)
    by (apply clamp_inside; lra).
  assert (EF : clamp 4 128 solved == solved) by (apply clamp_inside; exact HF).
  assert (EH : clamp 0.5 3 (viewportHeight / (rows * solved))
               == viewportHeight / (rows * solved))
    by (apply clamp_inside; exact HH).
  split; [exact EL |]. split; [exact EF |].
  destruct (fill_letterSpacing_locked_arith cols rows aspect (fontSize s)
              (letterSpacing s) viewportWidth viewportHeight
              (clamp 4 128 solved) (clamp (-2) 8 (letterSpacing s))
              (clamp 0.5 3 (viewportHeight / (rows * solved)))
              Hc Hr Hasp ltac:(fold solved; lra) EF EL EH) as [HW HHt].
  split; [exact HHt | exact HW].
Qed.

End OneLock.

Lemma autofit_fontSize_locked_fills_witness :
  let r := calculateAutoSize noMetrics 6 (Some camera) 1280 600
             (lock_fontSize DEFAULT_AUTO_SIZING) DEFAULT_SETTINGS in
  gridWidthOf (aspectOf noMetrics DEFAULT_SETTINGS) (sampledCols 6 camera) r
    == 1280
  /\ gridHeightOf (sampledRows 6 camera) r == 600.
Proof.
  intros r.
  destruct (autofit_fontSize_locked_fills noMetrics 6 camera 1280 600
              (lock_fontSize DEFAULT_AUTO_SIZING) DEFAULT_SETTINGS
              camera_cells default_in_bounds eq_refl eq_refl eq_refl)
    as [Hsame | [_ Hfill]].
  - vm_compute. split; discriminate.
  - vm_compute. split; discriminate.
  - apply (f_equal lineHeight) in Hsame. vm_compute in Hsame. discriminate.
  - exact Hfill.
Defined.

Lemma autofit_lineHeight_locked_fills_witness :
  let r := calculateAutoSize noMetrics 6 (Some camera) 1280 600
             (lock_lineHeight DEFAULT_AUTO_SIZING) DEFAULT_SETTINGS in
  gridWidthOf (aspectOf noMetrics DEFAULT_SETTINGS) (sampledCols 6 camera) r
    == 1280
  /\ gridHeightOf (sampledRows 6 camera) r == 600.
Proof.
  intros r.
  destruct (autofit_lineHeight_locked_fills noMetrics 6 camera 1280 600
              (lock_lineHeight DEFAULT_AUTO_SIZING) DEFAULT_SETTINGS
              camera_cells default_in_bounds eq_refl eq_refl eq_refl)
    as [Hsame | [_ Hfill]].
  - reflexivity.
  - vm_compute. split; discriminate.
  - vm_compute. split; discriminate.
  - apply (f_equal fontSize) in Hsame. vm_compute in Hsame. discriminate.
  - exact Hfill.
Defined.

Lemma autofit_letterSpacing_locked_misses_width_witness :
  let st := letterSpacing_onValueChange 0.5 defaultApp in
  let r := calculateAutoSize noMetrics 6 (Some camera) 1280 600
             (autoSizing st) (settings st) in
  gridHeightOf (sampledRows 6 camera) r == 600
  /\ gridWidthOf (aspectOf noMetrics (settings st)) (sampledCols 6 camera) r
     == 1280 + sampledCols 6 camera * 0.5 * (fontSize r - 8).
Proof.
  intros st r.
  assert (Hb : in_bounds (settings st)).
  { unfold in_bounds. simpl. repeat split; discriminate. }
  destruct (autofit_letterSpacing_locked_misses_width noMetrics 6 camera
              1280 600 (autoSizing st) (settings st)
              camera_cells Hb eq_refl eq_refl eq_refl)
    as [Hsame | [_ [_ [HH HW]]]].
  - reflexivity.
  - vm_compute. split; discriminate.
  - vm_compute. split; discriminate.
  - apply (f_equal fontSize) in Hsame. vm_compute in Hsame. discriminate.
  - split; [exact HH | exact HW].
Defined.

(** ** A slider value and auto-fit *)

(** X5: a value set with one of the three geometry sliders is still there
    after any later auto-fit, since the slider locks its dimension. *)
Theorem slider_value_survives_autofit
    (textWidth : jsstring -> Q -> option Q) (pixelStep : nat)
    (video : option Video) (innerWidth innerHeight : Q)
    (value : Q) (st : AppState) :
  in_bounds (settings st) ->
  let fit := run_op (AutoFit textWidth pixelStep video innerWidth innerHeight) in
  (within fontSize_slider value ->
   fontSize (settings (fit (fontSize_onValueChange value st))) == value)
  /\ (within letterSpacing_slider value ->
      letterSpacing (settings (fit (letterSpacing_onValueChange value st)))
      == value)
  /\ (within lineHeight_slider value ->
      lineHeight (settings (fit (lineHeight_onValueChange value st))) == value).
Proof.
  intros [Hf [Hh Hl]] fit. unfold within. simpl.
  split; [| split]; intros [Hlo Hhi].
  - destruct (autofit_keeps_locked textWidth pixelStep video innerWidth
                innerHeight (lock_fontSize (autoSizing st))
                (set_fontSize (settings st) value)) as [H _].
    + unfold in_bounds. simpl. lra.
    + apply H. reflexivity.
  - destruct (autofit_keeps_locked textWidth pixelStep video innerWidth
                innerHeight (lock_letterSpacing (autoSizing st))
                (set_letterSpacing (settings st) value)) as [_ [H _]].
    + unfold in_bounds. simpl. lra.
    + apply H. reflexivity.
  - destruct (autofit_keeps_locked textWidth pixelStep video innerWidth
                innerHeight (lock_lineHeight (autoSizing st))
                (set_lineHeight (settings st) value)) as [_ [_ [H _]]].
    + unfold in_bounds. simpl. lra.
    + apply H. reflexivity.
Qed.

Lemma slider_value_survives_autofit_witness :
  fontSize (settings (run_op (AutoFit noMetrics 6 (Some camera) 320 200)
                        (fontSize_onValueChange 20 defaultApp))) == 20.
Proof.
  destruct (slider_value_survives_autofit noMetrics 6 (Some camera) 320 200 20
              defaultApp default_in_bounds) as [H _].
  apply H. split; discriminate.
Defined.

(** ** Hexadecimal colours *)

Lemma hex_value_from (s : jsstring) (v : N) :
  fold_left (fun v c => v * 16 + digit_value c)%N s v
  = (v * 16 ^ N.of_nat (length s) + hex_value s)%N.
Proof.
  unfold hex_value. revert v.
  induction s as [| c s IH]; intros v.
  - simpl. lia.
  - cbn [fold_left length]. rewrite IH, (IH (0 * 16 + digit_value c)%N).
    rewrite Nat2N.inj_succ, N.pow_succ_r'. lia.
Qed.

Lemma hex_value_cons (c : codeunit) (s : jsstring) :
  hex_value (c :: s) = (digit_value c * 16 ^ N.of_nat (length s) + hex_value s)%N.
Proof.
  unfold hex_value at 1. cbn [fold_left]. rewrite hex_value_from. lia.
Qed.

Lemma hex_digit_ok (d : N) :
  (d < 16)%N -> is_hex_digit (hex_digit d) /\ digit_value (hex_digit d) = d.
Proof.
  intros Hd. unfold hex_digit, is_hex_digit, digit_value.
  destruct (N.ltb_spec d 10).
  - destruct (N.ltb_spec (48 + d) 58); [split; lia | lia].
  - destruct (N.ltb_spec (87 + d) 58); [lia | split; lia].
Qed.

(** [to_hex] with enough fuel writes [n] in base 16 in front of [acc]. *)
Lemma to_hex_value (fuel : nat) (n : N) (acc : jsstring) :
  (n < 2 ^ N.of_nat fuel)%N ->
  hex_value (to_hex fuel n acc)
  = (n * 16 ^ N.of_nat (length acc) + hex_value acc)%N.
Proof.
  revert n acc. induction fuel as [| fuel IH]; intros n acc Hn.
  - simpl in *. assert (n = 0%N) by lia. subst. simpl. reflexivity.
  - cbn [to_hex].
    assert (Hmod : (n mod 16 < 16)%N) by (apply N.mod_lt; lia).
    destruct (hex_digit_ok _ Hmod) as [_ Hval].
    pose proof (N.div_mod n 16 ltac:(lia)) as Hdm.
    destruct (N.eqb_spec (n / 16) 0) as [Hz | Hnz].
    + rewrite hex_value_cons, Hval. rewrite Hz in Hdm. lia.
    + rewrite IH.
      * rewrite hex_value_cons, Hval. cbn [length].
        rewrite Nat2N.inj_succ, N.pow_succ_r'. lia.
      * rewrite Nat2N.inj_succ, N.pow_succ_r' in Hn.
        apply N.Div0.div_lt_upper_bound. lia.
Qed.

Lemma to_hex_digits (fuel : nat) (n : N) (acc : jsstring) :
  Forall is_hex_digit acc -> Forall is_hex_digit (to_hex fuel n acc).
Proof.
  revert n acc. induction fuel as [| fuel IH]; intros n acc Hacc; cbn [to_hex].
  - exact Hacc.
  - assert (Hd : is_hex_digit (hex_digit (n mod 16))).
    { apply hex_digit_ok. apply N.mod_lt. lia. }
    destruct (n / 16 =? 0)%N; [| apply IH]; constructor; assumption.
Qed.

Lemma to_hex_length (fuel : nat) (n : N) (acc : jsstring) (k : nat) :
  (1 <= k)%nat -> (n < 16 ^ N.of_nat k)%N ->
  (length (to_hex fuel n acc) <= k + length acc)%nat.
Proof.
  revert n acc k. induction fuel as [| fuel IH]; intros n acc k Hk Hn;
    cbn [to_hex].
  - lia.
  - destruct (N.eqb_spec (n / 16) 0) as [Hz | Hnz]; [simpl; lia |].
    destruct k as [| [| k]]; [lia | |].
    + exfalso. apply Hnz. apply N.div_small. simpl in Hn. lia.
    + specialize (IH (n / 16)%N (hex_digit (n mod 16) :: acc) (S k)).
      cbn [length] in IH. rewrite Nat.add_succ_r in IH. apply IH; [lia |].
      rewrite Nat2N.inj_succ, N.pow_succ_r' in Hn.
      apply N.Div0.div_lt_upper_bound. lia.
Qed.

Lemma log2_fuel (n : N) : (n < 2 ^ N.of_nat (S (N.to_nat (N.log2 n))))%N.
Proof.
  rewrite Nat2N.inj_succ, N2Nat.id.
  destruct (N.eq_dec n 0) as [-> | Hn]; [reflexivity |].
  apply N.log2_spec. lia.
Qed.

Lemma toString16_spec (n : N) :
  hex_value (toString16 n) = n /\ Forall is_hex_digit (toString16 n).
Proof.
  unfold toString16. split.
  - rewrite to_hex_value by apply log2_fuel.
    change (N.of_nat (length (@nil codeunit))) with 0%N.
    change (hex_value []) with 0%N. rewrite N.pow_0_r. lia.
  - apply to_hex_digits. constructor.
Qed.

Lemma padStart_zeros (s : jsstring) :
  (length s <= 6)%nat -> Forall is_hex_digit s ->
  length (padStart 6 48%N s) = 6%nat
  /\ Forall is_hex_digit (padStart 6 48%N s)
  /\ hex_value (padStart 6 48%N s) = hex_value s.
Proof.
  intros Hlen Hdigits. unfold padStart.
  split; [rewrite length_app, repeat_length; lia |].
  generalize (6 - length s)%nat as m. intros m. split.
  - apply Forall_app. split; [| exact Hdigits].
    apply Forall_forall. intros c Hc. apply repeat_spec in Hc. subst.
    unfold is_hex_digit. lia.
  - induction m as [| m IH]; [reflexivity |].
    cbn [repeat app]. rewrite hex_value_cons, IH. reflexivity.
Qed.

Lemma random_color_spec (r : Q) :
  0 <= r < 1 ->
  css_hex_color (random_color r) (Z.to_N (Qfloor (r * 16777215)))
  /\ (Z.to_N (Qfloor (r * 16777215)) < 16777215)%N
  /\ random_color r <> js "#ffffff".
Proof.
  intros Hr.
  pose proof (Qfloor_scaled_range r 16777215 ltac:(lia) Hr) as Hrange.
  change (inject_Z 16777215) with 16777215 in Hrange.
  set (n := Z.to_N (Qfloor (r * 16777215))).
  assert (Hn : (n < 16777215)%N) by (unfold n; lia).
  destruct (toString16_spec n) as [Hval Hdigits].
  assert (Hlen : (length (toString16 n) <= 6)%nat).
  { pose proof (to_hex_length (S (N.to_nat (N.log2 n))) n [] 6 ltac:(lia)) as H.
    simpl length in H. rewrite Nat.add_0_r in H. apply H.
    change (16 ^ N.of_nat 6)%N with 16777216%N. lia. }
  destruct (padStart_zeros _ Hlen Hdigits) as [Hlen6 [Hhex Hsame]].
  assert (Hcolor : css_hex_color (random_color r) n).
  { exists (padStart 6 48%N (toString16 n)). unfold random_color. fold n.
    repeat split; try assumption. now rewrite Hsame. }
  split; [exact Hcolor |]. split; [exact Hn |].
  intros Hwhite. destruct Hcolor as [digits [Heq [_ [_ Hv]]]].
  rewrite Hwhite in Heq.
  assert (Hd : digits = tl (js "#ffffff")) by (injection Heq as <-; reflexivity).
  rewrite Hd in Hv.
  change (hex_value (tl (js "#ffffff"))) with 16777215%N in Hv. lia.
Qed.

(** X6: whatever [Math.random] returns in [[0, 1)], the colour string
    [randomizeSettings] builds is a well-formed [#rrggbb] colour: six
    lowercase hexadecimal digits after the hash, zero-padded on the left,
    whose value is [floor(r * 16777215)].  That value never reaches
    [16777215], so pure white ([#ffffff]) is never drawn. *)
Theorem random_color_well_formed (r : Q) :
  0 <= r < 1 ->
  css_hex_color (random_color r) (Z.to_N (Qfloor (r * 16777215)))
  /\ (Z.to_N (Qfloor (r * 16777215)) < 16777215)%N
  /\ random_color r <> js "#ffffff".
Proof. exact (random_color_spec r). Qed.

Lemma random_color_well_formed_witness :
  css_hex_color (random_color (1 # 2)) 8388607.
Proof.
  assert (Hr : 0 <= 1 # 2 < 1) by (split; [discriminate | reflexivity]).
  exact (proj1 (random_color_well_formed (1 # 2) Hr)).
Defined.

(** ** What randomize draws *)

Lemma draw_when_sets (P : Settings -> Prop) (random : nat -> Q) (control : bool)
    (assign : Q -> Settings -> Settings) (lock : AutoSizing -> AutoSizing)
    (d : Draft) :
  unit_interval random -> control = true ->
  (forall r s, 0 <= r < 1 -> P (assign r s)) ->
  P (newSettings (draw_when random control assign lock d)).
Proof.
  intros Hrandom -> Hassign. unfold draw_when. simpl. apply Hassign, Hrandom.
Qed.

(** The [n] blocks after the one that draws a field leave it alone; that
    block sets it from a draw. *)
Tactic Notation "drawn_by_block" constr(P) integer(n) hyp(Hrandom) hyp(Hc) :=
  do n (apply (draw_when_inv P);
        [exact Hrandom | intros ? ? ? HP; exact HP |]);
  apply (draw_when_sets P); [exact Hrandom | exact Hc | ].

Lemma Qfloor_scaled_integer (r : Q) (k : Z) :
  (0 < k)%Z -> 0 <= r < 1 ->
  exists i, (0 <= i <= k - 1)%Z /\ Qfloor (r * inject_Z k) = i.
Proof.
  intros Hk Hr. exists (Qfloor (r * inject_Z k)).
  split; [now apply Qfloor_scaled_range | reflexivity].
Qed.

(** X7: every value [randomizeSettings] draws lies in a fixed domain: the
    font size is an integer from 4 to 31, the letter spacing lies in
    [[-2, 8)], the line height in [[0.5, 3)], contrast, brightness and
    saturation are integers from 0 to 399, the two colours are well-formed
    [#rrggbb] strings other than white, the character set is one of the
    presets and the font family one of [MONOSPACE_FONTS]. *)
Theorem randomize_draws_in_domain
    (random : nat -> Q) (rs : RandomSettings) (st : AppState) :
  unit_interval random ->
  enabled rs = true ->
  let s' := settings (randomizeSettings random rs st) in
  let c := controls rs in
  (c_fontSize c = true ->
   exists k, (4 <= k <= 31)%Z /\ fontSize s' == inject_Z k)
  /\ (c_letterSpacing c = true -> -2 <= letterSpacing s' < 8)
  /\ (c_lineHeight c = true -> 0.5 <= lineHeight s' < 3)
  /\ (c_contrast c = true ->
      exists k, (0 <= k <= 399)%Z /\ contrast s' = inject_Z k)
  /\ (c_brightness c = true ->
      exists k, (0 <= k <= 399)%Z /\ brightness s' = inject_Z k)
  /\ (c_saturation c = true ->
      exists k, (0 <= k <= 399)%Z /\ saturation s' = inject_Z k)
  /\ (c_foregroundColor c = true ->
      exists v, (v < 16777215)%N /\ css_hex_color (foregroundColor s') v)
  /\ (c_backgroundColor c = true ->
      exists v, (v < 16777215)%N /\ css_hex_color (backgroundColor s') v)
  /\ (c_asciiSet c = true -> In (asciiSet s') (map snd ASCII_PRESETS))
  /\ (c_fontFamily c = true -> In (fontFamily s') MONOSPACE_FONTS).
Proof.
  intros Hrandom Hon s' c. subst s' c.
  unfold randomizeSettings. rewrite Hon. cbn [negb]. cbv zeta. cbn [settings].
  repeat match goal with |- _ /\ _ => split end; intros Hc.
  - drawn_by_block
      (fun s => exists k, (4 <= k <= 31)%Z /\ fontSize s == inject_Z k)
      12 Hrandom Hc.
    intros r s Hr. cbn [fontSize set_fontSize with_geometry].
    destruct (Qfloor_scaled_integer r 28 ltac:(lia) Hr) as [i [Hi Ei]].
    exists (i + 4)%Z. split; [lia |].
    assert (Ef : Qfloor (r * (32 - 4)) = i).
    { rewrite <- Ei. apply Qfloor_comp. unfold inject_Z. ring. }
    rewrite Ef, inject_Z_plus. reflexivity.
  - drawn_by_block (fun s => -2 <= letterSpacing s < 8) 11 Hrandom Hc.
    intros r s Hr. cbn [letterSpacing set_letterSpacing with_geometry]. lra.
  - drawn_by_block (fun s => 0.5 <= lineHeight s < 3) 10 Hrandom Hc.
    intros r s Hr. cbn [lineHeight set_lineHeight with_geometry]. lra.
  - drawn_by_block
      (fun s => exists k, (0 <= k <= 399)%Z /\ contrast s = inject_Z k)
      9 Hrandom Hc.
    intros r s Hr. cbn [contrast set_contrast].
    destruct (Qfloor_scaled_integer r 400 ltac:(lia) Hr) as [i [Hi Ei]].
    exists i. split; [lia | now rewrite <- Ei].
  - drawn_by_block
      (fun s => exists k, (0 <= k <= 399)%Z /\ brightness s = inject_Z k)
      8 Hrandom Hc.
    intros r s Hr. cbn [brightness set_brightness].
    destruct (Qfloor_scaled_integer r 400 ltac:(lia) Hr) as [i [Hi Ei]].
    exists i. split; [lia | now rewrite <- Ei].
  - drawn_by_block
      (fun s => exists k, (0 <= k <= 399)%Z /\ saturation s = inject_Z k)
      7 Hrandom Hc.
    intros r s Hr. cbn [saturation set_saturation].
    destruct (Qfloor_scaled_integer r 400 ltac:(lia) Hr) as [i [Hi Ei]].
    exists i. split; [lia | now rewrite <- Ei].
  - drawn_by_block
      (fun s => exists v, (v < 16777215)%N
                          /\ css_hex_color (foregroundColor s) v)
      3 Hrandom Hc.
    intros r s Hr. cbn [foregroundColor set_foregroundColor].
    destruct (random_color_spec r Hr) as [Hcol [Hlt _]]. eauto.
  - drawn_by_block
      (fun s => exists v, (v < 16777215)%N
                          /\ css_hex_color (backgroundColor s) v)
      2 Hrandom Hc.
    intros r s Hr. cbn [backgroundColor set_backgroundColor].
    destruct (random_color_spec r Hr) as [Hcol [Hlt _]]. eauto.
  - drawn_by_block (fun s => In (asciiSet s) (map snd ASCII_PRESETS))
      1 Hrandom Hc.
    intros r s Hr. cbn [asciiSet set_asciiSet].
    apply random_pick_In; [exact Hr | discriminate].
  - drawn_by_block (fun s => In (fontFamily s) MONOSPACE_FONTS)
      0 Hrandom Hc.
    intros r s Hr. cbn [fontFamily set_fontFamily].
    apply random_pick_In; [exact Hr | discriminate].
Qed.

Lemma randomize_draws_in_domain_witness :
  let rs := {| enabled := true; interval := 2000; autoMode := false;
               controls := only FContrast |} in
  exists k, (0 <= k <= 399)%Z
            /\ contrast (settings (randomizeSettings (fun _ => 1 # 2) rs defaultApp))
               = inject_Z k.
Proof.
  intros rs.
  destruct (randomize_draws_in_domain (fun _ => 1 # 2) rs defaultApp
              half_is_unit_interval eq_refl) as [_ [_ [_ [H _]]]].
  apply H. reflexivity.
Defined.

(** ** Locks are never released *)

Lemma locks_kept_refl (a : AutoSizing) : locks_kept a a.
Proof. unfold locks_kept. tauto. Qed.

Lemma locks_kept_trans (a b c : AutoSizing) :
  locks_kept a b -> locks_kept b c -> locks_kept a c.
Proof. unfold locks_kept. tauto. Qed.

Lemma randomize_never_unlocks (random : nat -> Q) (rs : RandomSettings)
    (st : AppState) :
  locks_kept (autoSizing st) (autoSizing (randomizeSettings random rs st)).
Proof.
  destruct (enabled rs) eqn:Hon.
  - rewrite (randomize_locks random rs st Hon). unfold locks_kept. simpl.
    destruct (c_fontSize (controls rs)), (c_letterSpacing (controls rs)),
      (c_lineHeight (controls rs)); tauto.
  - unfold randomizeSettings. rewrite Hon. apply locks_kept_refl.
Qed.

Lemma run_action_keeps_locks (st : AppState) (act : Action) :
  locks_kept (autoSizing st) (autoSizing (run_action st act)).
Proof.
  destruct act as [[tw ps v w h | v | v | v | random rs] | | value | preset];
    simpl; try apply locks_kept_refl;
    try (unfold locks_kept; simpl; tauto).
  - apply randomize_never_unlocks.
  - unfold asciiPreset_onValueChange.
    destruct (negb _); [| apply locks_kept_refl].
    destruct (preset_lookup _ _) as [[| c chars] |]; apply locks_kept_refl.
Qed.

Lemma run_actions_keep_locks (acts : list Action) (st : AppState) :
  locks_kept (autoSizing st) (autoSizing (run_actions acts st)).
Proof.
  revert st. induction acts as [| act acts IH]; intros st.
  - apply locks_kept_refl.
  - unfold run_actions. simpl. eapply locks_kept_trans.
    + apply run_action_keeps_locks.
    + apply IH.
Qed.

(** X8: no handler of the component ever releases a lock.  Through any
    sequence of auto-fits, slider edits, randomizations, resets and character
    set changes, a dimension that is locked stays locked; "Reset Settings" in
    particular restores the default values but not automatic sizing. *)
Theorem locks_are_never_released (acts : list Action) (st : AppState) :
  locks_kept (autoSizing st) (autoSizing (run_actions acts st))
  /\ settings (resetSettings st) = DEFAULT_SETTINGS
  /\ autoSizing (resetSettings st) = autoSizing st.
Proof.
  split; [apply run_actions_keep_locks | split; reflexivity].
Qed.

(** ** A snapshot of the rendered grid *)

Lemma split_lines_line (row rest : jsstring) :
  ~ In LF row -> split_lines (row ++ LF :: rest) = row :: split_lines rest.
Proof.
  induction row as [| c row IH]; intros Hno.
  - reflexivity.
  - cbn [app split_lines].
    destruct (N.eqb_spec c LF) as [-> | _]; [exfalso; apply Hno; now left |].
    rewrite IH; [reflexivity |]. intros Hin. apply Hno. now right.
Qed.

Lemma split_lines_rows (rows : list jsstring) :
  Forall (fun row => ~ In LF row) rows ->
  split_lines (flat_map (fun row => row ++ [LF]) rows) = rows ++ [[]].
Proof.
  induction 1 as [| row rows Hrow _ IH]; [reflexivity |].
  cbn [flat_map app]. rewrite <- app_assoc. cbn [app].
  now rewrite split_lines_line, IH.
Qed.

Lemma max_length_uniform (rows : list jsstring) (n : nat) :
  rows <> [] -> Forall (fun row => length row = n) rows ->
  fold_right Nat.max 0%nat (map (@length codeunit) (rows ++ [[]])) = n.
Proof.
  intros Hne Hall.
  assert (Hgen : fold_right Nat.max 0%nat (map (@length codeunit) (rows ++ [[]]))
                 = match rows with [] => 0%nat | _ :: _ => n end).
  { clear Hne. induction Hall as [| row rows Hrow Hrows IH]; [reflexivity |].
    cbn [app map fold_right]. rewrite Hrow, IH. destruct rows; lia. }
  rewrite Hgen. destruct rows; [congruence | reflexivity].
Qed.

Lemma numbered_lines {A B} (g : nat * A -> B) (lines : list A) (start : nat)
    (f1 : A -> B) :
  (forall i a, g (i, a) = f1 a) ->
  map g (combine (seq start (length lines)) lines) = map f1 lines.
Proof.
  intros Hg. revert start.
  induction lines as [| a lines IH]; intros start; [reflexivity |].
  cbn [length seq combine map]. now rewrite Hg, IH.
Qed.

Lemma numbered_offsets {A B} (g : nat * A -> B) (lines : list A) (start : nat)
    (f2 : nat -> B) :
  (forall i a, g (i, a) = f2 i) ->
  map g (combine (seq start (length lines)) lines)
  = map f2 (seq start (length lines)).
Proof.
  intros Hg. revert start.
  induction lines as [| a lines IH]; intros start; [reflexivity |].
  cbn [length seq combine map]. now rewrite Hg, IH.
Qed.

(** The rows [processFrame] writes, for a ready video and a non-empty ramp. *)
Lemma processFrame_writes_rows
    (drawImage : DrawImage) (sampleStep : nat) (settings : Settings)
    (video : Video) (canvas : Canvas) (shown : jsstring) :
  readyState video = 4%nat ->
  asciiSet settings <> [] ->
  (1 <= sampleStep <= Nat.min (videoWidth video) (videoHeight video))%nat ->
  let dom := {| videoRef := Some video; canvasRef := Some canvas;
                context2d := true; asciiRef := Some shown |} in
  exists rows : list jsstring,
    asciiRef (snd (processFrame drawImage sampleStep settings true dom))
    = Some (flat_map (fun row => row ++ [LF]) rows)
    /\ length rows = (videoHeight video / sampleStep)%nat
    /\ Forall (fun row =>
                 length row = (videoWidth video / sampleStep)%nat
                 /\ Forall (fun c => In c (asciiSet settings)) row) rows.
Proof.
  intros Hready Hne Hstep dom.
  assert (Hw : (0 < videoWidth video / sampleStep)%nat)
    by (apply sampled_positive; lia).
  assert (Hh : (0 < videoHeight video / sampleStep)%nat)
    by (apply sampled_positive; lia).
  destruct (processFrame_renders drawImage sampleStep settings video canvas
              shown Hready Hw Hh) as [data [_ Hrun]].
  fold dom in Hrun. rewrite Hrun. cbn [snd asciiRef].
  set (width := (videoWidth video / sampleStep)%nat) in *.
  set (height := (videoHeight video / sampleStep)%nat) in *.
  exists (map (fun y =>
                 flat_map (fun x => append_value []
                                      (cellChar settings data width x y))
                          (seq 0 width))
              (seq 0 height)).
  split; [| split].
  - f_equal. rewrite renderAscii_rows. apply flat_map_as_rows.
  - now rewrite length_map, length_seq.
  - apply Forall_map. apply Forall_forall. intros y _.
    destruct (row_of_ramp_chars settings data width y (seq 0 width) Hne)
      as [Hlen Hin].
    rewrite length_seq in Hlen. split; assumption.
Qed.

(** X9: a snapshot taken of a rendered frame draws the grid's rows, each at
    [index * fontSize * 1.2], followed by one empty line (the text ends with a
    line break): for a grid of [rows] by [cols] cells the canvas is asked to
    be [cols * fontSize * 0.6] wide and [(rows + 1) * fontSize * 1.2] high.
    The ramp must not contain a line feed. *)
Theorem snapshot_of_rendered_frame
    (drawImage : DrawImage) (sampleStep : nat) (settings : Settings)
    (video : Video) (canvas : Canvas) (shown : jsstring) :
  readyState video = 4%nat ->
  asciiSet settings <> [] ->
  ~ In LF (asciiSet settings) ->
  (1 <= sampleStep <= Nat.min (videoWidth video) (videoHeight video))%nat ->
  let dom := {| videoRef := Some video; canvasRef := Some canvas;
                context2d := true; asciiRef := Some shown |} in
  let dom' := snd (processFrame drawImage sampleStep settings true dom) in
  let cols := (videoWidth video / sampleStep)%nat in
  let rows := (videoHeight video / sampleStep)%nat in
  exists (snap : Snapshot) (grid : list jsstring),
    saveSnapshot settings (asciiRef dom') true = Some snap
    /\ map fst (snap_fillText snap) = grid ++ [[]]
    /\ length grid = rows
    /\ Forall (fun row => length row = cols) grid
    /\ map snd (snap_fillText snap)
       = map (fun index => inject_Z (Z.of_nat index) * fontSize settings * 1.2)
             (seq 0 (rows + 1))
    /\ snap_width snap = inject_Z (Z.of_nat cols) * fontSize settings * 0.6
    /\ snap_height snap
       = inject_Z (Z.of_nat (rows + 1)) * fontSize settings * 1.2.
Proof.
  intros Hready Hne Hno Hstep dom dom' cols rows.
  destruct (processFrame_writes_rows drawImage sampleStep settings video canvas
              shown Hready Hne Hstep) as [grid [Htext [Hlen Hall]]].
  fold dom in Htext. fold dom' in Htext. fold rows in Hlen. fold cols in Hall.
  assert (Hlines : split_lines (flat_map (fun row => row ++ [LF]) grid)
                   = grid ++ [[]]).
  { apply split_lines_rows. apply Forall_forall. intros row Hrow Hin.
    apply Hno.
    destruct (proj1 (Forall_forall _ _) Hall row Hrow) as [_ Hramp].
    exact (proj1 (Forall_forall _ _) Hramp LF Hin). }
  assert (Hcount : length (grid ++ [[]]) = (rows + 1)%nat)
    by (rewrite length_app, Hlen; reflexivity).
  assert (Hrows : (0 < rows)%nat) by (apply sampled_positive; lia).
  assert (Hwide : fold_right Nat.max 0%nat
                    (map (@length codeunit) (grid ++ [[]])) = cols).
  { apply max_length_uniform.
    - intros ->. simpl in Hlen. lia.
    - eapply Forall_impl; [| exact Hall]. intros row [H _]. exact H. }
  rewrite Htext. unfold saveSnapshot. cbn [negb]. cbv zeta. rewrite Hlines.
  eexists _, grid. split; [reflexivity |].
  cbn [snap_fillText snap_width snap_height].
  rewrite Hwide, Hcount. repeat split.
  - rewrite map_map. rewrite <- Hcount.
    rewrite (numbered_lines _ _ 0 (fun l => l)); [apply map_id | reflexivity].
  - exact Hlen.
  - eapply Forall_impl; [| exact Hall]. intros row [H _]. exact H.
  - rewrite map_map. rewrite <- Hcount.
    apply (numbered_offsets _ _ 0
             (fun index => inject_Z (Z.of_nat index) * fontSize settings * 1.2)).
    reflexivity.
Qed.

Lemma snapshot_of_rendered_frame_witness :
  exists snap grid,
    saveSnapshot scenarioSettings
      (asciiRef (snd (processFrame cornerDraw 6 scenarioSettings true
                        (readyDom scenarioVideo []))))
      true = Some snap
    /\ map fst (snap_fillText snap) = grid ++ [[]]
    /\ snap_height snap = inject_Z 3 * 8 * 1.2.
Proof.
  assert (Hready : readyState scenarioVideo = 4%nat) by reflexivity.
  assert (Hne : asciiSet scenarioSettings <> []) by discriminate.
  assert (Hno : ~ In LF (asciiSet scenarioSettings)).
  { simpl. intros [H | [H | []]]; discriminate. }
  assert (Hstep : (1 <= 6 <= Nat.min (videoWidth scenarioVideo)
                                     (videoHeight scenarioVideo))%nat)
    by (vm_compute; lia).
  destruct (snapshot_of_rendered_frame cornerDraw 6 scenarioSettings
              scenarioVideo blankCanvas [] Hready Hne Hno Hstep)
    as [snap [grid [Hsnap [Hlines [_ [_ [_ [_ Hheight]]]]]]]].
  exists snap, grid. repeat split; assumption.
Defined.

(** ** The preset select *)

Lemma jsstring_eqb_eq (a b : jsstring) : jsstring_eqb a b = true <-> a = b.
Proof.
  revert b. induction a as [| x a IH]; intros [| y b]; simpl;
    try (split; [discriminate | congruence]); [tauto |].
  rewrite andb_true_iff, N.eqb_eq, IH. split; [intros [-> ->] | intros [= -> ->]];
    auto.
Qed.

Lemma find_preset_unknown (presets : list (string * jsstring)) (chars : jsstring) :
  ~ In chars (map snd presets) -> find_preset presets chars = None.
Proof.
  induction presets as [| [k v] rest IH]; simpl; intros Hno; [reflexivity |].
  destruct (jsstring_eqb v chars) eqn:E; [| auto].
  apply jsstring_eqb_eq in E. exfalso. auto.
Qed.

(** X10: the preset select and its handler agree.  After one of the twelve
    presets is chosen the select shows that preset's name (no two presets
    share a value); choosing ['Custom'] changes nothing; and after a
    character set that is no preset has been typed the select shows
    ['Custom']. *)
Theorem preset_select_round_trip
    (name : string) (value : jsstring) (st : AppState) :
  (In name (map fst ASCII_PRESETS) ->
   asciiPreset_value (settings (asciiPreset_onValueChange name st)) = name)
  /\ asciiPreset_onValueChange "Custom" st = st
  /\ (~ In value (map snd ASCII_PRESETS) ->
      asciiPreset_value (settings (asciiSet_onChange value st)) = "Custom"%string).
Proof.
  split; [| split].
  - intros Hin. simpl in Hin.
    repeat (destruct Hin as [<- | Hin]; [reflexivity |]). contradiction.
  - reflexivity.
  - intros Hno. unfold asciiPreset_value. cbn [asciiSet_onChange settings].
    cbn [asciiSet set_asciiSet].
    now rewrite (find_preset_unknown _ _ Hno).
Qed.

Lemma preset_select_round_trip_witness :
  asciiPreset_value (settings (asciiPreset_onValueChange "Retro" defaultApp))
  = "Retro"%string
  /\ asciiPreset_onValueChange "Custom" defaultApp = defaultApp
  /\ asciiPreset_value (settings (asciiSet_onChange (js "ab") defaultApp))
     = "Custom"%string.
Proof.
  destruct (preset_select_round_trip "Retro" (js "ab") defaultApp)
    as [H1 [H2 H3]].
  split; [| split].
  - apply H1. simpl. tauto.
  - exact H2.
  - apply H3. simpl. intros H.
    repeat (destruct H as [H | H]; [discriminate |]). contradiction.
Defined.

(** ** Luminance and the ramp index *)

Lemma pixelToAscii_rampIndex (settings : Settings) (luminance : Q)
    (chars : jsstring) :
  pixelToAscii settings luminance chars
  = charAt chars (rampIndex settings luminance chars).
Proof. reflexivity. Qed.

Lemma pixelLuminance_range (p : Pixel) :
  (0 <= red p <= 255)%Z -> (0 <= green p <= 255)%Z -> (0 <= blue p <= 255)%Z ->
  0 <= pixelLuminance p <= 1.
Proof.
  intros [Hr0 Hr1] [Hg0 Hg1] [Hb0 Hb1]. unfold pixelLuminance.
  rewrite Zle_Qle in Hr0, Hr1, Hg0, Hg1, Hb0, Hb1.
  change (inject_Z 0) with 0 in *. change (inject_Z 255) with 255 in *.
  split.
  - apply Qle_shift_div_l; [reflexivity |]. lra.
  - apply Qle_shift_div_r; [reflexivity |]. lra.
Qed.

(** X11: for image data read from a canvas of bytes, the luminance of every
    cell lies in [[0, 1]]; the index [floor(L * (N - 1))] is then already a
    position of a non-empty character set, so the clamp in [pixelToAscii]
    changes nothing for real pixels. *)
Theorem cell_luminance_in_unit_interval
    (c : Canvas) (w h : nat) (data : list Z) (x y : nat)
    (settings : Settings) (chars : jsstring) :
  byte_canvas c ->
  getImageData c w h = Some data ->
  (x < w)%nat -> (y < h)%nat ->
  chars <> [] ->
  let L := cellLuminance data w x y in
  let normalized := if invert settings then 1 - L else L in
  0 <= L <= 1
  /\ rampIndex settings L chars
     = Qfloor (normalized * (inject_Z (Z.of_nat (length chars)) - 1)).
Proof.
  intros Hbytes Hdata Hx Hy Hne L normalized.
  assert (HL : 0 <= L <= 1).
  { subst L. rewrite (cellLuminance_canvas_pixel c w h data x y Hdata Hx Hy).
    destruct (Hbytes x y) as [Hr [Hg Hb]]. now apply pixelLuminance_range. }
  split; [exact HL |].
  assert (Hn : 0 <= normalized <= 1).
  { subst normalized. destruct (invert settings); lra. }
  assert (HN : (1 <= Z.of_nat (length chars))%Z).
  { destruct chars; [congruence | simpl length; lia]. }
  unfold rampIndex. cbv zeta. fold L. fold normalized.
  set (N1 := inject_Z (Z.of_nat (length chars)) - 1).
  assert (EN1 : N1 == inject_Z (Z.of_nat (length chars) - 1))
    by apply inject_Z_pred.
  assert (HN1 : 0 <= N1).
  { rewrite EN1. change 0 with (inject_Z 0). rewrite <- Zle_Qle. lia. }
  assert (Hlo : (0 <= Qfloor (normalized * N1))%Z).
  { change 0%Z with (Qfloor 0). apply Qfloor_resp_le. nra. }
  assert (Hhi : (Qfloor (normalized * N1) <= Z.of_nat (length chars) - 1)%Z).
  { rewrite <- (Qfloor_Z (Z.of_nat (length chars) - 1)).
    apply Qfloor_resp_le. rewrite <- EN1. nra. }
  lia.
Qed.

Lemma cell_luminance_in_unit_interval_witness :
  exists data,
    getImageData (mkCanvas 1 1 (fun _ _ => mkPixel 255 255 255 255)) 1 1
    = Some data
    /\ 0 <= cellLuminance data 1 0 0 <= 1.
Proof.
  eexists. split; [reflexivity |].
  refine (proj1 (cell_luminance_in_unit_interval
                   (mkCanvas 1 1 (fun _ _ => mkPixel 255 255 255 255)) 1 1 _ 0 0
                   DEFAULT_SETTINGS (js " #") _ eq_refl _ _ _)).
  - intros x y. simpl. lia.
  - lia.
  - lia.
  - discriminate.
Defined.

(** X12: brighter never means earlier in the ramp.  [pixelToAscii] reads
    the character set at [rampIndex]; without [invert] that index is
    non-decreasing in the luminance, with [invert] it is non-increasing. *)
Theorem rampIndex_monotone
    (settings : Settings) (L1 L2 : Q) (chars : jsstring) :
  L1 <= L2 ->
  chars <> [] ->
  pixelToAscii settings L1 chars = charAt chars (rampIndex settings L1 chars)
  /\ pixelToAscii settings L2 chars = charAt chars (rampIndex settings L2 chars)
  /\ if invert settings
     then (rampIndex settings L2 chars <= rampIndex settings L1 chars)%Z
     else (rampIndex settings L1 chars <= rampIndex settings L2 chars)%Z.
Proof.
  intros HL Hne. split; [reflexivity |]. split; [reflexivity |].
  unfold rampIndex. cbv zeta.
  assert (HN : (1 <= Z.of_nat (length chars))%Z).
  { destruct chars; [congruence | simpl length; lia]. }
  set (N1 := inject_Z (Z.of_nat (length chars)) - 1).
  assert (HN1 : 0 <= N1).
  { unfold N1. rewrite inject_Z_pred. change 0 with (inject_Z 0).
    rewrite <- Zle_Qle. lia. }
  destruct (invert settings).
  - assert (H : (Qfloor ((1 - L2) * N1) <= Qfloor ((1 - L1) * N1))%Z)
      by (apply Qfloor_resp_le; nra).
    lia.
  - assert (H : (Qfloor (L1 * N1) <= Qfloor (L2 * N1))%Z)
      by (apply Qfloor_resp_le; nra).
    lia.
Qed.

Lemma rampIndex_monotone_witness :
  (rampIndex DEFAULT_SETTINGS (1 # 4) (js "@#%*+=-:. ")
   <= rampIndex DEFAULT_SETTINGS (3 # 4) (js "@#%*+=-:. "))%Z.
Proof.
  refine (proj2 (proj2 (rampIndex_monotone DEFAULT_SETTINGS (1 # 4) (3 # 4)
                          (js "@#%*+=-:. ") _ _))); discriminate.
Defined.

(** ** The auto-randomize timer *)

Lemma clearInterval_only (id : nat) : clearInterval id [id] = [].
Proof. unfold clearInterval. simpl. now rewrite Nat.eqb_refl. Qed.

Lemma timer_step_consistent (t : Timers) (e : TimerEvent) :
  timers_consistent t ->
  match e with
  | Start id => (0 < id)%nat /\ ~ In id (alive t)
  | Stop => True
  end ->
  timers_consistent (timer_step t e).
Proof.
  unfold timers_consistent.
  destruct t as [[[| old] |] live mode];
    cbn [randomIntervalRef alive autoModeOn].
  - intros [Hpos _]. lia.
  - intros [_ [-> ->]] He.
    destruct e as [id |];
      unfold timer_step, startAutoRandomize, stopAutoRandomize, ref_set;
      cbn [randomIntervalRef alive autoModeOn];
      rewrite clearInterval_only; [destruct He |]; auto.
  - intros [-> ->] He.
    destruct e as [id |];
      unfold timer_step, startAutoRandomize, stopAutoRandomize, ref_set;
      cbn [randomIntervalRef alive autoModeOn]; [destruct He |]; auto.
Qed.

Lemma timers_stay_consistent (events : list TimerEvent) (t : Timers) :
  timers_consistent t -> handles_fresh events t ->
  timers_consistent (fold_left timer_step events t).
Proof.
  revert t. induction events as [| e events IH]; intros t Ht Hfresh;
    [exact Ht |].
  destruct Hfresh as [He Hrest]. simpl. apply IH; [| exact Hrest].
  now apply timer_step_consistent.
Qed.

(** X13: however "Auto" and "Stop" are pressed, starting from no timer, at
    most one randomize interval is alive, it is the one the ref holds, and
    [autoMode] is on exactly when there is one; after "Stop" none is alive;
    and stopping twice is the same as stopping once. *)
Theorem auto_randomize_timer_never_leaks (events : list TimerEvent) :
  handles_fresh events noTimers ->
  let t := fold_left timer_step events noTimers in
  timers_consistent t
  /\ alive (stopAutoRandomize t) = []
  /\ stopAutoRandomize (stopAutoRandomize t) = stopAutoRandomize t.
Proof.
  intros Hfresh t.
  assert (Ht : timers_consistent t).
  { apply timers_stay_consistent; [| exact Hfresh]. split; reflexivity. }
  split; [exact Ht |].
  unfold timers_consistent in Ht.
  destruct t as [[id |] live mode];
    cbn [randomIntervalRef alive autoModeOn] in Ht.
  - destruct Ht as [Hpos [-> ->]]. destruct id as [| id]; [lia |].
    unfold stopAutoRandomize, ref_set.
    cbn [randomIntervalRef alive autoModeOn].
    rewrite clearInterval_only. split; reflexivity.
  - destruct Ht as [-> ->]. split; reflexivity.
Qed.

Lemma auto_randomize_timer_never_leaks_witness :
  alive (fold_left timer_step [Start 1; Start 2; Stop; Start 3] noTimers) = [3%nat].
Proof.
  assert (Hfresh : handles_fresh [Start 1; Start 2; Stop; Start 3] noTimers).
  { simpl. repeat split; try lia; intros H; simpl in H;
      repeat (destruct H as [H | H]; [discriminate |]); contradiction. }
  destruct (auto_randomize_timer_never_leaks _ Hfresh) as [H _].
  unfold timers_consistent in H. simpl in H. exact (proj1 (proj2 H)).
Defined.

(** ** The earlier auto-sizing routine *)

Lemma earlier_fill_arith (cols rows vw vh F L : Q) :
  0 < cols -> 0 < rows -> 0 < vh ->
  F == vh / rows ->
  L == (vw / cols - vh / rows * 0.6) / (vh / rows) ->
  rows * F == vh /\ cols * (F * 0.6 + L * F) == vw.
Proof.
  intros Hc Hr Hv EF EL. rewrite EF, EL. split; field; repeat split; lra.
Qed.

(** X14: in the earlier revision, with both dimensions automatic, the routine
    solves the viewport exactly whenever neither the font size nor the letter
    spacing is clamped: [rows] lines of one font size fill the height and
    [cols] cells of [0.6 * fontSize + letterSpacing * fontSize] fill the
    width; and a second call then writes nothing. *)
Theorem earlier_autofit_fills_viewport
    (pixelStep : nat) (video : Video) (viewportWidth viewportHeight : Q)
    (a : Earlier.AutoSizing) (s : Settings) :
  Earlier.auto_fontSize a = true -> Earlier.auto_letterSpacing a = true ->
  let rows := sampledRows pixelStep video in
  let cols := sampledCols pixelStep video in
  0 < cols -> 0 < rows -> 0 < viewportHeight ->
  4 <= viewportHeight / rows <= 128 ->
  -2 <= (viewportWidth / cols - viewportHeight / rows * 0.6)
        / (viewportHeight / rows) <= 8 ->
  let autofit :=
    Earlier.calculateAutoSize pixelStep (Some video) viewportWidth
      viewportHeight a in
  rows * fontSize (autofit s) == viewportHeight
  /\ gridWidthOf 0.6 cols (autofit s) == viewportWidth
  /\ autofit (autofit s) = autofit s.
Proof.
  intros Hf Hl rows cols Hc Hr Hvh HF HL autofit.
  assert (Hvideo : (negb (videoWidth video =? 0)
                    && negb (videoHeight video =? 0))%nat = true).
  { unfold cols, rows, sampledCols, sampledRows in Hc, Hr.
    destruct (videoWidth video);
      [rewrite Nat.Div0.div_0_l in Hc; discriminate Hc |].
    destruct (videoHeight video);
      [rewrite Nat.Div0.div_0_l in Hr; discriminate Hr |].
    reflexivity. }
  set (F := viewportHeight / rows) in *.
  set (L := (viewportWidth / cols - F * 0.6) / F) in *.
  assert (EF : clamp 4 128 F == F) by (apply clamp_inside; exact HF).
  assert (EL : clamp (-2) 8 L == L) by (apply clamp_inside; exact HL).
  assert (Hcall : forall s0,
            autofit s0
            = if negb (Qeq_bool F (fontSize s0))
                 || negb (Qeq_bool (clamp (-2) 8 L) (letterSpacing s0))
              then with_geometry s0 (clamp 4 128 F) (clamp (-2) 8 L)
                     (lineHeight s0)
              else s0).
  { intros s0. unfold autofit, Earlier.calculateAutoSize.
    rewrite Hvideo, Hf, Hl. reflexivity. }
  assert (Hres : fontSize (autofit s) == F
                 /\ letterSpacing (autofit s) == clamp (-2) 8 L
                 /\ autofit (autofit s) = autofit s).
  { rewrite (Hcall s).
    destruct (negb (Qeq_bool F (fontSize s))
              || negb (Qeq_bool (clamp (-2) 8 L) (letterSpacing s))) eqn:Hchanged.
    - cbn [fontSize letterSpacing with_geometry].
      split; [exact EF |]. split; [reflexivity |].
      rewrite Hcall. cbn [fontSize letterSpacing with_geometry].
      assert (E1 : Qeq_bool F (clamp 4 128 F) = true)
        by (apply Qeq_bool_iff; symmetry; exact EF).
      assert (E2 : Qeq_bool (clamp (-2) 8 L) (clamp (-2) 8 L) = true)
        by (apply Qeq_bool_iff; reflexivity).
      rewrite E1, E2. reflexivity.
    - apply orb_false_iff in Hchanged. destruct Hchanged as [H1 H2].
      apply negb_false_iff in H1, H2. apply Qeq_bool_iff in H1, H2.
      split; [symmetry; exact H1 |]. split; [symmetry; exact H2 |].
      rewrite Hcall. apply Qeq_bool_iff in H1, H2. rewrite H1, H2. reflexivity. }
  destruct Hres as [R1 [R2 Hsecond]].
  destruct (earlier_fill_arith cols rows viewportWidth viewportHeight
              (fontSize (autofit s)) (letterSpacing (autofit s))
              Hc Hr Hvh R1) as [HH HW].
  { rewrite R2. exact EL. }
  split; [exact HH |]. split; [exact HW | exact Hsecond].
Qed.

Lemma earlier_autofit_fills_viewport_witness :
  let autofit :=
    Earlier.calculateAutoSize 6 (Some camera) 1280 600
      (Earlier.mkAutoSizing true true) in
  sampledRows 6 camera * fontSize (autofit DEFAULT_SETTINGS) == 600
  /\ gridWidthOf 0.6 (sampledCols 6 camera) (autofit DEFAULT_SETTINGS) == 1280
  /\ autofit (autofit DEFAULT_SETTINGS) = autofit DEFAULT_SETTINGS.
Proof.
  apply (earlier_autofit_fills_viewport 6 camera 1280 600
           (Earlier.mkAutoSizing true true) DEFAULT_SETTINGS);
    try reflexivity; vm_compute; split; discriminate.
Defined.

(** ** Unlocked auto-fit only shrinks *)

Lemma clamp_le_current (lo hi x cur : Q) :
  lo <= cur -> cur <= hi -> x <= cur -> clamp lo hi x <= cur.
Proof.
  intros Hlo Hhi Hx. unfold clamp.
  destruct (Q.max_spec lo (Qmin hi x)) as [[H1 E1] | [H1 E1]];
    destruct (Q.min_spec hi x) as [[H2 E2] | [H2 E2]];
    generalize dependent (Qmax lo (Qmin hi x));
    generalize dependent (Qmin hi x); intros; lra.
Qed.

(** X15: with no dimension locked, auto-fit never enlarges anything: the font
    size and the (non-negative) letter spacing it returns are at most the
    current ones and the line height is the current one.  A grid smaller than
    the viewport is therefore never grown to fill it. *)
Theorem unlocked_autofit_only_shrinks
    (textWidth : jsstring -> Q -> option Q) (pixelStep : nat) (video : Video)
    (viewportWidth viewportHeight : Q) (a : AutoSizing) (s : Settings) :
  auto_fontSize a = true /\ auto_letterSpacing a = true
  /\ auto_lineHeight a = true ->
  0 < sampledCols pixelStep video /\ 0 < sampledRows pixelStep video ->
  0 < viewportWidth /\ 0 < viewportHeight ->
  0 < aspectOf textWidth s ->
  in_bounds s ->
  0 <= letterSpacing s ->
  let r := calculateAutoSize textWidth pixelStep (Some video) viewportWidth
             viewportHeight a s in
  fontSize r <= fontSize s
  /\ letterSpacing r <= letterSpacing s
  /\ lineHeight r == lineHeight s.
Proof.
  intros Hunlocked Hcells Hview Hglyph Hbounds Hsp r. subst r.
  destruct (unlocked_writes textWidth pixelStep video viewportWidth
              viewportHeight a s Hunlocked) as [-> | [Hnofit ->]].
  { split; [apply Qle_refl | split; [apply Qle_refl | reflexivity]]. }
  destruct (grid_positive textWidth pixelStep video s Hcells Hglyph Hbounds Hsp)
    as [HgW HgH].
  destruct Hview as [Hvw Hvh].
  destruct (scale_facts viewportWidth viewportHeight _ _ Hvw Hvh HgW HgH)
    as [Hs0 [_ [_ [_ [_ Hs1]]]]].
  assert (Hlt1 := Hs1 Hnofit). clear Hs1.
  set (sc := Qmin _ _) in *. clearbody sc.
  destruct Hbounds as [[Hf4 Hf128] [[Hh1 Hh3] [Hl2 Hl8]]].
  cbn [fontSize letterSpacing lineHeight with_geometry].
  split; [| split].
  - apply clamp_le_current; [assumption | assumption | nra].
  - apply clamp_le_current; [lra | assumption | nra].
  - apply clamp_inside. lra.
Qed.

Lemma unlocked_autofit_only_shrinks_witness :
  fontSize (calculateAutoSize noMetrics 6 (Some camera) 1280 600
              DEFAULT_AUTO_SIZING DEFAULT_SETTINGS)
  <= fontSize DEFAULT_SETTINGS.
Proof.
  refine (proj1 (unlocked_autofit_only_shrinks noMetrics 6 camera 1280 600
                   DEFAULT_AUTO_SIZING DEFAULT_SETTINGS default_unlocked
                   camera_cells _ _ default_in_bounds _)).
  - split; reflexivity.
  - reflexivity.
  - discriminate.
Defined.

(** ** Switching random controls *)

Lemma settings_ext (a b : Settings) :
  (forall f, same_field f a b) -> a = b.
Proof.
  intros H. destruct a, b.
  pose proof (H FFontSize). pose proof (H FLetterSpacing).
  pose proof (H FLineHeight). pose proof (H FContrast).
  pose proof (H FBrightness). pose proof (H FSaturation).
  pose proof (H FInvert). pose proof (H FGrayscale).
  pose proof (H FMirrorCamera). pose proof (H FForegroundColor).
  pose proof (H FBackgroundColor). pose proof (H FAsciiSet).
  pose proof (H FFontFamily). pose proof (H FShowStats).
  simpl in *. subst. reflexivity.
Qed.

(** X16: a random control that is switched off protects its field: whatever
    the other switches say, the next [randomizeSettings] leaves that field as
    it is, and switching one control does not move any other switch.  With
    every control off, or with random mode disabled, [randomizeSettings]
    changes neither the settings nor the locks. *)
Theorem switched_off_control_protects_field
    (random : nat -> Q) (rs : RandomSettings) (st : AppState)
    (f g : Field) (checked : bool) :
  f <> FShowStats ->
  control_of (controls (control_onCheckedChange f checked rs)) f = checked
  /\ (g <> f ->
      control_of (controls (control_onCheckedChange f checked rs)) g
      = control_of (controls rs) g)
  /\ same_field f (settings st)
       (settings (randomizeSettings random
                    (control_onCheckedChange f false rs) st))
  /\ ((forall h, control_of (controls rs) h = false) ->
      randomizeSettings random rs st = st)
  /\ (enabled rs = false -> randomizeSettings random rs st = st).
Proof.
  intros Hkey. split; [| split; [| split; [| split]]].
  - destruct f; try reflexivity. congruence.
  - intros Hne. destruct f, g; try reflexivity; congruence.
  - apply randomize_keeps_unselected.
    destruct f; try reflexivity.
  - intros Hoff. destruct st as [s a].
    assert (Hs : settings (randomizeSettings random rs (mkApp s a)) = s).
    { symmetry. apply settings_ext. intros h.
      apply (randomize_keeps_unselected random rs (mkApp s a) h (Hoff h)). }
    assert (Ha : autoSizing (randomizeSettings random rs (mkApp s a)) = a).
    { destruct (enabled rs) eqn:Hon.
      - rewrite (randomize_locks random rs (mkApp s a) Hon).
        rewrite (Hoff FFontSize : c_fontSize (controls rs) = false).
        rewrite (Hoff FLetterSpacing : c_letterSpacing (controls rs) = false).
        rewrite (Hoff FLineHeight : c_lineHeight (controls rs) = false).
        now destruct a.
      - unfold randomizeSettings. now rewrite Hon. }
    destruct (randomizeSettings random rs (mkApp s a)) as [s' a'].
    simpl in Hs, Ha. now subst.
  - intros Hoff. unfold randomizeSettings. now rewrite Hoff.
Qed.

Lemma switched_off_control_protects_field_witness :
  fontSize (settings defaultApp)
  = fontSize (settings (randomizeSettings (fun _ => 1 # 2)
                          (control_onCheckedChange FFontSize false
                             {| enabled := true; interval := 2000;
                                autoMode := false;
                                controls := only FFontSize |})
                          defaultApp)).
Proof.
  assert (Hkey : FFontSize <> FShowStats) by discriminate.
  exact (proj1 (proj2 (proj2
           (switched_off_control_protects_field (fun _ => 1 # 2)
              {| enabled := true; interval := 2000; autoMode := false;
                 controls := only FFontSize |}
              defaultApp FFontSize FFontSize false Hkey)))).
Defined.

(** * Auto-fit on JavaScript numbers *)

(** ** Numbers that are rationals *)

Lemma Qeq_bool_false (p q : Q) : ~ p == q -> Qeq_bool p q = false.
Proof.
  intros H. destruct (Qeq_bool p q) eqn:E; [| reflexivity].
  apply Qeq_bool_iff in E. contradiction.
Qed.

Lemma represents_value (x : IEEE.number) (p : Q) :
  IEEE.represents x p -> IEEE.value x == p.
Proof.
  destruct x; simpl; intros H; try contradiction; [exact H | now symmetry].
Qed.

Lemma represents_not_nan (x : IEEE.number) (p : Q) :
  IEEE.represents x p -> IEEE.is_nan x = false.
Proof. destruct x; simpl; intros H; try contradiction; reflexivity. Qed.

Lemma represents_not_infinite (x : IEEE.number) (p : Q) :
  IEEE.represents x p -> IEEE.is_infinite x = false.
Proof. destruct x; simpl; intros H; try contradiction; reflexivity. Qed.

Lemma represents_is_zero (x : IEEE.number) (p : Q) :
  IEEE.represents x p -> IEEE.is_zero x = Qeq_bool p 0.
Proof.
  destruct x; simpl; intros H; try contradiction.
  - now rewrite H.
  - symmetry. now apply Qeq_bool_iff.
Qed.

Lemma represents_comp (x : IEEE.number) (p q : Q) :
  p == q -> IEEE.represents x p -> IEEE.represents x q.
Proof.
  destruct x; cbn [IEEE.represents]; intros E H; try contradiction.
  - now rewrite <- E.
  - now rewrite <- E.
Qed.

Lemma represents_zero (negative : bool) (p : Q) :
  p == 0 -> IEEE.represents (IEEE.zero negative) p.
Proof. destruct negative; simpl; intros H; [exact H | now symmetry]. Qed.

(** Both operands are rationals: the tests for [NaN] and the infinities
    fail, and the test for zero is the test on the rational. *)
Ltac finite_operands x y p q Hx Hy :=
  rewrite ?(represents_not_nan x p Hx), ?(represents_not_nan y q Hy),
    ?(represents_not_infinite x p Hx), ?(represents_not_infinite y q Hy),
    ?(represents_is_zero x p Hx), ?(represents_is_zero y q Hy);
  cbn [orb andb];
  pose proof (represents_value x p Hx) as Vx;
  pose proof (represents_value y q Hy) as Vy.

Lemma represents_mul (x y : IEEE.number) (p q : Q) :
  IEEE.represents x p -> IEEE.represents y q ->
  IEEE.represents (IEEE.mul x y) (p * q).
Proof.
  intros Hx Hy. unfold IEEE.mul. finite_operands x y p q Hx Hy.
  destruct (Qeq_bool p 0) eqn:Ep; [| destruct (Qeq_bool q 0) eqn:Eq]; cbn [orb].
  - apply Qeq_bool_iff in Ep. apply represents_zero. rewrite Ep. ring.
  - apply Qeq_bool_iff in Eq. apply represents_zero. rewrite Eq. ring.
  - simpl. now rewrite Vx, Vy.
Qed.

Lemma represents_div (x y : IEEE.number) (p q : Q) :
  IEEE.represents x p -> IEEE.represents y q -> ~ q == 0 ->
  IEEE.represents (IEEE.div x y) (p / q).
Proof.
  intros Hx Hy Hq. unfold IEEE.div. finite_operands x y p q Hx Hy.
  rewrite (Qeq_bool_false q 0 Hq).
  destruct (Qeq_bool p 0) eqn:Ep.
  - apply Qeq_bool_iff in Ep. apply represents_zero. rewrite Ep. field. exact Hq.
  - simpl. now rewrite Vx, Vy.
Qed.

Lemma represents_add (x y : IEEE.number) (p q : Q) :
  IEEE.represents x p -> IEEE.represents y q ->
  IEEE.represents (IEEE.add x y) (p + q).
Proof.
  intros Hx Hy. unfold IEEE.add. finite_operands x y p q Hx Hy.
  destruct (Qeq_bool p 0 && Qeq_bool q 0) eqn:E.
  - apply andb_true_iff in E. destruct E as [Ep Eq].
    apply Qeq_bool_iff in Ep, Eq. apply represents_zero. rewrite Ep, Eq. ring.
  - cbv zeta. destruct (Qeq_bool (IEEE.value x + IEEE.value y) 0) eqn:Es.
    + apply Qeq_bool_iff in Es. simpl. rewrite <- Es, Vx, Vy. reflexivity.
    + simpl. now rewrite Vx, Vy.
Qed.

Lemma represents_neg (x : IEEE.number) (p : Q) :
  IEEE.represents x p -> IEEE.represents (IEEE.neg x) (- p).
Proof.
  destruct x; cbn [IEEE.represents IEEE.neg]; intros H; try contradiction.
  - destruct (Qeq_bool q 0) eqn:E; cbn [IEEE.represents].
    + apply Qeq_bool_iff in E. rewrite <- H, E. reflexivity.
    + now rewrite H.
  - rewrite H. reflexivity.
Qed.

Lemma represents_sub (x y : IEEE.number) (p q : Q) :
  IEEE.represents x p -> IEEE.represents y q ->
  IEEE.represents (IEEE.sub x y) (p - q).
Proof.
  intros Hx Hy. unfold IEEE.sub. apply represents_add; [exact Hx |].
  now apply represents_neg.
Qed.

Lemma represents_le (x y : IEEE.number) (p q : Q) :
  IEEE.represents x p -> IEEE.represents y q -> IEEE.le x y = Qle_bool p q.
Proof.
  intros Hx Hy.
  pose proof (represents_value x p Hx) as Vx.
  pose proof (represents_value y q Hy) as Vy.
  destruct x, y; cbn [IEEE.represents] in Hx, Hy; try contradiction;
    cbn [IEEE.le IEEE.value] in *; now rewrite <- Vx, <- Vy.
Qed.

Lemma represents_gt (x y : IEEE.number) (p q : Q) :
  IEEE.represents x p -> IEEE.represents y q -> IEEE.gt x y = Qgtb p q.
Proof.
  intros Hx Hy. unfold IEEE.gt, Qgtb.
  rewrite (represents_not_nan x p Hx), (represents_not_nan y q Hy).
  cbn [orb]. now rewrite (represents_le x y p q Hx Hy).
Qed.

Lemma Qle_bool_false (p q : Q) : Qle_bool p q = false -> q < p.
Proof.
  intros E. destruct (Qlt_le_dec q p) as [Hlt | Hle]; [exact Hlt |].
  apply Qle_bool_iff in Hle. congruence.
Qed.

Lemma represents_min (x y : IEEE.number) (p q : Q) :
  IEEE.represents x p -> IEEE.represents y q ->
  IEEE.represents (IEEE.Math_min x y) (Qmin p q).
Proof.
  intros Hx Hy. unfold IEEE.Math_min. finite_operands x y p q Hx Hy.
  rewrite (represents_le x y p q Hx Hy).
  destruct (Qeq_bool p 0 && Qeq_bool q 0) eqn:E.
  - apply andb_true_iff in E. destruct E as [Ep Eq].
    apply Qeq_bool_iff in Ep, Eq. apply represents_zero.
    rewrite Ep, Eq. reflexivity.
  - destruct (Qle_bool p q) eqn:Ele.
    + apply Qle_bool_iff in Ele.
      apply (represents_comp x p); [symmetry; now apply Q.min_l | exact Hx].
    + apply Qle_bool_false, Qlt_le_weak in Ele.
      apply (represents_comp y q); [symmetry; now apply Q.min_r | exact Hy].
Qed.

Lemma represents_max (x y : IEEE.number) (p q : Q) :
  IEEE.represents x p -> IEEE.represents y q ->
  IEEE.represents (IEEE.Math_max x y) (Qmax p q).
Proof.
  intros Hx Hy. unfold IEEE.Math_max. finite_operands x y p q Hx Hy.
  rewrite (represents_le x y p q Hx Hy).
  destruct (Qeq_bool p 0 && Qeq_bool q 0) eqn:E.
  - apply andb_true_iff in E. destruct E as [Ep Eq].
    apply Qeq_bool_iff in Ep, Eq. apply represents_zero.
    rewrite Ep, Eq. reflexivity.
  - destruct (Qle_bool p q) eqn:Ele.
    + apply Qle_bool_iff in Ele.
      apply (represents_comp y q); [symmetry; now apply Q.max_r | exact Hy].
    + apply Qle_bool_false, Qlt_le_weak in Ele.
      apply (represents_comp x p); [symmetry; now apply Q.max_l | exact Hx].
Qed.

Lemma represents_abs (x : IEEE.number) (p : Q) :
  IEEE.represents x p -> IEEE.represents (IEEE.Math_abs x) (Qabs p).
Proof.
  destruct x; cbn [IEEE.represents IEEE.Math_abs]; intros H; try contradiction.
  - now rewrite H.
  - rewrite H. reflexivity.
Qed.

Lemma represents_clamp (lo hi : Q) (x : IEEE.number) (p : Q) :
  IEEE.represents x p -> IEEE.represents (IEEE.clamp lo hi x) (clamp lo hi p).
Proof.
  intros H. unfold IEEE.clamp, clamp.
  apply represents_max; [reflexivity |].
  apply represents_min; [reflexivity | exact H].
Qed.

(** ** The routine on rationals is the routine on numbers *)

Lemma Qmult_nonzero (p q : Q) : ~ p * q == 0 -> ~ p == 0 /\ ~ q == 0.
Proof.
  intros H. split; intros E; apply H; rewrite E; ring.
Qed.

Lemma Qmult_nonzero_both (p q : Q) : ~ p == 0 -> ~ q == 0 -> ~ p * q == 0.
Proof.
  intros Hp Hq E. apply Qmult_integral in E. tauto.
Qed.

Ltac represented :=
  repeat first
    [ assumption
    | apply represents_mul
    | apply represents_sub
    | apply represents_add
    | apply represents_neg
    | apply represents_min
    | apply represents_div ].

Lemma solveGeometry_agrees (a : AutoSizing)
    (Vw Vh Rows Cols Aspect Fs Ls Lh : IEEE.number)
    (vw vh rows cols aspect fs ls lh : Q) :
  IEEE.represents Vw vw -> IEEE.represents Vh vh ->
  IEEE.represents Rows rows -> IEEE.represents Cols cols ->
  IEEE.represents Aspect aspect -> IEEE.represents Fs fs ->
  IEEE.represents Ls ls -> IEEE.represents Lh lh ->
  no_zero_divisor a vw vh rows cols aspect fs ls lh ->
  let '(F, L, H) := IEEE.solveGeometry a Vw Vh Rows Cols Aspect Fs Ls Lh in
  let '(f, l, h) := solveGeometry a vw vh rows cols aspect fs ls lh in
  IEEE.represents F f /\ IEEE.represents L l /\ IEEE.represents H h.
Proof.
  intros HVw HVh HRows HCols HAspect HFs HLs HLh.
  unfold no_zero_divisor, IEEE.solveGeometry, solveGeometry.
  destruct (auto_fontSize a), (auto_letterSpacing a), (auto_lineHeight a);
    cbn [andb negb]; cbv zeta;
    intros [HgW [HgH [Hasp Hsolved]]];
    destruct (Qmult_nonzero _ _ HgW) as [Hcols _];
    destruct (Qmult_nonzero _ _ HgH) as [Hrows Hcell];
    destruct (Qmult_nonzero _ _ Hcell) as [Hfs Hlh];
    repeat split; represented;
    try assumption; try (apply Qmult_nonzero_both; assumption).
Qed.

Lemma measureGlyphAspect_agrees (textWidth : jsstring -> Q -> option Q)
    (fontFamily : jsstring) (fontSize : Q) :
  ~ fontSize == 0 ->
  IEEE.represents (IEEE.measureGlyphAspect textWidth fontFamily fontSize)
    (measureGlyphAspect textWidth fontFamily fontSize).
Proof.
  intros Hfs. unfold IEEE.measureGlyphAspect, measureGlyphAspect.
  destruct (textWidth fontFamily fontSize) as [w |].
  - apply represents_div; [reflexivity | reflexivity | exact Hfs].
  - reflexivity.
Qed.

Lemma floor_div_agrees (n d : nat) :
  d <> 0%nat ->
  IEEE.represents (IEEE.floor_div n d) (inject_Z (Z.of_nat (n / d))).
Proof.
  intros Hd. unfold IEEE.floor_div.
  destruct (Nat.eqb_spec d 0) as [E | _]; [contradiction | reflexivity].
Qed.

(** One disjunct of the "update settings if changed" test. *)
Lemma difference_agrees (lo hi : Q) (X : IEEE.number) (x current : Q) (eps : Q) :
  IEEE.represents X x ->
  IEEE.gt (IEEE.Math_abs (IEEE.sub (IEEE.clamp lo hi X) (IEEE.Finite current)))
    (IEEE.Finite eps)
  = Qgtb (Qabs (clamp lo hi x - current)) eps.
Proof.
  intros HX. apply represents_gt; [| reflexivity].
  apply represents_abs, represents_sub; [| reflexivity].
  now apply represents_clamp.
Qed.

Lemma no_zero_divisor_pixelStep (pixelStep : nat) (video : Video) (q : Q) :
  ~ sampledRows pixelStep video * q == 0 -> pixelStep <> 0%nat.
Proof.
  intros H E. apply H. subst pixelStep. unfold sampledRows.
  rewrite Nat.div_0_r. simpl. ring.
Qed.

(** The two routines side by side. *)
Lemma calculateAutoSize_agrees
    (textWidth : jsstring -> Q -> option Q) (pixelStep : nat) (video : Video)
    (viewportWidth viewportHeight : Q) (a : AutoSizing) (s : Settings) :
  no_zero_divisor a viewportWidth viewportHeight (sampledRows pixelStep video)
    (sampledCols pixelStep video) (aspectOf textWidth s)
    (fontSize s) (letterSpacing s) (lineHeight s) ->
  let r := calculateAutoSize textWidth pixelStep (Some video) viewportWidth
             viewportHeight a s in
  match IEEE.calculateAutoSize textWidth pixelStep (Some video) viewportWidth
          viewportHeight a s with
  | None => r = s
  | Some (F, L, H) =>
      let '(f, l, h) :=
        solveGeometry a viewportWidth viewportHeight (sampledRows pixelStep video)
          (sampledCols pixelStep video) (aspectOf textWidth s)
          (fontSize s) (letterSpacing s) (lineHeight s) in
      IEEE.represents F (clamp 4 128 f)
      /\ IEEE.represents L (clamp (-2) 8 l)
      /\ IEEE.represents H (clamp 0.5 3 h)
      /\ r = with_geometry s (clamp 4 128 f) (clamp (-2) 8 l) (clamp 0.5 3 h)
  end.
Proof.
  intros Hnz r. subst r.
  assert (Hdiv := Hnz). unfold no_zero_divisor in Hdiv.
  destruct (solveGeometry _ _ _ _ _ _ _ _ _) as [[f0 l0] h0] in Hdiv.
  destruct Hdiv as [_ [HgH _]].
  assert (Hstep := no_zero_divisor_pixelStep _ _ _ HgH).
  destruct (Qmult_nonzero _ _ HgH) as [_ Hcell].
  destruct (Qmult_nonzero _ _ Hcell) as [Hfs _].
  clear f0 l0 h0 HgH Hcell.
  pose proof (floor_div_agrees (videoHeight video) pixelStep Hstep) as HRows.
  pose proof (floor_div_agrees (videoWidth video) pixelStep Hstep) as HCols.
  pose proof (measureGlyphAspect_agrees textWidth (fontFamily s) (fontSize s) Hfs)
    as HAspect.
  unfold aspectOf, sampledRows, sampledCols in *.
  unfold IEEE.calculateAutoSize, calculateAutoSize.
  destruct (negb (videoWidth video =? 0)%nat && negb (videoHeight video =? 0)%nat);
    [| reflexivity].
  cbv zeta.
  set (Rows := IEEE.floor_div (videoHeight video) pixelStep) in *.
  set (Cols := IEEE.floor_div (videoWidth video) pixelStep) in *.
  set (Aspect := IEEE.measureGlyphAspect textWidth (fontFamily s) (fontSize s)) in *.
  set (rows := inject_Z (Z.of_nat (videoHeight video / pixelStep))) in *.
  set (cols := inject_Z (Z.of_nat (videoWidth video / pixelStep))) in *.
  set (aspect := measureGlyphAspect textWidth (fontFamily s) (fontSize s)) in *.
  clearbody Rows Cols Aspect rows cols aspect.
  rewrite (represents_le _ _
             (cols * (fontSize s * aspect + letterSpacing s * fontSize s))
             viewportWidth)
    by (represented; reflexivity).
  rewrite (represents_le _ _ (rows * (fontSize s * lineHeight s)) viewportHeight)
    by (represented; reflexivity).
  destruct (Qle_bool _ _ && Qle_bool _ _); [reflexivity |].
  destruct (negb (auto_fontSize a) && _ && _); [reflexivity |].
  pose proof (solveGeometry_agrees a (IEEE.Finite viewportWidth)
                (IEEE.Finite viewportHeight) Rows Cols Aspect
                (IEEE.Finite (fontSize s)) (IEEE.Finite (letterSpacing s))
                (IEEE.Finite (lineHeight s))
                viewportWidth viewportHeight rows cols aspect
                (fontSize s) (letterSpacing s) (lineHeight s)
                (Qeq_refl _) (Qeq_refl _) HRows HCols HAspect
                (Qeq_refl _) (Qeq_refl _) (Qeq_refl _) Hnz) as Hsolve.
  destruct (IEEE.solveGeometry _ _ _ _ _ _ _ _ _) as [[F L] H].
  destruct (solveGeometry _ _ _ _ _ _ _ _ _) as [[f l] h].
  destruct Hsolve as [HF [HL HH]].
  rewrite (difference_agrees 4 128 F f (fontSize s) 0.1 HF).
  rewrite (difference_agrees (-2) 8 L l (letterSpacing s) 0.01 HL).
  rewrite (difference_agrees 0.5 3 H h (lineHeight s) 0.01 HH).
  destruct (Qgtb _ _ || Qgtb _ _ || Qgtb _ _); [| reflexivity].
  repeat split; now apply represents_clamp.
Qed.



(** ** What the clamp lets through *)

Lemma Qeq_bool_neq_0 (p : Q) : Qeq_bool p 0 = false -> ~ p == 0.
Proof. intros E H. apply Qeq_bool_iff in H. congruence. Qed.

(** [Math.max(lo, Math.min(hi, x))] is [NaN] exactly when [x] is, and a
    number between [lo] and [hi] otherwise, infinities included. *)
Lemma clamp_range_or_nan (lo hi : Q) (x : IEEE.number) :
  lo <= hi ->
  (IEEE.is_nan x = true /\ IEEE.clamp lo hi x = IEEE.NaN)
  \/ (IEEE.is_nan x = false /\ IEEE.in_range lo hi (IEEE.clamp lo hi x)).
Proof.
  intros Hle. unfold IEEE.in_range.
  destruct x as [q | | | |]; [right | right | right | right | left];
    [| | | | split; reflexivity];
    (split; [reflexivity |]);
    unfold IEEE.clamp, IEEE.Math_max, IEEE.Math_min, IEEE.le, IEEE.zero;
    cbn [IEEE.is_nan IEEE.is_zero IEEE.is_infinite IEEE.signbit IEEE.value
         orb andb negb];
    repeat match goal with
      | |- context [Qeq_bool ?a ?b] =>
          let E := fresh "E" in
          destruct (Qeq_bool a b) eqn:E;
          [apply Qeq_bool_iff in E | apply Qeq_bool_neq_0 in E];
          cbn [IEEE.is_nan IEEE.is_zero IEEE.is_infinite IEEE.signbit
               IEEE.value orb andb negb]
      | |- context [Qle_bool ?a ?b] =>
          let E := fresh "E" in
          destruct (Qle_bool a b) eqn:E;
          [apply Qle_bool_iff in E | apply Qle_bool_false in E];
          cbn [IEEE.is_nan IEEE.is_zero IEEE.is_infinite IEEE.signbit
               IEEE.value orb andb negb]
      end;
    cbn [IEEE.represents];
    first [ exists lo; split; [reflexivity | lra]
          | exists hi; split; [reflexivity | lra]
          | exists 0; split; [reflexivity | lra]
          | exists q; split; [reflexivity | lra]
          | exfalso; lra ].
Qed.

(** X18: whatever auto-fit stores is, value by value, a number within the
    bounds of its field or [NaN]: the clamp turns an infinity into a bound
    and lets [NaN], and nothing else, through. *)
Theorem autofit_writes_in_range_or_nan
    (textWidth : jsstring -> Q -> option Q) (pixelStep : nat)
    (videoRef : option Video) (innerWidth innerHeight : Q) (a : AutoSizing)
    (s : Settings) (F L H : IEEE.number) :
  IEEE.calculateAutoSize textWidth pixelStep videoRef innerWidth innerHeight a s
  = Some (F, L, H) ->
  (F = IEEE.NaN \/ IEEE.in_range 4 128 F)
  /\ (L = IEEE.NaN \/ IEEE.in_range (-2) 8 L)
  /\ (H = IEEE.NaN \/ IEEE.in_range 0.5 3 H).
Proof.
  unfold IEEE.calculateAutoSize.
  destruct videoRef as [video |]; [| discriminate].
  destruct (negb (videoWidth video =? 0)%nat && negb (videoHeight video =? 0)%nat);
    [| discriminate].
  cbv zeta.
  destruct (IEEE.le _ _ && IEEE.le _ _); [discriminate |].
  destruct (negb (auto_fontSize a) && _ && _); [discriminate |].
  destruct (IEEE.solveGeometry _ _ _ _ _ _ _ _ _) as [[f l] h].
  destruct (IEEE.gt _ _ || IEEE.gt _ _ || IEEE.gt _ _); [| discriminate].
  intros [= <- <- <-].
  repeat split.
  - destruct (clamp_range_or_nan 4 128 f ltac:(discriminate)) as [[_ E] | [_ R]];
      [left | right]; assumption.
  - destruct (clamp_range_or_nan (-2) 8 l ltac:(discriminate)) as [[_ E] | [_ R]];
      [left | right]; assumption.
  - destruct (clamp_range_or_nan 0.5 3 h ltac:(discriminate)) as [[_ E] | [_ R]];
      [left | right]; assumption.
Qed.

Lemma autofit_writes_in_range_or_nan_witness :
  IEEE.in_range 4 128 (IEEE.Finite 128) /\ IEEE.in_range 0.5 3 (IEEE.Finite 1).
Proof.
  destruct (autofit_writes_in_range_or_nan noMetrics 6
              (Some {| readyState := 4; videoWidth := 640; videoHeight := 5;
                       picture := picture camera |})
              400 300 (lock_lineHeight DEFAULT_AUTO_SIZING) DEFAULT_SETTINGS
              (IEEE.Finite 128) IEEE.NaN (IEEE.Finite 1) eq_refl)
    as [HF [_ HH]].
  split.
  - destruct HF as [E | R]; [discriminate E | exact R].
  - destruct HH as [E | R]; [discriminate E | exact R].
Defined.

(** X19: when no divisor is zero, what auto-fit stores is within bounds: a
    font size in [[4, 128]], a letter spacing in [[-2, 8]] and a line height
    in [[0.5, 3]], none of them [NaN]. *)
Theorem autofit_in_bounds_without_zero_divisor
    (textWidth : jsstring -> Q -> option Q) (pixelStep : nat) (video : Video)
    (viewportWidth viewportHeight : Q) (a : AutoSizing) (s : Settings)
    (F L H : IEEE.number) :
  no_zero_divisor a viewportWidth viewportHeight (sampledRows pixelStep video)
    (sampledCols pixelStep video) (aspectOf textWidth s)
    (fontSize s) (letterSpacing s) (lineHeight s) ->
  IEEE.calculateAutoSize textWidth pixelStep (Some video) viewportWidth
    viewportHeight a s = Some (F, L, H) ->
  IEEE.in_range 4 128 F /\ IEEE.in_range (-2) 8 L /\ IEEE.in_range 0.5 3 H.
Proof.
  intros Hnz Hwrite.
  pose proof (calculateAutoSize_agrees textWidth pixelStep video viewportWidth
                viewportHeight a s Hnz) as Hagree.
  cbv zeta in Hagree. rewrite Hwrite in Hagree.
  destruct (solveGeometry _ _ _ _ _ _ _ _ _) as [[f l] h].
  destruct Hagree as [HF [HL [HH _]]].
  split; [| split].
  - exists (clamp 4 128 f). split; [exact HF | apply clamp_range; discriminate].
  - exists (clamp (-2) 8 l). split; [exact HL | apply clamp_range; discriminate].
  - exists (clamp 0.5 3 h). split; [exact HH | apply clamp_range; discriminate].
Qed.

Lemma autofit_in_bounds_without_zero_divisor_witness :
  IEEE.in_range 4 128 (IEEE.Finite (4800 # 640))
  /\ IEEE.in_range (-2) 8 (IEEE.Finite 0)
  /\ IEEE.in_range 0.5 3 (IEEE.Finite 1).
Proof.
  apply (autofit_in_bounds_without_zero_divisor monospaceMetrics 6 camera 1280
           600 DEFAULT_AUTO_SIZING DEFAULT_SETTINGS).
  - exact (camera_no_zero_divisor 600 eq_refl).
  - vm_compute. reflexivity.
Defined.

(** ** A frame smaller than the sample step *)

(** X20: a frame that has its data and is narrower or lower than the sample
    step is not skipped: the canvas is resized to the zero-area grid, the
    read of its pixels throws [IndexSizeError], nothing is rendered and the
    text on display stays. *)
Theorem frame_smaller_than_step_throws
    (drawImage : DrawImage) (pixelStep : nat) (settings : Settings)
    (video : Video) (canvas : Canvas) (shown : jsstring) :
  readyState video = 4%nat ->
  (videoWidth video < pixelStep \/ videoHeight video < pixelStep)%nat ->
  let result :=
    processFrame drawImage pixelStep settings true
      {| videoRef := Some video; canvasRef := Some canvas;
         context2d := true; asciiRef := Some shown |} in
  fst result = IndexSizeError
  /\ option_map (fun c => (cwidth c, cheight c)) (canvasRef (snd result))
     = Some (videoWidth video / pixelStep, videoHeight video / pixelStep)%nat
  /\ asciiRef (snd result) = Some shown.
Proof.
  intros Hready Hsmall result. subst result.
  rewrite processFrame_zero_area.
  - repeat split.
  - exact Hready.
  - destruct Hsmall as [H | H]; [left | right]; now apply Nat.div_small.
Qed.

Lemma frame_smaller_than_step_throws_witness :
  let strip := {| readyState := 4; videoWidth := 640; videoHeight := 5;
                  picture := picture camera |} in
  fst (processFrame cornerDraw 6 DEFAULT_SETTINGS true (readyDom strip (js "##")))
  = IndexSizeError.
Proof.
  intros strip.
  exact (proj1 (frame_smaller_than_step_throws cornerDraw 6 DEFAULT_SETTINGS
                  strip blankCanvas (js "##") eq_refl
                  (or_intror (Nat.lt_succ_diag_r 5)))).
Defined.

(** ** Sliders and randomize within bounds *)

(** X21: a slider edit with a value between the slider's [min] and [max], and
    randomize with [Math.random] in [[0, 1)], leave the font size in
    [[4, 128]], the line height in [[0.5, 3]] and the letter spacing in
    [[-2, 8]] when they were there before. *)
Theorem sliders_and_randomize_stay_in_bounds (op : GeometryOp) (st : AppState) :
  op_inputs_ok op ->
  in_bounds (settings st) ->
  match op with
  | AutoFit _ _ _ _ _ => True
  | _ => in_bounds (settings (run_op op st))
  end.
Proof.
  intros Hinputs Hst.
  destruct op as [textWidth pixelStep video w h | v | v | v | random rs];
    simpl in *.
  - exact I.
  - unfold within, in_bounds in *. simpl in *. lra.
  - unfold within, in_bounds in *. simpl in *. lra.
  - unfold within, in_bounds in *. simpl in *. lra.
  - now apply randomize_in_bounds.
Qed.

Lemma sliders_and_randomize_stay_in_bounds_witness :
  in_bounds (settings (run_op (EditFontSize 12) defaultApp))
  /\ in_bounds (settings (run_op (Randomize (fun _ => 1 # 2)
                                    {| enabled := true; interval := 2000;
                                       autoMode := false;
                                       controls := only FLineHeight |})
                                 defaultApp)).
Proof.
  split.
  - apply (sliders_and_randomize_stay_in_bounds (EditFontSize 12) defaultApp).
    + split; discriminate.
    + exact default_in_bounds.
  - apply (sliders_and_randomize_stay_in_bounds
             (Randomize (fun _ => 1 # 2)
                {| enabled := true; interval := 2000; autoMode := false;
                   controls := only FLineHeight |}) defaultApp).
    + exact half_is_unit_interval.
    + exact default_in_bounds.
Defined.
